(** * Polaris EKF: a shallow embedding of the C sources and its properties

    The development follows the layout of the repository:
      - [Core/Src/math/vector3f.c], [Core/Src/math/quaternion.c]: pure
        functions on small records passed by value;
      - [Core/Src/math/matrix.c]: functions that take [Matrix *] arguments;
        they are embedded in a state-and-fault monad over a store of
        matrices, so that two pointer arguments naming the same matrix
        behave as they do in C;
      - [Core/Src/ekf/ekf_init.c], [ekf_predict.c], [ekf_update.c]: the
        filter, whose [EKF] structure lives in the same store.

    The C type [float] is a parameter of the embedding (class [Scalar]).
    Two instances are given: [binary32] (IEEE-754 single precision, on
    which the code can be run) and the real numbers (exact arithmetic). *)

From Stdlib Require Import ZArith Arith Bool List Lia.
From Stdlib Require Import FunctionalExtensionality.
From Stdlib Require Import Floats.SpecFloat.
From Stdlib Require Import Reals Lra.
Import ListNotations.

Set Implicit Arguments.

(* ================================================================== *)
(** ** The C type [float] *)
(* ================================================================== *)

(** What the sources use of [float]: decimal literals, the four
    operations, unary minus, [fabsf], [sqrtf] and the comparisons [<] and
    [<=] ([a > b] is [b < a], [a >= b] is [b <= a]).  [f_lit n d] is the
    literal whose decimal value is [n/d], rounded once. *)
Class Scalar (T : Type) : Type := {
  f_lit : Z -> positive -> T;
  fadd : T -> T -> T;
  fsub : T -> T -> T;
  fmul : T -> T -> T;
  fdiv : T -> T -> T;
  fneg : T -> T;
  fabsf : T -> T;
  sqrtf : T -> T;
  flt : T -> T -> bool;
  fle : T -> T -> bool
}.

(** The remaining <math.h> functions, used only by the Euler-angle
    conversions.  [half_pi] is the constant [M_PI / 2.0f]. *)
Class Libm (T : Type) : Type := {
  cosf : T -> T;
  sinf : T -> T;
  asinf : T -> T;
  atan2f : T -> T -> T;
  copysignf : T -> T -> T;
  half_pi : T
}.

(** [acosf], used only by [vector3f_angle]. *)
Class Acos (T : Type) : Type := { acosf : T -> T }.

Declare Scope fl_scope.
Delimit Scope fl_scope with fl.
Infix "+" := fadd : fl_scope.
Infix "-" := fsub : fl_scope.
Infix "*" := fmul : fl_scope.
Infix "/" := fdiv : fl_scope.
Notation "- x" := (fneg x) : fl_scope.
Infix "<?" := flt : fl_scope.
Infix "<=?" := fle : fl_scope.
Notation "x >? y" := (flt y x) : fl_scope.
Notation "x >=? y" := (fle y x) : fl_scope.

Section Literals.
Context {T : Type} `{Scalar T}.
Definition f_0 : T := f_lit 0 1.             (* 0.0f *)
Definition f_1 : T := f_lit 1 1.             (* 1.0f *)
Definition f_2 : T := f_lit 2 1.             (* 2.0f *)
Definition f_half : T := f_lit 1 2.          (* 0.5f *)
Definition f_1em6 : T := f_lit 1 1000000.    (* 1e-6f *)
End Literals.

(** *** IEEE-754 single precision *)

Module Binary32.
Definition prec : Z := 24.
Definition emax : Z := 128.
Definition binary32 : Type := spec_float.

Definition of_Z (n : Z) : binary32 := binary_normalize prec emax n 0 false.

(** A decimal literal [n/d] with [n] and [d] below [2^24]: one correctly
    rounded division of two exactly represented integers. *)
Definition lit (n : Z) (d : positive) : binary32 :=
  SFdiv prec emax (of_Z n) (of_Z (Zpos d)).

#[global] Instance Scalar_binary32 : Scalar binary32 := {
  f_lit := lit;
  fadd := SFadd prec emax;
  fsub := SFsub prec emax;
  fmul := SFmul prec emax;
  fdiv := SFdiv prec emax;
  fneg := SFopp;
  fabsf := SFabs;
  sqrtf := SFsqrt prec emax;
  flt := SFltb;
  fle := SFleb
}.
End Binary32.

(** *** Exact arithmetic *)

Module Exact.
Definition Rltb (a b : R) : bool := if Rlt_dec a b then true else false.
Definition Rleb (a b : R) : bool := if Rle_dec a b then true else false.

#[global] Instance Scalar_R : Scalar R := {
  f_lit := fun n d => (IZR n / IZR (Zpos d))%R;
  fadd := Rplus;
  fsub := Rminus;
  fmul := Rmult;
  fdiv := Rdiv;
  fneg := Ropp;
  fabsf := Rabs;
  sqrtf := sqrt;
  flt := Rltb;
  fle := Rleb
}.

Definition Ratan2 (y x : R) : R :=
  if Rlt_dec 0 x then atan (y / x)
  else if Rlt_dec x 0 then
    (if Rle_dec 0 y then atan (y / x) + PI else atan (y / x) - PI)%R
  else if Rlt_dec 0 y then (PI / 2)%R
  else if Rlt_dec y 0 then (- PI / 2)%R
  else 0%R.

Definition Rcopysign (x y : R) : R :=
  if Rlt_dec y 0 then (- Rabs x)%R else Rabs x.

#[global] Instance Libm_R : Libm R := {
  cosf := cos;
  sinf := sin;
  asinf := asin;
  atan2f := Ratan2;
  copysignf := Rcopysign;
  half_pi := (PI / 2)%R
}.

#[global] Instance Acos_R : Acos R := { acosf := acos }.
End Exact.

(* ================================================================== *)
(** ** Core/Inc/math/quaternion.h, Core/Inc/math/vector3f.h: the records *)
(* ================================================================== *)

Record Vector3f (T : Type) : Type := mkVector3f { vx : T; vy : T; vz : T }.
Record Quaternion (T : Type) : Type :=
  mkQuaternion { qw : T; qx : T; qy : T; qz : T }.

(* ================================================================== *)
(** ** Core/Src/math/vector3f.c *)
(* ================================================================== *)

Module vector3f_c.
Section Defs.
Context {T : Type} `{Scalar T}.
Local Open Scope fl_scope.

Definition vector3f_zero : Vector3f T := mkVector3f f_0 f_0 f_0.
Definition vector3f_create (x y z : T) : Vector3f T := mkVector3f x y z.

Definition vector3f_add (v1 v2 : Vector3f T) : Vector3f T :=
  mkVector3f (vx v1 + vx v2) (vy v1 + vy v2) (vz v1 + vz v2).
Definition vector3f_scale (v : Vector3f T) (scalar : T) : Vector3f T :=
  mkVector3f (vx v * scalar) (vy v * scalar) (vz v * scalar).
Definition vector3f_cross (v1 v2 : Vector3f T) : Vector3f T :=
  mkVector3f (vy v1 * vz v2 - vz v1 * vy v2)
             (vz v1 * vx v2 - vx v1 * vz v2)
             (vx v1 * vy v2 - vy v1 * vx v2).

Definition vector3f_magnitude (v : Vector3f T) : T :=
  sqrtf (vx v * vx v + vy v * vy v + vz v * vz v).

(** [result = v; if (mag > 1e-6f) { result.x *= inv_mag; ... }] *)
Definition vector3f_normalize (v : Vector3f T) : Vector3f T :=
  let mag := vector3f_magnitude v in
  if mag >? f_1em6 then
    let inv_mag := f_1 / mag in
    mkVector3f (vx v * inv_mag) (vy v * inv_mag) (vz v * inv_mag)
  else v.

Definition vector3f_subtract (v1 v2 : Vector3f T) : Vector3f T :=
  mkVector3f (vx v1 - vx v2) (vy v1 - vy v2) (vz v1 - vz v2).

Definition vector3f_dot (v1 v2 : Vector3f T) : T :=
  vx v1 * vx v2 + vy v1 * vy v2 + vz v1 * vz v2.

Definition vector3f_magnitude_squared (v : Vector3f T) : T :=
  vx v * vx v + vy v * vy v + vz v * vz v.

Definition vector3f_angle `{Acos T} (v1 v2 : Vector3f T) : T :=
  let mag1 := vector3f_magnitude v1 in
  let mag2 := vector3f_magnitude v2 in
  if (mag1 <? f_1em6) || (mag2 <? f_1em6) then f_0
  else
    let dot := vector3f_dot v1 v2 in
    let cos_angle := dot / (mag1 * mag2) in
    let cos_angle :=
      if cos_angle >? f_1 then f_1
      else if cos_angle <? - f_1 then - f_1
      else cos_angle in
    acosf cos_angle.

Definition vector3f_equals (v1 v2 : Vector3f T) (epsilon : T) : bool :=
  if fabsf (vx v1 - vx v2) >? epsilon then false
  else if fabsf (vy v1 - vy v2) >? epsilon then false
  else if fabsf (vz v1 - vz v2) >? epsilon then false
  else true.
End Defs.
End vector3f_c.

(* ================================================================== *)
(** ** Core/Src/math/quaternion.c *)
(* ================================================================== *)

Section quaternion_c.
Context {T : Type} `{Scalar T}.
Local Open Scope fl_scope.

Definition quaternion_identity : Quaternion T := mkQuaternion f_1 f_0 f_0 f_0.
Definition quaternion_create (w x y z : T) : Quaternion T := mkQuaternion w x y z.

Definition quaternion_magnitude (q : Quaternion T) : T :=
  sqrtf (qw q * qw q + qx q * qx q + qy q * qy q + qz q * qz q).

Definition quaternion_normalize (q : Quaternion T) : Quaternion T :=
  let magnitude := quaternion_magnitude q in
  if magnitude <? f_1em6 then quaternion_identity
  else
    let inv_magnitude := f_1 / magnitude in
    mkQuaternion (qw q * inv_magnitude) (qx q * inv_magnitude)
                 (qy q * inv_magnitude) (qz q * inv_magnitude).

Definition quaternion_multiply (q1 q2 : Quaternion T) : Quaternion T :=
  mkQuaternion
    (qw q1 * qw q2 - qx q1 * qx q2 - qy q1 * qy q2 - qz q1 * qz q2)
    (qw q1 * qx q2 + qx q1 * qw q2 + qy q1 * qz q2 - qz q1 * qy q2)
    (qw q1 * qy q2 - qx q1 * qz q2 + qy q1 * qw q2 + qz q1 * qx q2)
    (qw q1 * qz q2 + qx q1 * qy q2 - qy q1 * qx q2 + qz q1 * qw q2).

Definition quaternion_conjugate (q : Quaternion T) : Quaternion T :=
  mkQuaternion (qw q) (- qx q) (- qy q) (- qz q).

Definition quaternion_inverse (q : Quaternion T) : Quaternion T :=
  let conjugate := quaternion_conjugate q in
  let magnitude_squared :=
    qw q * qw q + qx q * qx q + qy q * qy q + qz q * qz q in
  if magnitude_squared <? f_1em6 then quaternion_identity
  else
    let inv_magnitude_squared := f_1 / magnitude_squared in
    mkQuaternion (qw conjugate * inv_magnitude_squared)
                 (qx conjugate * inv_magnitude_squared)
                 (qy conjugate * inv_magnitude_squared)
                 (qz conjugate * inv_magnitude_squared).

(** The nine entries [m11 .. m33] of the rotation matrix that
    [quaternion_rotate_vector] builds from [q]. *)
Definition rotation_entries (q : Quaternion T) : (T * T * T) * (T * T * T) * (T * T * T) :=
  let qw2 := qw q * qw q in
  let qx2 := qx q * qx q in
  let qy2 := qy q * qy q in
  let qz2 := qz q * qz q in
  let qwx := qw q * qx q in
  let qwy := qw q * qy q in
  let qwz := qw q * qz q in
  let qxy := qx q * qy q in
  let qxz := qx q * qz q in
  let qyz := qy q * qz q in
  let m11 := qw2 + qx2 - qy2 - qz2 in
  let m12 := f_2 * (qxy - qwz) in
  let m13 := f_2 * (qxz + qwy) in
  let m21 := f_2 * (qxy + qwz) in
  let m22 := qw2 - qx2 + qy2 - qz2 in
  let m23 := f_2 * (qyz - qwx) in
  let m31 := f_2 * (qxz - qwy) in
  let m32 := f_2 * (qyz + qwx) in
  let m33 := qw2 - qx2 - qy2 + qz2 in
  ((m11, m12, m13), (m21, m22, m23), (m31, m32, m33)).

Definition quaternion_rotate_vector (q : Quaternion T) (v : Vector3f T) : Vector3f T :=
  let '((m11, m12, m13), (m21, m22, m23), (m31, m32, m33)) := rotation_entries q in
  mkVector3f (m11 * vx v + m12 * vy v + m13 * vz v)
             (m21 * vx v + m22 * vy v + m23 * vz v)
             (m31 * vx v + m32 * vy v + m33 * vz v).

(** Modelled from the spec: [quaternion_rotate_vector_inverse] is called
    by [ekf_update_mag] but is defined in no file of the sources.  The
    spec gives the magnetometer prediction as h(x) = R(q)^T . m_ref, the
    transpose of the matrix of [quaternion_rotate_vector]. *)
Definition quaternion_rotate_vector_inverse (q : Quaternion T) (v : Vector3f T) : Vector3f T :=
  let '((m11, m12, m13), (m21, m22, m23), (m31, m32, m33)) := rotation_entries q in
  mkVector3f (m11 * vx v + m21 * vy v + m31 * vz v)
             (m12 * vx v + m22 * vy v + m32 * vz v)
             (m13 * vx v + m23 * vy v + m33 * vz v).

Definition quaternion_derivative (q : Quaternion T) (omega : Vector3f T) : Quaternion T :=
  let omega_quat := mkQuaternion f_0 (vx omega) (vy omega) (vz omega) in
  let q_dot := quaternion_multiply q omega_quat in
  mkQuaternion (qw q_dot * f_half) (qx q_dot * f_half)
               (qy q_dot * f_half) (qz q_dot * f_half).

Definition vector3f_zero : Vector3f T := mkVector3f f_0 f_0 f_0.
Definition vector3f_create (x y z : T) : Vector3f T := mkVector3f x y z.

Definition vector3f_add (v1 v2 : Vector3f T) : Vector3f T :=
  mkVector3f (vx v1 + vx v2) (vy v1 + vy v2) (vz v1 + vz v2).
Definition vector3f_subtract (v1 v2 : Vector3f T) : Vector3f T :=
  mkVector3f (vx v1 - vx v2) (vy v1 - vy v2) (vz v1 - vz v2).
Definition vector3f_scale (v : Vector3f T) (scalar : T) : Vector3f T :=
  mkVector3f (vx v * scalar) (vy v * scalar) (vz v * scalar).
Definition vector3f_dot (v1 v2 : Vector3f T) : T :=
  vx v1 * vx v2 + vy v1 * vy v2 + vz v1 * vz v2.
Definition vector3f_cross (v1 v2 : Vector3f T) : Vector3f T :=
  mkVector3f (vy v1 * vz v2 - vz v1 * vy v2)
             (vz v1 * vx v2 - vx v1 * vz v2)
             (vx v1 * vy v2 - vy v1 * vx v2).

Definition vector3f_magnitude (v : Vector3f T) : T :=
  sqrtf (vx v * vx v + vy v * vy v + vz v * vz v).

(** [if (magnitude < 1e-6f) return vector3f_zero();] *)
Definition vector3f_normalize (v : Vector3f T) : Vector3f T :=
  let magnitude := vector3f_magnitude v in
  if magnitude <? f_1em6 then vector3f_zero
  else
    let inv_magnitude := f_1 / magnitude in
    mkVector3f (vx v * inv_magnitude) (vy v * inv_magnitude) (vz v * inv_magnitude).

Context `{Libm T}.

Definition quaternion_from_euler (roll pitch yaw : T) : Quaternion T :=
  let cr := cosf (roll * f_half) in
  let sr := sinf (roll * f_half) in
  let cp := cosf (pitch * f_half) in
  let sp := sinf (pitch * f_half) in
  let cy := cosf (yaw * f_half) in
  let sy := sinf (yaw * f_half) in
  quaternion_normalize
    (mkQuaternion (cr * cp * cy + sr * sp * sy)
                  (sr * cp * cy - cr * sp * sy)
                  (cr * sp * cy + sr * cp * sy)
                  (cr * cp * sy - sr * sp * cy)).

(** The three outputs [( *roll, *pitch, *yaw )]. *)
Definition quaternion_to_euler (q : Quaternion T) : T * T * T :=
  let qn := quaternion_normalize q in
  let roll := atan2f (f_2 * (qw qn * qx qn + qy qn * qz qn))
                     (f_1 - f_2 * (qx qn * qx qn + qy qn * qy qn)) in
  let sinp := f_2 * (qw qn * qy qn - qz qn * qx qn) in
  let pitch := if fabsf sinp >=? f_1 then copysignf half_pi sinp
               else asinf sinp in
  let yaw := atan2f (f_2 * (qw qn * qz qn + qx qn * qy qn))
                    (f_1 - f_2 * (qy qn * qy qn + qz qn * qz qn)) in
  (roll, pitch, yaw).
End quaternion_c.

(* ================================================================== *)
(** ** Core/Inc/math/matrix.h: the [Matrix] structure *)
(* ================================================================== *)

Definition MATRIX_MAX_SIZE : nat := 16.

(** Conversion of an [int] expression to [uint8_t]. *)
Definition u8 (n : nat) : nat := n mod 256.

(** [float data[16][16]; uint8_t rows; uint8_t cols;].  A cell holds
    [None] while it is indeterminate (never written since the structure
    was declared). *)
Record Matrix (T : Type) : Type :=
  mkMatrix { data : nat -> nat -> option T; rows : nat; cols : nat }.

Definition in_storage (i j : nat) : bool :=
  (i <? MATRIX_MAX_SIZE) && (j <? MATRIX_MAX_SIZE).

Definition set_cell {T} (A : Matrix T) (i j : nat) (v : T) : Matrix T :=
  mkMatrix (fun i' j' => if (i' =? i) && (j' =? j) then Some v else data A i' j')
           (rows A) (cols A).

(** The value of a cell that is known to be written. *)
Definition cell {T} `{Scalar T} (A : Matrix T) (i j : nat) : T :=
  match data A i j with Some v => v | None => f_0 end.

(* ================================================================== *)
(** ** The store *)
(* ================================================================== *)

(** Every [Matrix] object the code takes the address of: the six matrices
    of the [EKF] structure, the [Matrix] locals of each function, and three
    matrices owned by a caller of the matrix library. *)
Inductive ptr : Set :=
  (* EKF *ekf *)
  | ekf_x | ekf_P | ekf_Q | ekf_R_gps | ekf_R_baro | ekf_R_mag
  (* matrix_identity: m;  matrix_inverse: augmented *)
  | id_m | inv_augmented
  (* ekf_predict *)
  | pred_F | pred_F_transpose | pred_temp1 | pred_temp2 | pred_scaled_Q
  (* ekf_compute_kalman_gain *)
  | kg_H_transpose | kg_temp1 | kg_temp2 | kg_S | kg_S_inv | kg_temp3
  (* ekf_update_state_covariance *)
  | usc_dx | usc_I | usc_KH | usc_I_KH | usc_P_new | usc_P_transpose
  (* ekf_update_gps, ekf_update_baro, ekf_update_mag *)
  | upd_H | upd_z | upd_z_pred | upd_y | upd_K
  (* caller-owned *)
  | ext_a | ext_b | ext_c.

Definition ptr_id (p : ptr) : nat :=
  match p with
  | ekf_x => 0 | ekf_P => 1 | ekf_Q => 2 | ekf_R_gps => 3 | ekf_R_baro => 4
  | ekf_R_mag => 5 | id_m => 6 | inv_augmented => 7
  | pred_F => 8 | pred_F_transpose => 9 | pred_temp1 => 10 | pred_temp2 => 11
  | pred_scaled_Q => 12
  | kg_H_transpose => 13 | kg_temp1 => 14 | kg_temp2 => 15 | kg_S => 16
  | kg_S_inv => 17 | kg_temp3 => 18
  | usc_dx => 19 | usc_I => 20 | usc_KH => 21 | usc_I_KH => 22
  | usc_P_new => 23 | usc_P_transpose => 24
  | upd_H => 25 | upd_z => 26 | upd_z_pred => 27 | upd_y => 28 | upd_K => 29
  | ext_a => 30 | ext_b => 31 | ext_c => 32
  end.

Definition ptr_eqb (p q : ptr) : bool := ptr_id p =? ptr_id q.

Inductive fault : Set :=
  | OutOfBounds      (* an index outside [float data[16][16]] *)
  | UninitRead.      (* a read of an indeterminate value *)

Section Store.
Context {T : Type} `{Scalar T}.

(** The [EKF] structure ([x], [P], [Q], [R_gps], [R_baro], [R_mag]
    under the pointers [ekf_x] .. [ekf_R_mag]; [gravity],
    [earth_mag_ned], [initialized]) and the stack. *)
Record mem : Type := mkMem {
  mats : ptr -> Matrix T;
  gravity : T;
  earth_mag_ned : Vector3f T;
  initialized : bool
}.

Definition load (p : ptr) (m : mem) : Matrix T := mats m p.

Definition store (p : ptr) (A : Matrix T) (m : mem) : mem :=
  mkMem (fun q => if ptr_eqb q p then A else mats m q)
        (gravity m) (earth_mag_ned m) (initialized m).

Inductive result (A : Type) : Type :=
  | Ok (a : A) (m : mem)
  | Fault (f : fault).
Arguments Fault {A} f.

Definition M (A : Type) : Type := mem -> result A.

Definition ret {A} (a : A) : M A := fun m => Ok a m.

Definition bind {A B} (c : M A) (k : A -> M B) : M B :=
  fun m => match c m with
           | Ok a m' => k a m'
           | Fault f => Fault f
           end.

Definition throw {A} (f : fault) : M A := fun _ => Fault f.
End Store.

Arguments mem T : clear implicits.
Arguments M T A : clear implicits.
Arguments result T A : clear implicits.
Arguments Fault {T A} f.

Declare Scope c_scope.
Delimit Scope c_scope with C.
Notation "x <- c1 ;; c2" := (bind c1 (fun x => c2))
  (at level 100, c1 at next level, right associativity) : c_scope.
Notation "' pat <- c1 ;; c2" := (bind c1 (fun x => match x with pat => c2 end))
  (at level 100, pat pattern, c1 at next level, right associativity) : c_scope.
Notation "c1 ;; c2" := (bind c1 (fun _ => c2))
  (at level 100, right associativity) : c_scope.

Section Statements.
Context {T : Type} `{Scalar T}.
Local Open Scope c_scope.

(** [p->rows], [p->cols] *)
Definition rows_of (p : ptr) : M T nat := fun m => Ok (rows (load p m)) m.
Definition cols_of (p : ptr) : M T nat := fun m => Ok (cols (load p m)) m.

(** [p->data[i][j]] as an rvalue *)
Definition rd (p : ptr) (i j : nat) : M T T := fun m =>
  if in_storage i j then
    match data (load p m) i j with
    | Some v => Ok v m
    | None => Fault UninitRead
    end
  else Fault OutOfBounds.

(** [p->data[i][j] = v] *)
Definition wr (p : ptr) (i j : nat) (v : T) : M T unit := fun m =>
  if in_storage i j then Ok tt (store p (set_cell (load p m) i j v) m)
  else Fault OutOfBounds.

(** [*p = A] and [*p] for whole structures *)
Definition assign (p : ptr) (A : Matrix T) : M T unit := fun m => Ok tt (store p A m).
Definition deref (p : ptr) : M T (Matrix T) := fun m => Ok (load p m) m.

(** [for (uint8_t i = lo; i < lo + n; i++)] with the locals the body
    assigns carried in [acc].  The bound is read once: no loop body of the
    sources assigns the [rows] or [cols] its bound reads. *)
Fixpoint for_acc {A} (n i : nat) (acc : A) (body : nat -> A -> M T A) : M T A :=
  match n with
  | O => ret acc
  | S n' => acc' <- body i acc ;; for_acc n' (S i) acc' body
  end.

Definition for_ (lo hi : nat) (body : nat -> M T unit) : M T unit :=
  for_acc (hi - lo) lo tt (fun i _ => body i).

(** A loop whose body may [return r] from the enclosing function
    ([Some r]) or fall through to the next iteration ([None]). *)
Fixpoint for_ret {R} (n i : nat) (body : nat -> M T (option R)) : M T (option R) :=
  match n with
  | O => ret None
  | S n' => r <- body i ;;
            match r with
            | Some v => ret (Some v)
            | None => for_ret n' (S i) body
            end
  end.

(** [float v; f(..., &v);] followed by uses of [v]: when [f] returns
    false without writing [v], the use reads an indeterminate value. *)
Definition out_param (c : M T (option T)) : M T T :=
  r <- c ;; match r with Some v => ret v | None => throw UninitRead end.
End Statements.

Notation "'For' i 'from' lo 'below' hi 'do' body" := (for_ lo hi (fun i => body))
  (at level 100, i name, lo at next level, hi at next level, right associativity) : c_scope.

(* ================================================================== *)
(** ** Core/Src/math/matrix.c *)
(* ================================================================== *)

Section matrix_c.
Context {T : Type} `{Scalar T}.
Local Open Scope c_scope.

(** The local [m] starts indeterminate; the two loops zero the cells of
    the logical shape. *)
Definition matrix_create (rows cols : nat) : Matrix T :=
  let rows := if MATRIX_MAX_SIZE <? rows then MATRIX_MAX_SIZE else rows in
  let cols := if MATRIX_MAX_SIZE <? cols then MATRIX_MAX_SIZE else cols in
  mkMatrix (fun i j => if (i <? rows) && (j <? cols) then Some f_0 else None)
           rows cols.

Definition matrix_identity (size : nat) : M T (Matrix T) :=
  assign id_m (matrix_create size size) ;;
  (For i from 0 below size do wr id_m i i f_1) ;;
  deref id_m.

Definition matrix_set (m : ptr) (row col : nat) (value : T) : M T bool :=
  r <- rows_of m ;; c <- cols_of m ;;
  if (r <=? row) || (c <=? col) then ret false
  else wr m row col value ;; ret true.

(** [Some v]: returns true with [*value = v]; [None]: returns false. *)
Definition matrix_get (m : ptr) (row col : nat) : M T (option T) :=
  r <- rows_of m ;; c <- cols_of m ;;
  if (r <=? row) || (c <=? col) then ret None
  else v <- rd m row col ;; ret (Some v).

Definition matrix_add (a b result : ptr) : M T bool :=
  ar <- rows_of a ;; br <- rows_of b ;; ac <- cols_of a ;; bc <- cols_of b ;;
  if negb (ar =? br) || negb (ac =? bc) then ret false
  else
    assign result (matrix_create ar ac) ;;
    ar <- rows_of a ;; ac <- cols_of a ;;
    (For i from 0 below ar do
     For j from 0 below ac do
       va <- rd a i j ;; vb <- rd b i j ;; wr result i j (va + vb)%fl) ;;
    ret true.

Definition matrix_subtract (a b result : ptr) : M T bool :=
  ar <- rows_of a ;; br <- rows_of b ;; ac <- cols_of a ;; bc <- cols_of b ;;
  if negb (ar =? br) || negb (ac =? bc) then ret false
  else
    assign result (matrix_create ar ac) ;;
    ar <- rows_of a ;; ac <- cols_of a ;;
    (For i from 0 below ar do
     For j from 0 below ac do
       va <- rd a i j ;; vb <- rd b i j ;; wr result i j (va - vb)%fl) ;;
    ret true.

Definition matrix_multiply (a b result : ptr) : M T bool :=
  ac <- cols_of a ;; br <- rows_of b ;;
  if negb (ac =? br) then ret false
  else
    ar <- rows_of a ;; bc <- cols_of b ;;
    assign result (matrix_create ar bc) ;;
    ar <- rows_of a ;; bc <- cols_of b ;; ac <- cols_of a ;;
    (For i from 0 below ar do
     For j from 0 below bc do
       sum <- for_acc ac 0 f_0 (fun k sum =>
                va <- rd a i k ;; vb <- rd b k j ;; ret (sum + va * vb)%fl) ;;
       wr result i j sum) ;;
    ret true.

Definition matrix_scale (m : ptr) (scalar : T) (result : ptr) : M T bool :=
  mr <- rows_of m ;; mc <- cols_of m ;;
  assign result (matrix_create mr mc) ;;
  mr <- rows_of m ;; mc <- cols_of m ;;
  (For i from 0 below mr do
   For j from 0 below mc do
     v <- rd m i j ;; wr result i j (v * scalar)%fl) ;;
  ret true.

Definition matrix_transpose (m result : ptr) : M T bool :=
  mr <- rows_of m ;; mc <- cols_of m ;;
  assign result (matrix_create mc mr) ;;
  mr <- rows_of m ;; mc <- cols_of m ;;
  (For i from 0 below mr do
   For j from 0 below mc do
     v <- rd m i j ;; wr result j i v) ;;
  ret true.

Definition matrix_inverse (m result : ptr) : M T bool :=
  mr <- rows_of m ;; mc <- cols_of m ;;
  if negb (mr =? mc) then ret false
  else
    let n := mr in
    assign inv_augmented (matrix_create n (u8 (2 * n))) ;;
    (For i from 0 below n do
     For j from 0 below n do
       v <- rd m i j ;; wr inv_augmented i j v) ;;
    (For i from 0 below n do wr inv_augmented i (i + n) f_1) ;;
    r <- for_ret n 0 (fun i =>
      d <- rd inv_augmented i i ;;
      ' (pivot, max_val) <-
        for_acc (n - u8 (i + 1)) (u8 (i + 1)) (i, fabsf d)
          (fun j '(pivot, max_val) =>
             v <- rd inv_augmented j i ;;
             if (fabsf v >? max_val)%fl
             then v' <- rd inv_augmented j i ;; ret (j, fabsf v')
             else ret (pivot, max_val)) ;;
      if (max_val <? f_1em6)%fl then ret (Some false)
      else
        (if negb (pivot =? i) then
           For j from 0 below 2 * n do
             temp <- rd inv_augmented i j ;;
             v <- rd inv_augmented pivot j ;;
             wr inv_augmented i j v ;;
             wr inv_augmented pivot j temp
         else ret tt) ;;
        pivot_val <- rd inv_augmented i i ;;
        (For j from 0 below 2 * n do
           v <- rd inv_augmented i j ;;
           wr inv_augmented i j (v / pivot_val)%fl) ;;
        (For j from 0 below n do
           if negb (j =? i) then
             factor <- rd inv_augmented j i ;;
             For k from 0 below 2 * n do
               vj <- rd inv_augmented j k ;;
               vi <- rd inv_augmented i k ;;
               wr inv_augmented j k (vj - factor * vi)%fl
           else ret tt) ;;
        ret None) ;;
    match r with
    | Some b => ret b
    | None =>
        assign result (matrix_create n n) ;;
        (For i from 0 below n do
         For j from 0 below n do
           v <- rd inv_augmented i (j + n) ;; wr result i j v) ;;
        ret true
    end.

Definition matrix_zero (m : ptr) : M T bool :=
  mr <- rows_of m ;; mc <- cols_of m ;;
  (For i from 0 below mr do
   For j from 0 below mc do wr m i j f_0) ;;
  ret true.

Definition matrix_diagonal (m : ptr) (value : T) : M T bool :=
  matrix_zero m ;;
  mr <- rows_of m ;; mc <- cols_of m ;;
  let min_dim := if mr <? mc then mr else mc in
  (For i from 0 below min_dim do wr m i i value) ;;
  ret true.

(** [values] is a [const float *] to an array the caller owns. *)
Definition matrix_diagonal_vector (m : ptr) (values : list T) (size : nat) : M T bool :=
  matrix_zero m ;;
  mr <- rows_of m ;; mc <- cols_of m ;;
  let min_dim := if mr <? mc then mr else mc in
  let min_dim := if size <? min_dim then size else min_dim in
  (For i from 0 below min_dim do
     match nth_error values i with
     | Some v => wr m i i v
     | None => throw OutOfBounds
     end) ;;
  ret true.

(** [p->rows = r] and [p->cols = c] *)
Definition set_rows (p : ptr) (r : nat) : M T unit := fun m =>
  Ok tt (store p (mkMatrix (data (load p m)) r (cols (load p m))) m).
Definition set_cols (p : ptr) (c : nat) : M T unit := fun m =>
  Ok tt (store p (mkMatrix (data (load p m)) (rows (load p m)) c) m).

Definition matrix_copy (src dst : ptr) : M T bool :=
  sr <- rows_of src ;; set_rows dst sr ;;
  sc <- cols_of src ;; set_cols dst sc ;;
  sr <- rows_of src ;; sc <- cols_of src ;;
  (For i from 0 below sr do
   For j from 0 below sc do
     v <- rd src i j ;; wr dst i j v) ;;
  ret true.

(** [vec[j]] of a [const float *] array the caller owns; a null [vec] is
    [None]. *)
Definition elem (vec : list T) (j : nat) : M T T :=
  match nth_error vec j with
  | Some v => ret v
  | None => throw OutOfBounds
  end.

Definition matrix_set_row (m : ptr) (row : nat) (vec : option (list T)) (vec_size : nat)
    : M T bool :=
  r <- rows_of m ;; c <- cols_of m ;;
  match vec with
  | None => ret false
  | Some vec =>
      if (r <=? row) || (c <? vec_size) then ret false
      else
        (For j from 0 below vec_size do
           v <- elem vec j ;; wr m row j v) ;;
        ret true
  end.

Definition matrix_set_column (m : ptr) (col : nat) (vec : option (list T)) (vec_size : nat)
    : M T bool :=
  r <- rows_of m ;; c <- cols_of m ;;
  match vec with
  | None => ret false
  | Some vec =>
      if (c <=? col) || (r <? vec_size) then ret false
      else
        (For i from 0 below vec_size do
           v <- elem vec i ;; wr m i col v) ;;
        ret true
  end.

(** [vec[j] = v] on a [float *] array of the caller: the array after the
    store, or a fault beyond its end. *)
Fixpoint set_elem (vec : list T) (j : nat) (v : T) : option (list T) :=
  match vec, j with
  | [], _ => None
  | _ :: tl, O => Some (v :: tl)
  | x :: tl, S j' => option_map (cons x) (set_elem tl j' v)
  end.

Definition put (vec : list T) (j : nat) (v : T) : M T (list T) :=
  match set_elem vec j v with
  | Some vec' => ret vec'
  | None => throw OutOfBounds
  end.

(** [Some vec']: returns true and leaves the caller's array as [vec'];
    [None]: returns false with the array untouched. *)
Definition matrix_get_row (m : ptr) (row : nat) (vec : option (list T)) (vec_size : nat)
    : M T (option (list T)) :=
  r <- rows_of m ;; c <- cols_of m ;;
  match vec with
  | None => ret None
  | Some vec =>
      if (r <=? row) || (c <? vec_size) then ret None
      else
        vec <- for_acc vec_size 0 vec (fun j vec =>
                 v <- rd m row j ;; put vec j v) ;;
        ret (Some vec)
  end.

Definition matrix_get_column (m : ptr) (col : nat) (vec : option (list T)) (vec_size : nat)
    : M T (option (list T)) :=
  r <- rows_of m ;; c <- cols_of m ;;
  match vec with
  | None => ret None
  | Some vec =>
      if (c <=? col) || (r <? vec_size) then ret None
      else
        vec <- for_acc vec_size 0 vec (fun i vec =>
                 v <- rd m i col ;; put vec i v) ;;
        ret (Some vec)
  end.
End matrix_c.

(* ================================================================== *)
(** ** Core/Src/ekf/ekf_mag_calibration.c *)
(* ================================================================== *)

Section ekf_mag_calibration_c.
Context {T : Type} `{Scalar T}.
Local Open Scope c_scope.
Import vector3f_c.

(** [float dcm[9]], filled by [ekf_compute_ned_transform]. *)
Definition ekf_compute_ned_transform (accel : Vector3f T) : list T :=
  let down := vector3f_scale accel (- f_1)%fl in
  let down := vector3f_normalize down in
  let east_approx := vector3f_create f_0 f_1 f_0 in
  let north := vector3f_cross down east_approx in
  let north := vector3f_normalize north in
  let east := vector3f_cross north down in
  let east := vector3f_normalize east in
  [vx north; vy north; vz north;
   vx east; vy east; vz east;
   vx down; vy down; vz down].

Definition ekf_convert_to_ned (vec_body : Vector3f T) (dcm : list T) : Vector3f T :=
  let d i := nth i dcm f_0 in
  mkVector3f
    (d 0 * vx vec_body + d 1 * vy vec_body + d 2 * vz vec_body)%fl
    (d 3 * vx vec_body + d 4 * vy vec_body + d 5 * vz vec_body)%fl
    (d 6 * vx vec_body + d 7 * vy vec_body + d 8 * vz vec_body)%fl.

(** [samples[i]] of an array the caller owns *)
Definition sample (samples : list (Vector3f T)) (i : nat) : M T (Vector3f T) :=
  match nth_error samples i with
  | Some v => ret v
  | None => throw OutOfBounds
  end.

(** A null sample pointer is [None]; [sample_count] is an [int]. *)
Definition ekf_calibrate_magnetic_field
    (mag_samples accel_samples : option (list (Vector3f T))) (sample_count : Z)
    : M T (Vector3f T) :=
  match mag_samples, accel_samples with
  | Some mag_samples, Some accel_samples =>
      if (sample_count <=? 0)%Z
      then ret (vector3f_create (f_lit 29 100) (- f_lit 5 100)%fl (f_lit 42 100))
      else
        ' (avg_mag, avg_accel) <-
          for_acc (Z.to_nat sample_count) 0 (vector3f_zero, vector3f_zero)
            (fun i '(avg_mag, avg_accel) =>
               sm <- sample mag_samples i ;;
               sa <- sample accel_samples i ;;
               ret (vector3f_add avg_mag sm, vector3f_add avg_accel sa)) ;;
        let avg_mag := vector3f_scale avg_mag (f_1 / f_lit sample_count 1)%fl in
        let avg_accel := vector3f_scale avg_accel (f_1 / f_lit sample_count 1)%fl in
        let dcm := ekf_compute_ned_transform avg_accel in
        let mag_ned := ekf_convert_to_ned avg_mag dcm in
        ret (vector3f_normalize mag_ned)
  | _, _ => ret (vector3f_create (f_lit 29 100) (- f_lit 5 100)%fl (f_lit 42 100))
  end.
End ekf_mag_calibration_c.

(* ================================================================== *)
(** ** Core/Inc/ekf/ekf.h *)
(* ================================================================== *)

Definition EKF_STATE_DIM : nat := 16.
Definition EKF_STATE_POS_X : nat := 0.
Definition EKF_STATE_POS_Y : nat := 1.
Definition EKF_STATE_POS_Z : nat := 2.
Definition EKF_STATE_VEL_X : nat := 3.
Definition EKF_STATE_VEL_Y : nat := 4.
Definition EKF_STATE_VEL_Z : nat := 5.
Definition EKF_STATE_QUAT_W : nat := 6.
Definition EKF_STATE_QUAT_X : nat := 7.
Definition EKF_STATE_QUAT_Y : nat := 8.
Definition EKF_STATE_QUAT_Z : nat := 9.
Definition EKF_STATE_GYRO_BIAS_X : nat := 10.
Definition EKF_STATE_GYRO_BIAS_Y : nat := 11.
Definition EKF_STATE_GYRO_BIAS_Z : nat := 12.
Definition EKF_STATE_ACC_BIAS_X : nat := 13.
Definition EKF_STATE_ACC_BIAS_Y : nat := 14.
Definition EKF_STATE_ACC_BIAS_Z : nat := 15.

Section ekf_fields.
Context {T : Type} `{Scalar T}.

(** The scalar fields of [*ekf].  The filter pointer of the embedding
    always designates the structure in the store, so the [ekf == NULL]
    branch of each function has no counterpart. *)
Definition get_gravity : M T T := fun m => Ok (gravity m) m.
Definition get_earth_mag_ned : M T (Vector3f T) := fun m => Ok (earth_mag_ned m) m.
Definition get_initialized : M T bool := fun m => Ok (initialized m) m.
Definition set_gravity (g : T) : M T unit := fun m =>
  Ok tt (mkMem (mats m) g (earth_mag_ned m) (initialized m)).
Definition set_earth_mag_ned (v : Vector3f T) : M T unit := fun m =>
  Ok tt (mkMem (mats m) (gravity m) v (initialized m)).
Definition set_initialized (b : bool) : M T unit := fun m =>
  Ok tt (mkMem (mats m) (gravity m) (earth_mag_ned m) b).
End ekf_fields.

(* ================================================================== *)
(** ** Core/Src/ekf/ekf_init.c *)
(* ================================================================== *)

Section ekf_init_c.
Context {T : Type} `{Scalar T}.
Local Open Scope c_scope.

Definition ekf_init : M T bool :=
  assign ekf_x (matrix_create EKF_STATE_DIM 1) ;;
  assign ekf_P (matrix_create EKF_STATE_DIM EKF_STATE_DIM) ;;
  matrix_diagonal ekf_P f_1 ;;
  assign ekf_Q (matrix_create EKF_STATE_DIM EKF_STATE_DIM) ;;
  matrix_diagonal ekf_Q (f_lit 1 100) ;;
  assign ekf_R_gps (matrix_create 6 6) ;;
  let gps_std := [f_lit 5 1; f_lit 5 1; f_lit 10 1; f_half; f_half; f_1] in
  matrix_diagonal_vector ekf_R_gps gps_std 6 ;;
  assign ekf_R_baro (matrix_create 1 1) ;;
  matrix_set ekf_R_baro 0 0 f_1 ;;
  assign ekf_R_mag (matrix_create 3 3) ;;
  matrix_diagonal ekf_R_mag (f_lit 1 10) ;;
  set_gravity (f_lit 980665 100000) ;;
  set_earth_mag_ned (vector3f_create (f_lit 29 100) (- f_lit 5 100)%fl (f_lit 42 100)) ;;
  set_initialized false ;;
  ret true.

Definition initial_p_diag : list T :=
  [f_lit 10 1; f_lit 10 1; f_lit 10 1;
   f_1; f_1; f_1;
   f_lit 1 10; f_lit 1 10; f_lit 1 10; f_lit 1 10;
   f_lit 1 100; f_lit 1 100; f_lit 1 100;
   f_lit 1 10; f_lit 1 10; f_lit 1 10].

Definition ekf_set_initial_state (pos vel : Vector3f T) (q : Quaternion T) : M T bool :=
  matrix_set ekf_x EKF_STATE_POS_X 0 (vx pos) ;;
  matrix_set ekf_x EKF_STATE_POS_Y 0 (vy pos) ;;
  matrix_set ekf_x EKF_STATE_POS_Z 0 (vz pos) ;;
  matrix_set ekf_x EKF_STATE_VEL_X 0 (vx vel) ;;
  matrix_set ekf_x EKF_STATE_VEL_Y 0 (vy vel) ;;
  matrix_set ekf_x EKF_STATE_VEL_Z 0 (vz vel) ;;
  let qn := quaternion_normalize q in
  matrix_set ekf_x EKF_STATE_QUAT_W 0 (qw qn) ;;
  matrix_set ekf_x EKF_STATE_QUAT_X 0 (qx qn) ;;
  matrix_set ekf_x EKF_STATE_QUAT_Y 0 (qy qn) ;;
  matrix_set ekf_x EKF_STATE_QUAT_Z 0 (qz qn) ;;
  matrix_set ekf_x EKF_STATE_GYRO_BIAS_X 0 f_0 ;;
  matrix_set ekf_x EKF_STATE_GYRO_BIAS_Y 0 f_0 ;;
  matrix_set ekf_x EKF_STATE_GYRO_BIAS_Z 0 f_0 ;;
  matrix_set ekf_x EKF_STATE_ACC_BIAS_X 0 f_0 ;;
  matrix_set ekf_x EKF_STATE_ACC_BIAS_Y 0 f_0 ;;
  matrix_set ekf_x EKF_STATE_ACC_BIAS_Z 0 f_0 ;;
  matrix_diagonal_vector ekf_P initial_p_diag EKF_STATE_DIM ;;
  set_initialized true ;;
  ret true.

Definition ekf_set_process_noise
    (pos_std vel_std att_std gyro_bias_std acc_bias_std : T) : M T bool :=
  matrix_zero ekf_Q ;;
  matrix_set ekf_Q EKF_STATE_POS_X EKF_STATE_POS_X (pos_std * pos_std)%fl ;;
  matrix_set ekf_Q EKF_STATE_POS_Y EKF_STATE_POS_Y (pos_std * pos_std)%fl ;;
  matrix_set ekf_Q EKF_STATE_POS_Z EKF_STATE_POS_Z (pos_std * pos_std)%fl ;;
  matrix_set ekf_Q EKF_STATE_VEL_X EKF_STATE_VEL_X (vel_std * vel_std)%fl ;;
  matrix_set ekf_Q EKF_STATE_VEL_Y EKF_STATE_VEL_Y (vel_std * vel_std)%fl ;;
  matrix_set ekf_Q EKF_STATE_VEL_Z EKF_STATE_VEL_Z (vel_std * vel_std)%fl ;;
  matrix_set ekf_Q EKF_STATE_QUAT_W EKF_STATE_QUAT_W (att_std * att_std)%fl ;;
  matrix_set ekf_Q EKF_STATE_QUAT_X EKF_STATE_QUAT_X (att_std * att_std)%fl ;;
  matrix_set ekf_Q EKF_STATE_QUAT_Y EKF_STATE_QUAT_Y (att_std * att_std)%fl ;;
  matrix_set ekf_Q EKF_STATE_QUAT_Z EKF_STATE_QUAT_Z (att_std * att_std)%fl ;;
  matrix_set ekf_Q EKF_STATE_GYRO_BIAS_X EKF_STATE_GYRO_BIAS_X (gyro_bias_std * gyro_bias_std)%fl ;;
  matrix_set ekf_Q EKF_STATE_GYRO_BIAS_Y EKF_STATE_GYRO_BIAS_Y (gyro_bias_std * gyro_bias_std)%fl ;;
  matrix_set ekf_Q EKF_STATE_GYRO_BIAS_Z EKF_STATE_GYRO_BIAS_Z (gyro_bias_std * gyro_bias_std)%fl ;;
  matrix_set ekf_Q EKF_STATE_ACC_BIAS_X EKF_STATE_ACC_BIAS_X (acc_bias_std * acc_bias_std)%fl ;;
  matrix_set ekf_Q EKF_STATE_ACC_BIAS_Y EKF_STATE_ACC_BIAS_Y (acc_bias_std * acc_bias_std)%fl ;;
  matrix_set ekf_Q EKF_STATE_ACC_BIAS_Z EKF_STATE_ACC_BIAS_Z (acc_bias_std * acc_bias_std)%fl ;;
  ret true.

Definition ekf_set_gps_noise (pos_std vel_std : T) : M T bool :=
  matrix_zero ekf_R_gps ;;
  matrix_set ekf_R_gps 0 0 (pos_std * pos_std)%fl ;;
  matrix_set ekf_R_gps 1 1 (pos_std * pos_std)%fl ;;
  matrix_set ekf_R_gps 2 2 (pos_std * pos_std)%fl ;;
  matrix_set ekf_R_gps 3 3 (vel_std * vel_std)%fl ;;
  matrix_set ekf_R_gps 4 4 (vel_std * vel_std)%fl ;;
  matrix_set ekf_R_gps 5 5 (vel_std * vel_std)%fl ;;
  ret true.

Definition ekf_set_baro_noise (baro_std : T) : M T bool :=
  matrix_set ekf_R_baro 0 0 (baro_std * baro_std)%fl ;;
  ret true.

Definition ekf_set_mag_noise (mag_std : T) : M T bool :=
  matrix_zero ekf_R_mag ;;
  matrix_set ekf_R_mag 0 0 (mag_std * mag_std)%fl ;;
  matrix_set ekf_R_mag 1 1 (mag_std * mag_std)%fl ;;
  matrix_set ekf_R_mag 2 2 (mag_std * mag_std)%fl ;;
  ret true.

Definition ekf_set_earth_magnetic_field (mag_ned : Vector3f T) : M T bool :=
  set_earth_mag_ned mag_ned ;;
  ret true.

Definition ekf_get_position : M T (Vector3f T) :=
  let pos := vector3f_zero in
  init <- get_initialized ;;
  if negb init then ret pos
  else
    x <- out_param (matrix_get ekf_x EKF_STATE_POS_X 0) ;;
    y <- out_param (matrix_get ekf_x EKF_STATE_POS_Y 0) ;;
    z <- out_param (matrix_get ekf_x EKF_STATE_POS_Z 0) ;;
    ret (mkVector3f x y z).

Definition ekf_get_velocity : M T (Vector3f T) :=
  let vel := vector3f_zero in
  init <- get_initialized ;;
  if negb init then ret vel
  else
    vx <- out_param (matrix_get ekf_x EKF_STATE_VEL_X 0) ;;
    vy <- out_param (matrix_get ekf_x EKF_STATE_VEL_Y 0) ;;
    vz <- out_param (matrix_get ekf_x EKF_STATE_VEL_Z 0) ;;
    ret (mkVector3f vx vy vz).

Definition ekf_get_attitude : M T (Quaternion T) :=
  let q := quaternion_identity in
  init <- get_initialized ;;
  if negb init then ret q
  else
    w <- out_param (matrix_get ekf_x EKF_STATE_QUAT_W 0) ;;
    x <- out_param (matrix_get ekf_x EKF_STATE_QUAT_X 0) ;;
    y <- out_param (matrix_get ekf_x EKF_STATE_QUAT_Y 0) ;;
    z <- out_param (matrix_get ekf_x EKF_STATE_QUAT_Z 0) ;;
    ret (quaternion_normalize (mkQuaternion w x y z)).

(** [Some (roll, pitch, yaw)]: returns true with the three outputs
    written; [None]: returns false and writes nothing.  The three output
    pointers of the embedding are never null. *)
Definition ekf_get_euler `{Libm T} : M T (option (T * T * T)) :=
  init <- get_initialized ;;
  if negb init then ret None
  else
    q <- ekf_get_attitude ;;
    ret (Some (quaternion_to_euler q)).

Definition ekf_get_gyro_bias : M T (Vector3f T) :=
  let bias := vector3f_zero in
  init <- get_initialized ;;
  if negb init then ret bias
  else
    bx <- out_param (matrix_get ekf_x EKF_STATE_GYRO_BIAS_X 0) ;;
    by_ <- out_param (matrix_get ekf_x EKF_STATE_GYRO_BIAS_Y 0) ;;
    bz <- out_param (matrix_get ekf_x EKF_STATE_GYRO_BIAS_Z 0) ;;
    ret (mkVector3f bx by_ bz).

Definition ekf_get_accel_bias : M T (Vector3f T) :=
  let bias := vector3f_zero in
  init <- get_initialized ;;
  if negb init then ret bias
  else
    bx <- out_param (matrix_get ekf_x EKF_STATE_ACC_BIAS_X 0) ;;
    by_ <- out_param (matrix_get ekf_x EKF_STATE_ACC_BIAS_Y 0) ;;
    bz <- out_param (matrix_get ekf_x EKF_STATE_ACC_BIAS_Z 0) ;;
    ret (mkVector3f bx by_ bz).

Definition reset_p_diag : list T :=
  [f_lit 100 1; f_lit 100 1; f_lit 100 1;
   f_lit 10 1; f_lit 10 1; f_lit 10 1;
   f_1; f_1; f_1; f_1;
   f_lit 1 100; f_lit 1 100; f_lit 1 100;
   f_lit 1 10; f_lit 1 10; f_lit 1 10].

Definition ekf_reset : M T bool :=
  matrix_zero ekf_x ;;
  matrix_set ekf_x EKF_STATE_QUAT_W 0 f_1 ;;
  matrix_diagonal_vector ekf_P reset_p_diag EKF_STATE_DIM ;;
  set_initialized false ;;
  ret true.

Definition ekf_initialize_default_magnetic_field : M T bool :=
  set_earth_mag_ned (vector3f_create (f_lit 29 100) (- f_lit 5 100)%fl (f_lit 42 100)) ;;
  ret true.

Definition ekf_initialize_magnetic_field
    (mag_samples accel_samples : option (list (Vector3f T))) (sample_count : Z)
    : M T bool :=
  match mag_samples, accel_samples with
  | Some _, Some _ =>
      if (sample_count <=? 0)%Z then ekf_initialize_default_magnetic_field
      else
        mag_ned <- ekf_calibrate_magnetic_field mag_samples accel_samples sample_count ;;
        set_earth_mag_ned mag_ned ;;
        ret true
  | _, _ => ekf_initialize_default_magnetic_field
  end.
End ekf_init_c.

(* ================================================================== *)
(** ** Core/Src/ekf/ekf_predict.c *)
(* ================================================================== *)

Section ekf_predict_c.
Context {T : Type} `{Scalar T}.
Local Open Scope c_scope.

Definition ekf_compute_jacobian (F : ptr) (dt : T) : M T bool :=
  I16 <- matrix_identity EKF_STATE_DIM ;;
  assign F I16 ;;
  matrix_set F EKF_STATE_POS_X EKF_STATE_VEL_X dt ;;
  matrix_set F EKF_STATE_POS_Y EKF_STATE_VEL_Y dt ;;
  matrix_set F EKF_STATE_POS_Z EKF_STATE_VEL_Z dt ;;
  qw <- out_param (matrix_get ekf_x EKF_STATE_QUAT_W 0) ;;
  qx <- out_param (matrix_get ekf_x EKF_STATE_QUAT_X 0) ;;
  qy <- out_param (matrix_get ekf_x EKF_STATE_QUAT_Y 0) ;;
  qz <- out_param (matrix_get ekf_x EKF_STATE_QUAT_Z 0) ;;
  vx <- out_param (matrix_get ekf_x EKF_STATE_VEL_X 0) ;;
  vy <- out_param (matrix_get ekf_x EKF_STATE_VEL_Y 0) ;;
  vz <- out_param (matrix_get ekf_x EKF_STATE_VEL_Z 0) ;;
  bax <- out_param (matrix_get ekf_x EKF_STATE_ACC_BIAS_X 0) ;;
  bay <- out_param (matrix_get ekf_x EKF_STATE_ACC_BIAS_Y 0) ;;
  baz <- out_param (matrix_get ekf_x EKF_STATE_ACC_BIAS_Z 0) ;;
  let qnorm := sqrtf (qw * qw + qx * qx + qy * qy + qz * qz)%fl in
  let '(qw, qx, qy, qz) :=
    if (qnorm <? f_1em6)%fl then (f_1, f_0, f_0, f_0)
    else ((qw / qnorm)%fl, (qx / qnorm)%fl, (qy / qnorm)%fl, (qz / qnorm)%fl) in
  matrix_set F EKF_STATE_QUAT_W EKF_STATE_GYRO_BIAS_X (- f_half * qx * dt)%fl ;;
  matrix_set F EKF_STATE_QUAT_W EKF_STATE_GYRO_BIAS_Y (- f_half * qy * dt)%fl ;;
  matrix_set F EKF_STATE_QUAT_W EKF_STATE_GYRO_BIAS_Z (- f_half * qz * dt)%fl ;;
  matrix_set F EKF_STATE_QUAT_X EKF_STATE_GYRO_BIAS_X (f_half * qw * dt)%fl ;;
  matrix_set F EKF_STATE_QUAT_X EKF_STATE_GYRO_BIAS_Y (- f_half * qz * dt)%fl ;;
  matrix_set F EKF_STATE_QUAT_X EKF_STATE_GYRO_BIAS_Z (f_half * qy * dt)%fl ;;
  matrix_set F EKF_STATE_QUAT_Y EKF_STATE_GYRO_BIAS_X (f_half * qz * dt)%fl ;;
  matrix_set F EKF_STATE_QUAT_Y EKF_STATE_GYRO_BIAS_Y (f_half * qw * dt)%fl ;;
  matrix_set F EKF_STATE_QUAT_Y EKF_STATE_GYRO_BIAS_Z (- f_half * qx * dt)%fl ;;
  matrix_set F EKF_STATE_QUAT_Z EKF_STATE_GYRO_BIAS_X (- f_half * qy * dt)%fl ;;
  matrix_set F EKF_STATE_QUAT_Z EKF_STATE_GYRO_BIAS_Y (f_half * qx * dt)%fl ;;
  matrix_set F EKF_STATE_QUAT_Z EKF_STATE_GYRO_BIAS_Z (f_half * qw * dt)%fl ;;
  let R11 := (f_1 - f_2 * (qy * qy + qz * qz))%fl in
  let R12 := (f_2 * (qx * qy - qw * qz))%fl in
  let R13 := (f_2 * (qx * qz + qw * qy))%fl in
  let R21 := (f_2 * (qx * qy + qw * qz))%fl in
  let R22 := (f_1 - f_2 * (qx * qx + qz * qz))%fl in
  let R23 := (f_2 * (qy * qz - qw * qx))%fl in
  let R31 := (f_2 * (qx * qz - qw * qy))%fl in
  let R32 := (f_2 * (qy * qz + qw * qx))%fl in
  let R33 := (f_1 - f_2 * (qx * qx + qy * qy))%fl in
  matrix_set F EKF_STATE_VEL_X EKF_STATE_ACC_BIAS_X (- R11 * dt)%fl ;;
  matrix_set F EKF_STATE_VEL_X EKF_STATE_ACC_BIAS_Y (- R12 * dt)%fl ;;
  matrix_set F EKF_STATE_VEL_X EKF_STATE_ACC_BIAS_Z (- R13 * dt)%fl ;;
  matrix_set F EKF_STATE_VEL_Y EKF_STATE_ACC_BIAS_X (- R21 * dt)%fl ;;
  matrix_set F EKF_STATE_VEL_Y EKF_STATE_ACC_BIAS_Y (- R22 * dt)%fl ;;
  matrix_set F EKF_STATE_VEL_Y EKF_STATE_ACC_BIAS_Z (- R23 * dt)%fl ;;
  matrix_set F EKF_STATE_VEL_Z EKF_STATE_ACC_BIAS_X (- R31 * dt)%fl ;;
  matrix_set F EKF_STATE_VEL_Z EKF_STATE_ACC_BIAS_Y (- R32 * dt)%fl ;;
  matrix_set F EKF_STATE_VEL_Z EKF_STATE_ACC_BIAS_Z (- R33 * dt)%fl ;;
  ret true.

Definition ekf_predict (gyro accel : Vector3f T) (dt : T) : M T bool :=
  if (dt <=? f_0)%fl then ret false
  else
  init <- get_initialized ;;
  if negb init then ret false
  else
  px <- out_param (matrix_get ekf_x EKF_STATE_POS_X 0) ;;
  py <- out_param (matrix_get ekf_x EKF_STATE_POS_Y 0) ;;
  pz <- out_param (matrix_get ekf_x EKF_STATE_POS_Z 0) ;;
  vx_ <- out_param (matrix_get ekf_x EKF_STATE_VEL_X 0) ;;
  vy_ <- out_param (matrix_get ekf_x EKF_STATE_VEL_Y 0) ;;
  vz_ <- out_param (matrix_get ekf_x EKF_STATE_VEL_Z 0) ;;
  qw_ <- out_param (matrix_get ekf_x EKF_STATE_QUAT_W 0) ;;
  qx_ <- out_param (matrix_get ekf_x EKF_STATE_QUAT_X 0) ;;
  qy_ <- out_param (matrix_get ekf_x EKF_STATE_QUAT_Y 0) ;;
  qz_ <- out_param (matrix_get ekf_x EKF_STATE_QUAT_Z 0) ;;
  bgx <- out_param (matrix_get ekf_x EKF_STATE_GYRO_BIAS_X 0) ;;
  bgy <- out_param (matrix_get ekf_x EKF_STATE_GYRO_BIAS_Y 0) ;;
  bgz <- out_param (matrix_get ekf_x EKF_STATE_GYRO_BIAS_Z 0) ;;
  bax <- out_param (matrix_get ekf_x EKF_STATE_ACC_BIAS_X 0) ;;
  bay <- out_param (matrix_get ekf_x EKF_STATE_ACC_BIAS_Y 0) ;;
  baz <- out_param (matrix_get ekf_x EKF_STATE_ACC_BIAS_Z 0) ;;
  let q := quaternion_create qw_ qx_ qy_ qz_ in
  let q := quaternion_normalize q in
  let qw_ := qw q in
  let qx_ := qx q in
  let qy_ := qy q in
  let qz_ := qz q in
  let gyro_corrected :=
    vector3f_create (vx gyro - bgx)%fl (vy gyro - bgy)%fl (vz gyro - bgz)%fl in
  let accel_corrected :=
    vector3f_create (vx accel - bax)%fl (vy accel - bay)%fl (vz accel - baz)%fl in
  let q_dot := quaternion_derivative q gyro_corrected in
  let qw_ := (qw_ + qw q_dot * dt)%fl in
  let qx_ := (qx_ + qx q_dot * dt)%fl in
  let qy_ := (qy_ + qy q_dot * dt)%fl in
  let qz_ := (qz_ + qz q_dot * dt)%fl in
  let q := quaternion_create qw_ qx_ qy_ qz_ in
  let q := quaternion_normalize q in
  let qw_ := qw q in
  let qx_ := qx q in
  let qy_ := qy q in
  let qz_ := qz q in
  g <- get_gravity ;;
  let gravity_ned := vector3f_create f_0 f_0 g in
  let accel_ned := quaternion_rotate_vector q accel_corrected in
  let accel_ned := vector3f_subtract accel_ned gravity_ned in
  let vx_ := (vx_ + vx accel_ned * dt)%fl in
  let vy_ := (vy_ + vy accel_ned * dt)%fl in
  let vz_ := (vz_ + vz accel_ned * dt)%fl in
  let px := (px + vx_ * dt)%fl in
  let py := (py + vy_ * dt)%fl in
  let pz := (pz + vz_ * dt)%fl in
  matrix_set ekf_x EKF_STATE_POS_X 0 px ;;
  matrix_set ekf_x EKF_STATE_POS_Y 0 py ;;
  matrix_set ekf_x EKF_STATE_POS_Z 0 pz ;;
  matrix_set ekf_x EKF_STATE_VEL_X 0 vx_ ;;
  matrix_set ekf_x EKF_STATE_VEL_Y 0 vy_ ;;
  matrix_set ekf_x EKF_STATE_VEL_Z 0 vz_ ;;
  matrix_set ekf_x EKF_STATE_QUAT_W 0 qw_ ;;
  matrix_set ekf_x EKF_STATE_QUAT_X 0 qx_ ;;
  matrix_set ekf_x EKF_STATE_QUAT_Y 0 qy_ ;;
  matrix_set ekf_x EKF_STATE_QUAT_Z 0 qz_ ;;
  ekf_compute_jacobian pred_F dt ;;
  matrix_transpose pred_F pred_F_transpose ;;
  matrix_multiply pred_F ekf_P pred_temp1 ;;
  matrix_multiply pred_temp1 pred_F_transpose pred_temp2 ;;
  matrix_scale ekf_Q dt pred_scaled_Q ;;
  matrix_add pred_temp2 pred_scaled_Q ekf_P ;;
  ret true.
End ekf_predict_c.

(* ================================================================== *)
(** ** Core/Src/ekf/ekf_update.c *)
(* ================================================================== *)

Section ekf_update_c.
Context {T : Type} `{Scalar T}.
Local Open Scope c_scope.

Definition ekf_compute_gps_jacobian (H_ : ptr) : M T bool :=
  assign H_ (matrix_create 6 EKF_STATE_DIM) ;;
  matrix_zero H_ ;;
  matrix_set H_ 0 EKF_STATE_POS_X f_1 ;;
  matrix_set H_ 1 EKF_STATE_POS_Y f_1 ;;
  matrix_set H_ 2 EKF_STATE_POS_Z f_1 ;;
  matrix_set H_ 3 EKF_STATE_VEL_X f_1 ;;
  matrix_set H_ 4 EKF_STATE_VEL_Y f_1 ;;
  matrix_set H_ 5 EKF_STATE_VEL_Z f_1 ;;
  ret true.

Definition ekf_compute_baro_jacobian (H_ : ptr) : M T bool :=
  assign H_ (matrix_create 1 EKF_STATE_DIM) ;;
  matrix_zero H_ ;;
  matrix_set H_ 0 EKF_STATE_POS_Z f_1 ;;
  ret true.

Definition ekf_compute_mag_jacobian (H_ : ptr) : M T bool :=
  assign H_ (matrix_create 3 EKF_STATE_DIM) ;;
  matrix_zero H_ ;;
  qw <- out_param (matrix_get ekf_x EKF_STATE_QUAT_W 0) ;;
  qx <- out_param (matrix_get ekf_x EKF_STATE_QUAT_X 0) ;;
  qy <- out_param (matrix_get ekf_x EKF_STATE_QUAT_Y 0) ;;
  qz <- out_param (matrix_get ekf_x EKF_STATE_QUAT_Z 0) ;;
  e <- get_earth_mag_ned ;;
  let mx := vx e in
  let my := vy e in
  let mz := vz e in
  matrix_set H_ 0 EKF_STATE_QUAT_W (f_2 * (- qz * my + qy * mz))%fl ;;
  matrix_set H_ 1 EKF_STATE_QUAT_W (f_2 * (qz * mx - qx * mz))%fl ;;
  matrix_set H_ 2 EKF_STATE_QUAT_W (f_2 * (- qy * mx + qx * my))%fl ;;
  matrix_set H_ 0 EKF_STATE_QUAT_X (f_2 * (qy * my + qz * mz))%fl ;;
  matrix_set H_ 1 EKF_STATE_QUAT_X (f_2 * (qy * mx - f_2 * qx * my - qw * mz))%fl ;;
  matrix_set H_ 2 EKF_STATE_QUAT_X (f_2 * (qz * mx + qw * my - f_2 * qx * mz))%fl ;;
  matrix_set H_ 0 EKF_STATE_QUAT_Y (f_2 * (- f_2 * qy * mx + qx * my + qw * mz))%fl ;;
  matrix_set H_ 1 EKF_STATE_QUAT_Y (f_2 * (qx * mx + qz * mz))%fl ;;
  matrix_set H_ 2 EKF_STATE_QUAT_Y (f_2 * (- qw * mx + qz * my - f_2 * qy * mz))%fl ;;
  matrix_set H_ 0 EKF_STATE_QUAT_Z (f_2 * (- f_2 * qz * mx - qw * my + qx * mz))%fl ;;
  matrix_set H_ 1 EKF_STATE_QUAT_Z (f_2 * (qw * mx - f_2 * qz * my + qy * mz))%fl ;;
  matrix_set H_ 2 EKF_STATE_QUAT_Z (f_2 * (qx * mx + qy * my))%fl ;;
  ret true.

Definition ekf_compute_kalman_gain (H_ R_ K : ptr) : M T bool :=
  matrix_transpose H_ kg_H_transpose ;;
  matrix_multiply H_ ekf_P kg_temp1 ;;
  matrix_multiply kg_temp1 kg_H_transpose kg_temp2 ;;
  matrix_add kg_temp2 R_ kg_S ;;
  ok <- matrix_inverse kg_S kg_S_inv ;;
  if negb ok then ret false
  else
    matrix_multiply ekf_P kg_H_transpose kg_temp3 ;;
    matrix_multiply kg_temp3 kg_S_inv K ;;
    ret true.

Definition ekf_update_state_covariance (K y H_ : ptr) : M T bool :=
  matrix_multiply K y usc_dx ;;
  matrix_add ekf_x usc_dx ekf_x ;;
  qw_ <- out_param (matrix_get ekf_x EKF_STATE_QUAT_W 0) ;;
  qx_ <- out_param (matrix_get ekf_x EKF_STATE_QUAT_X 0) ;;
  qy_ <- out_param (matrix_get ekf_x EKF_STATE_QUAT_Y 0) ;;
  qz_ <- out_param (matrix_get ekf_x EKF_STATE_QUAT_Z 0) ;;
  let q := quaternion_create qw_ qx_ qy_ qz_ in
  let q := quaternion_normalize q in
  matrix_set ekf_x EKF_STATE_QUAT_W 0 (qw q) ;;
  matrix_set ekf_x EKF_STATE_QUAT_X 0 (qx q) ;;
  matrix_set ekf_x EKF_STATE_QUAT_Y 0 (qy q) ;;
  matrix_set ekf_x EKF_STATE_QUAT_Z 0 (qz q) ;;
  I16 <- matrix_identity EKF_STATE_DIM ;;
  assign usc_I I16 ;;
  matrix_multiply K H_ usc_KH ;;
  matrix_subtract usc_I usc_KH usc_I_KH ;;
  matrix_multiply usc_I_KH ekf_P usc_P_new ;;
  P_new <- deref usc_P_new ;;
  assign ekf_P P_new ;;
  matrix_transpose ekf_P usc_P_transpose ;;
  matrix_add ekf_P usc_P_transpose usc_P_new ;;
  matrix_scale usc_P_new f_half ekf_P ;;
  ret true.

Definition ekf_update_gps (pos vel : Vector3f T) : M T bool :=
  init <- get_initialized ;;
  if negb init then ret false
  else
  ekf_compute_gps_jacobian upd_H ;;
  pos_pred <- ekf_get_position ;;
  vel_pred <- ekf_get_velocity ;;
  assign upd_z (matrix_create 6 1) ;;
  assign upd_z_pred (matrix_create 6 1) ;;
  matrix_set upd_z 0 0 (vx pos) ;;
  matrix_set upd_z 1 0 (vy pos) ;;
  matrix_set upd_z 2 0 (vz pos) ;;
  matrix_set upd_z 3 0 (vx vel) ;;
  matrix_set upd_z 4 0 (vy vel) ;;
  matrix_set upd_z 5 0 (vz vel) ;;
  matrix_set upd_z_pred 0 0 (vx pos_pred) ;;
  matrix_set upd_z_pred 1 0 (vy pos_pred) ;;
  matrix_set upd_z_pred 2 0 (vz pos_pred) ;;
  matrix_set upd_z_pred 3 0 (vx vel_pred) ;;
  matrix_set upd_z_pred 4 0 (vy vel_pred) ;;
  matrix_set upd_z_pred 5 0 (vz vel_pred) ;;
  matrix_subtract upd_z upd_z_pred upd_y ;;
  ok <- ekf_compute_kalman_gain upd_H ekf_R_gps upd_K ;;
  if negb ok then ret false
  else ekf_update_state_covariance upd_K upd_y upd_H.

Definition ekf_update_baro (altitude : T) : M T bool :=
  init <- get_initialized ;;
  if negb init then ret false
  else
  ekf_compute_baro_jacobian upd_H ;;
  pos_pred <- ekf_get_position ;;
  assign upd_z (matrix_create 1 1) ;;
  assign upd_z_pred (matrix_create 1 1) ;;
  matrix_set upd_z 0 0 altitude ;;
  matrix_set upd_z_pred 0 0 (vz pos_pred) ;;
  matrix_subtract upd_z upd_z_pred upd_y ;;
  ok <- ekf_compute_kalman_gain upd_H ekf_R_baro upd_K ;;
  if negb ok then ret false
  else ekf_update_state_covariance upd_K upd_y upd_H.

Definition ekf_update_mag (mag : Vector3f T) : M T bool :=
  init <- get_initialized ;;
  if negb init then ret false
  else
  ekf_compute_mag_jacobian upd_H ;;
  q <- ekf_get_attitude ;;
  e <- get_earth_mag_ned ;;
  let mag_pred := quaternion_rotate_vector_inverse q e in
  assign upd_z (matrix_create 3 1) ;;
  assign upd_z_pred (matrix_create 3 1) ;;
  matrix_set upd_z 0 0 (vx mag) ;;
  matrix_set upd_z 1 0 (vy mag) ;;
  matrix_set upd_z 2 0 (vz mag) ;;
  matrix_set upd_z_pred 0 0 (vx mag_pred) ;;
  matrix_set upd_z_pred 1 0 (vy mag_pred) ;;
  matrix_set upd_z_pred 2 0 (vz mag_pred) ;;
  matrix_subtract upd_z upd_z_pred upd_y ;;
  ok <- ekf_compute_kalman_gain upd_H ekf_R_mag upd_K ;;
  if negb ok then ret false
  else ekf_update_state_covariance upd_K upd_y upd_H.
End ekf_update_c.

(* ================================================================== *)
(** ** Specification-level notions *)
(* ================================================================== *)

Section SpecDefs.
Context {T : Type} `{Scalar T}.

(** A structure that was declared and never written. *)
Definition indeterminate : Matrix T := mkMatrix (fun _ _ => None) 0 0.

(** A store in which no matrix was written yet. *)
Definition blank : mem T :=
  mkMem (fun _ => indeterminate) f_0 (mkVector3f f_0 f_0 f_0) false.

(** Replace the contents of [p->data], keeping the shape. *)
Definition with_data (p : ptr) (D : nat -> nat -> option T) (m : mem T) : mem T :=
  store p (mkMatrix D (rows (load p m)) (cols (load p m))) m.

Definition upd (D : nat -> nat -> option T) (i j : nat) (v : T) : nat -> nat -> option T :=
  fun i' j' => if (i' =? i) && (j' =? j) then Some v else D i' j'.

(** Every cell of the logical shape has been written. *)
Definition defined (A : Matrix T) : Prop :=
  forall i j, i < rows A -> j < cols A -> data A i j <> None.

Definition shape (r c : nat) (A : Matrix T) : Prop := rows A = r /\ cols A = c.

(** A well-formed [r] x [c] matrix. *)
Definition wf_matrix (r c : nat) (A : Matrix T) : Prop :=
  shape r c A /\ defined A.

(** The data-model invariant on the shapes of the filter's matrices. *)
Definition wf_filter (m : mem T) : Prop :=
  wf_matrix 16 1 (load ekf_x m) /\
  wf_matrix 16 16 (load ekf_P m) /\
  wf_matrix 16 16 (load ekf_Q m) /\
  wf_matrix 6 6 (load ekf_R_gps m) /\
  wf_matrix 1 1 (load ekf_R_baro m) /\
  wf_matrix 3 3 (load ekf_R_mag m).

(** The cells of the logical shape computed by [f], the others
    indeterminate: the result of [*result = matrix_create(r, c)] followed
    by a double loop that writes every cell. *)
Definition tabulate (r c : nat) (f : nat -> nat -> T) : Matrix T :=
  mkMatrix (fun i j => if (i <? r) && (j <? c) then Some (f i j) else None) r c.

Definition mat_add (A B : Matrix T) : Matrix T :=
  tabulate (rows A) (cols A) (fun i j => (cell A i j + cell B i j)%fl).

Definition mat_sub (A B : Matrix T) : Matrix T :=
  tabulate (rows A) (cols A) (fun i j => (cell A i j - cell B i j)%fl).

Definition mat_scale (A : Matrix T) (s : T) : Matrix T :=
  tabulate (rows A) (cols A) (fun i j => (cell A i j * s)%fl).

Definition mat_transpose (A : Matrix T) : Matrix T :=
  tabulate (cols A) (rows A) (fun i j => cell A j i).

(** [sum = 0; for k: sum += a[i][k] * b[k][j]], from [k] on, with the
    additions in the order of the loop. *)
Fixpoint dot_from (A B : Matrix T) (i j : nat) (n k : nat) (sum : T) : T :=
  match n with
  | O => sum
  | S n' => dot_from A B i j n' (S k) (sum + cell A i k * cell B k j)%fl
  end.

Definition mat_mul (A B : Matrix T) : Matrix T :=
  tabulate (rows A) (cols B) (fun i j => dot_from A B i j (cols A) 0 f_0).

Definition mat_identity (n : nat) : Matrix T :=
  tabulate n n (fun i j => if i =? j then f_1 else f_0).

(** The innovation covariance S = H P H^T + R as the code computes it. *)
Definition innovation_covariance (H_ P R_ : Matrix T) : Matrix T :=
  mat_add (mat_mul (mat_mul H_ P) (mat_transpose H_)) R_.

(** The state vector as sixteen scalars, and its quaternion part. *)
Definition state_component (m : mem T) (i : nat) : T := cell (load ekf_x m) i 0.

Definition state_quaternion (m : mem T) : Quaternion T :=
  mkQuaternion (state_component m EKF_STATE_QUAT_W)
               (state_component m EKF_STATE_QUAT_X)
               (state_component m EKF_STATE_QUAT_Y)
               (state_component m EKF_STATE_QUAT_Z).

(** Total correctness: [c] runs without fault from [m] and its result and
    final store satisfy [Q]. *)
Definition wp {A} (c : M T A) (Q : A -> mem T -> Prop) (m : mem T) : Prop :=
  match c m with
  | Ok a m' => Q a m'
  | Fault _ => False
  end.

(** Two stores that hold the same matrices under the pointers of [ps]. *)
Definition agree (ps : ptr -> bool) (m1 m2 : mem T) : Prop :=
  forall p, ps p = true -> load p m1 = load p m2.

(** [c] reads matrices only through pointers of [ps]: from stores that
    agree on [ps] it computes the same result, or the same fault, and
    leaves stores that agree on [ps']. *)
Definition reads_only {A} (ps ps' : ptr -> bool) (c : M T A) : Prop :=
  forall m1 m2, agree ps m1 m2 ->
    match c m1, c m2 with
    | Ok a1 m1', Ok a2 m2' => a1 = a2 /\ agree ps' m1' m2'
    | Fault f1, Fault f2 => f1 = f2
    | _, _ => False
    end.

(** [c] writes matrices only through pointers of [ps] and leaves the
    scalar fields of the filter alone. *)
Definition writes_only {A} (ps : ptr -> bool) (c : M T A) : Prop :=
  forall m,
    match c m with
    | Ok _ m' =>
        (forall p, ps p = false -> load p m' = load p m) /\
        gravity m' = gravity m /\
        earth_mag_ned m' = earth_mag_ned m /\
        initialized m' = initialized m
    | Fault _ => True
    end.

(** Some run of [matrix_inverse] on the matrix [S] returns false. *)
Definition inverse_fails_on (S_ : Matrix T) : Prop :=
  exists m m', load kg_S m = S_ /\ matrix_inverse kg_S kg_S_inv m = Ok false m'.

Definition only (l : list ptr) (p : ptr) : bool := existsb (ptr_eqb p) l.

(** The cell a loop body at [(i, j)] writes: [(i, j)], or [(j, i)] in
    [matrix_transpose]. *)
Definition target (t : bool) (i j : nat) : nat * nat := if t then (j, i) else (i, j).

Definition upd_at (t : bool) (D : nat -> nat -> option T) (i j : nat) (v : T) :=
  upd D (fst (target t i j)) (snd (target t i j)) v.

Definition at_ (t : bool) (D : nat -> nat -> option T) (i j : nat) :=
  D (fst (target t i j)) (snd (target t i j)).

(** [A] with the cells of its logical shape overwritten by [f]. *)
Definition overwrite (A : Matrix T) (f : nat -> nat -> T) : Matrix T :=
  mkMatrix (fun i j => if (i <? rows A) && (j <? cols A) then Some (f i j) else data A i j)
           (rows A) (cols A).

(** Decidable versions of [defined] and [wf_matrix], for concrete
    matrices. *)
Definition definedb (A : Matrix T) : bool :=
  forallb (fun i => forallb (fun j =>
    match data A i j with Some _ => true | None => false end)
    (seq 0 (cols A))) (seq 0 (rows A)).

Definition wf_matrixb (nr nc : nat) (A : Matrix T) : bool :=
  (rows A =? nr) && (cols A =? nc) && definedb A.

Definition wf_filterb (m : mem T) : bool :=
  wf_matrixb 16 1 (load ekf_x m) && wf_matrixb 16 16 (load ekf_P m) &&
  wf_matrixb 16 16 (load ekf_Q m) && wf_matrixb 6 6 (load ekf_R_gps m) &&
  wf_matrixb 1 1 (load ekf_R_baro m) && wf_matrixb 3 3 (load ekf_R_mag m).

(** The store a run leaves, for runs that are known not to fault. *)
Definition final {A} (c : M T A) (m : mem T) : mem T :=
  match c m with Ok _ m' => m' | Fault _ => m end.

(** The reset covariance diagonal as the specification documents it. *)
Definition documented_reset_diagonal : list T :=
  [f_lit 100 1; f_lit 100 1; f_lit 100 1; f_lit 10 1; f_lit 10 1; f_lit 10 1;
   f_lit 1 1; f_lit 1 1; f_lit 1 1; f_lit 1 1;
   f_lit 1 100; f_lit 1 100; f_lit 1 100; f_lit 1 10; f_lit 1 10; f_lit 1 10].

(** [c] preserves the property [I] of the store (partial correctness). *)
Definition stable {A} (I : mem T -> Prop) (c : M T A) : Prop :=
  forall m, I m -> match c m with Ok _ m' => I m' | Fault _ => True end.

(** [I] does not depend on the matrix under [p]. *)
Definition untouched_by (I : mem T -> Prop) (p : ptr) : Prop :=
  forall m A, I m -> I (store p A m).

(** The matrices other than those of [ps], and the scalar fields, are
    those of [m0]. *)
Definition same_outside (ps : list ptr) (m0 : mem T) : mem T -> Prop :=
  fun m => (forall p, only ps p = false -> load p m = load p m0) /\
           gravity m = gravity m0 /\
           earth_mag_ned m = earth_mag_ned m0 /\
           initialized m = initialized m0.

Definition also (p : ptr) (ps : ptr -> bool) : ptr -> bool :=
  fun q => ptr_eqb q p || ps q.

(** *** The propagation Jacobian as the specification words it *)

(** The state quaternion as [ekf_compute_jacobian] normalizes it: identity
    below 1e-6, else each component divided by the norm. *)
Definition normalize_by_division (q : Quaternion T) : Quaternion T :=
  let qnorm := sqrtf (qw q * qw q + qx q * qx q + qy q * qy q + qz q * qz q)%fl in
  if (qnorm <? f_1em6)%fl then mkQuaternion f_1 f_0 f_0 f_0
  else mkQuaternion (qw q / qnorm)%fl (qx q / qnorm)%fl (qy q / qnorm)%fl (qz q / qnorm)%fl.

(** The body-to-NED rotation matrix R(q) of a unit quaternion. *)
Definition rotation_matrix (q : Quaternion T) (i j : nat) : T :=
  match i, j with
  | 0, 0 => (f_1 - f_2 * (qy q * qy q + qz q * qz q))%fl
  | 0, 1 => (f_2 * (qx q * qy q - qw q * qz q))%fl
  | 0, 2 => (f_2 * (qx q * qz q + qw q * qy q))%fl
  | 1, 0 => (f_2 * (qx q * qy q + qw q * qz q))%fl
  | 1, 1 => (f_1 - f_2 * (qx q * qx q + qz q * qz q))%fl
  | 1, 2 => (f_2 * (qy q * qz q - qw q * qx q))%fl
  | 2, 0 => (f_2 * (qx q * qz q - qw q * qy q))%fl
  | 2, 1 => (f_2 * (qy q * qz q + qw q * qx q))%fl
  | 2, 2 => (f_1 - f_2 * (qx q * qx q + qy q * qy q))%fl
  | _, _ => f_0
  end.

(** The 4 x 3 block of quaternion rows against gyro-bias columns. *)
Definition attitude_gyro_block (q : Quaternion T) (dt : T) (i j : nat) : T :=
  match i, j with
  | 0, 0 => (- f_half * qx q * dt)%fl
  | 0, 1 => (- f_half * qy q * dt)%fl
  | 0, 2 => (- f_half * qz q * dt)%fl
  | 1, 0 => (f_half * qw q * dt)%fl
  | 1, 1 => (- f_half * qz q * dt)%fl
  | 1, 2 => (f_half * qy q * dt)%fl
  | 2, 0 => (f_half * qz q * dt)%fl
  | 2, 1 => (f_half * qw q * dt)%fl
  | 2, 2 => (- f_half * qx q * dt)%fl
  | 3, 0 => (- f_half * qy q * dt)%fl
  | 3, 1 => (f_half * qx q * dt)%fl
  | 3, 2 => (f_half * qw q * dt)%fl
  | _, _ => f_0
  end.

(** F = I + (dt I_3 at rows 0-2, columns 3-5) + (the attitude block at
    rows 6-9, columns 10-12) + (- R(q) dt at rows 3-5, columns 13-15). *)
Definition jacobian_spec (q : Quaternion T) (dt : T) (i j : nat) : T :=
  if (i <? 3) && (j =? i + 3) then dt
  else if ((6 <=? i) && (i <? 10)) && ((10 <=? j) && (j <? 13))
       then attitude_gyro_block q dt (i - 6) (j - 10)
  else if ((3 <=? i) && (i <? 6)) && ((13 <=? j) && (j <? 16))
       then (- rotation_matrix q (i - 3) (j - 13) * dt)%fl
  else if i =? j then f_1 else f_0.

(** *** The strapdown propagation as the specification words it *)

Definition state_vector3 (m : mem T) (i : nat) : Vector3f T :=
  mkVector3f (state_component m i) (state_component m (i + 1)) (state_component m (i + 2)).

Definition position (m : mem T) : Vector3f T := state_vector3 m EKF_STATE_POS_X.
Definition velocity (m : mem T) : Vector3f T := state_vector3 m EKF_STATE_VEL_X.
Definition gyro_bias (m : mem T) : Vector3f T := state_vector3 m EKF_STATE_GYRO_BIAS_X.
Definition accel_bias (m : mem T) : Vector3f T := state_vector3 m EKF_STATE_ACC_BIAS_X.

(** Step 1: the renormalized attitude before the quaternion integration. *)
Definition attitude_before (m : mem T) : Quaternion T :=
  quaternion_normalize (state_quaternion m).

(** Step 2: q + q_dot dt, renormalized. *)
Definition attitude_after (m : mem T) (gyro : Vector3f T) (dt : T) : Quaternion T :=
  let q := attitude_before m in
  let q_dot := quaternion_derivative q (vector3f_subtract gyro (gyro_bias m)) in
  quaternion_normalize
    (mkQuaternion (qw q + qw q_dot * dt)%fl (qx q + qx q_dot * dt)%fl
                  (qy q + qy q_dot * dt)%fl (qz q + qz q_dot * dt)%fl).

(** Steps 3 and 4 with the attitude [q]: rotate the bias-corrected
    accelerometer vector into NED and subtract gravity. *)
Definition ned_acceleration (q : Quaternion T) (m : mem T) (accel : Vector3f T) : Vector3f T :=
  vector3f_subtract
    (quaternion_rotate_vector q (vector3f_subtract accel (accel_bias m)))
    (mkVector3f f_0 f_0 (gravity m)).

(** Step 5 with the NED acceleration [a]. *)
Definition integrate_velocity (m : mem T) (a : Vector3f T) (dt : T) : Vector3f T :=
  mkVector3f (vx (velocity m) + vx a * dt)%fl
             (vy (velocity m) + vy a * dt)%fl
             (vz (velocity m) + vz a * dt)%fl.

(** Step 6 with the new velocity [v]. *)
Definition integrate_position (m : mem T) (v : Vector3f T) (dt : T) : Vector3f T :=
  mkVector3f (vx (position m) + vx v * dt)%fl
             (vy (position m) + vy v * dt)%fl
             (vz (position m) + vz v * dt)%fl.

(** F P F^T + Q dt, with the products and sums of matrix.c. *)
Definition propagated_covariance (F_ P Q : Matrix T) (dt : T) : Matrix T :=
  mat_add (mat_mul (mat_mul F_ P) (mat_transpose F_)) (mat_scale Q dt).

(** *** The Kalman correction as the code computes it *)

(** The state vector that [matrix_add(&ekf->x, &dx, &ekf->x)] leaves:
    the result pointer names the first operand, which [matrix_add] zeroes
    before it reads it, so each component is [0 + dx_i]. *)
Definition added_state (dx : Matrix T) (i : nat) : T := (f_0 + cell dx i 0)%fl.

(** (I - K H) P, then (P + P^T) / 2. *)
Definition corrected_covariance (K H_ P : Matrix T) : Matrix T :=
  let P_new := mat_mul (mat_sub (mat_identity 16) (mat_mul K H_)) P in
  mat_scale (mat_add P_new (mat_transpose P_new)) f_half.

(** The quaternion sub-state has norm 1. *)
Definition unit_attitude (m : mem T) : Prop :=
  quaternion_magnitude (state_quaternion m) = f_1.

(** Total correctness under an invariant: from a store that satisfies
    [I], [c] runs without fault, leaves a store that satisfies [I] and
    returns a result that satisfies [Q]. *)
Definition total {A} (I : mem T -> Prop) (c : M T A) (Q : A -> Prop) : Prop :=
  forall m, I m -> exists x m', c m = Ok x m' /\ I m' /\ Q x.

(** The invariant of the loops of [matrix_inverse] on an n x n matrix
    [a]: [a] and the n x 2n local [augmented] are written. *)
Definition inverse_invariant (a : ptr) (n : nat) (m : mem T) : Prop :=
  wf_matrix n n (load a m) /\ wf_matrix n (2 * n) (load inv_augmented m).

(** Every result of [c] satisfies [P] (partial correctness). *)
Definition yields {A} (P : A -> Prop) (c : M T A) : Prop :=
  forall m, match c m with Ok a _ => P a | Fault _ => True end.

(** Boolean tests on the outcome of a run, for concrete stores. *)
Definition returns {A} (c : M T A) (m : mem T) (test : A -> bool) : bool :=
  match c m with Ok a _ => test a | Fault _ => false end.

(** The comparison [<] of the scalars is asymmetric. *)
Definition flt_asymmetric : Prop :=
  forall a b : T, flt a b = true -> flt b a = false.
End SpecDefs.

(** ** Concrete filters and inputs, in single precision *)

Module Concrete.
Import Binary32.
Local Open Scope c_scope.

(** The filter after [ekf_init], started from a store never written. *)
Definition fresh_filter : mem binary32 := final ekf_init blank.

Definition vec (x y z : Z) : Vector3f binary32 := mkVector3f (of_Z x) (of_Z y) (of_Z z).

(** The vector (2^-30, 0, 0). *)
Definition tiny_vector : Vector3f binary32 :=
  mkVector3f (S754_finite false 8388608 (-53)) (S754_zero false) (S754_zero false).

(** [ekf_init], then [ekf_set_initial_state] at (100, 50, -20), at rest,
    level. *)
Definition initial_fix : mem binary32 :=
  final (ekf_set_initial_state (vec 100 50 (-20)) (vec 0 0 0) quaternion_identity)
        fresh_filter.

(** The same with GPS noise set to zero, and after one GPS update. *)
Definition exact_gps : mem binary32 := final (ekf_set_gps_noise f_0 f_0) initial_fix.

Definition locked_filter : mem binary32 :=
  final (ekf_update_gps (vec 100 50 (-20)) (vec 0 0 0)) exact_gps.

(** The measurement Jacobian [ekf_update_gps] computes from [locked_filter]. *)
Definition locked_H : mem binary32 := final (ekf_compute_gps_jacobian upd_H) locked_filter.

(** Inputs of a prediction step: yaw rate 2 rad/s, 1 m/s^2 forward. *)
Definition yaw_rate : Vector3f binary32 := vec 0 0 2.
Definition forward_accel : Vector3f binary32 := vec 1 0 0.

(** A row of three values, and an output array of four elements. *)
Definition three_values : list binary32 := [of_Z 1; of_Z 2; of_Z 3].
Definition four_slots : list binary32 := [of_Z 0; of_Z 0; of_Z 0; of_Z 0].
End Concrete.

(** Stores over the reals, for the statements in exact arithmetic. *)
Module ExactConcrete.
Import Exact.
Local Open Scope c_scope.

(** The filter after [ekf_init]. *)
Definition fresh_filter : mem R := final ekf_init blank.

(** One magnetometer sample and one accelerometer sample of a sensor at
    rest, level. *)
Definition one_mag : list (Vector3f R) := [mkVector3f 1%R 0%R 0%R].
Definition one_accel : list (Vector3f R) := [mkVector3f 0%R 0%R (-1)%R].

(** A filter at rest 100 m north of the origin, level, at the point where
    a barometer update with innovation 0 and gain (0, 0, 1/2, 0, ...)
    enters the correction step. *)
Definition state_north : Matrix R :=
  tabulate 16 1 (fun i _ => if i =? 0 then f_lit 100 1
                            else if i =? 6 then f_1 else f_0).

Definition before_correction : mem R :=
  store upd_H (tabulate 1 16 (fun _ j => if j =? 2 then f_1 else f_0))
    (store upd_y (tabulate 1 1 (fun _ _ => f_0))
       (store upd_K (tabulate 16 1 (fun i _ => if i =? 2 then f_half else f_0))
          (store ekf_P (mat_identity 16)
             (store ekf_x state_north blank)))).
End ExactConcrete.

(* ================================================================== *)
(** * Properties *)
(* ================================================================== *)

Unset Implicit Arguments.

(** ** The store *)

Lemma ptr_eqb_refl (p : ptr) : ptr_eqb p p = true.
Proof. apply Nat.eqb_refl. Qed.

Lemma ptr_id_inj (p q : ptr) : ptr_id p = ptr_id q -> p = q.
Proof. destruct p, q; simpl; intros E; try reflexivity; discriminate E. Qed.

Lemma ptr_eqb_eq (p q : ptr) : ptr_eqb p q = true <-> p = q.
Proof.
  unfold ptr_eqb. rewrite Nat.eqb_eq. split.
  - apply ptr_id_inj.
  - intros ->. reflexivity.
Qed.

Lemma ptr_eqb_neq (p q : ptr) : p <> q -> ptr_eqb p q = false.
Proof.
  intros Hn. destruct (ptr_eqb p q) eqn:E; [|reflexivity].
  apply ptr_eqb_eq in E. contradiction.
Qed.

Section StoreFacts.
Context {T : Type} `{Scalar T}.
Implicit Types (m : mem T) (A B : Matrix T) (p q : ptr).

Lemma load_store_same p A m : load p (store p A m) = A.
Proof. unfold load, store. simpl. now rewrite ptr_eqb_refl. Qed.

Lemma load_store_other p q A m : ptr_eqb q p = false -> load q (store p A m) = load q m.
Proof. unfold load, store. simpl. now intros ->. Qed.

Lemma store_store_same p A B m : store p A (store p B m) = store p A m.
Proof.
  unfold store. simpl. f_equal.
  extensionality q. now destruct (ptr_eqb q p).
Qed.

Lemma matrix_eta A : mkMatrix (data A) (rows A) (cols A) = A.
Proof. now destruct A. Qed.

Lemma store_load_id p m : store p (load p m) m = m.
Proof.
  destruct m as [ms g e b]. unfold store, load. simpl. f_equal.
  extensionality q. destruct (ptr_eqb q p) eqn:E; [|reflexivity].
  apply ptr_eqb_eq in E. now subst.
Qed.

Lemma with_data_id p m : with_data p (data (load p m)) m = m.
Proof. unfold with_data. now rewrite matrix_eta, store_load_id. Qed.

Lemma with_data_with_data p D D' m : with_data p D (with_data p D' m) = with_data p D m.
Proof.
  unfold with_data. rewrite load_store_same. simpl. apply store_store_same.
Qed.

Lemma load_with_data_same p D m :
  load p (with_data p D m) = mkMatrix D (rows (load p m)) (cols (load p m)).
Proof. apply load_store_same. Qed.

Lemma load_with_data_other p q D m :
  ptr_eqb q p = false -> load q (with_data p D m) = load q m.
Proof. apply load_store_other. Qed.
End StoreFacts.

(** Case analysis on the comparisons of a goal, closed by arithmetic. *)
Ltac cases :=
  repeat (match goal with
          | |- context [Nat.eqb ?a ?b] => destruct (Nat.eqb_spec a b)
          | |- context [Nat.leb ?a ?b] => destruct (Nat.leb_spec a b)
          | |- context [Nat.ltb ?a ?b] => destruct (Nat.ltb_spec a b)
          end; cbn [andb orb negb fst snd]);
  try reflexivity; try lia; try congruence.

(** ** Sequencing and loops *)

Section MonadFacts.
Context {T : Type} `{Scalar T}.
Implicit Types (m : mem T) (p q : ptr).
Local Open Scope c_scope.

Lemma bind_ok {A B} (c : M T A) (k : A -> M T B) m a m' :
  c m = Ok a m' -> bind c k m = k a m'.
Proof. unfold bind. now intros ->. Qed.

Lemma bind_fault {A B} (c : M T A) (k : A -> M T B) m f :
  c m = Fault f -> bind c k m = Fault f.
Proof. unfold bind. now intros ->. Qed.

Lemma wp_ret {A} (a : A) (Q : A -> mem T -> Prop) m : Q a m -> wp (ret a) Q m.
Proof. now unfold wp, ret. Qed.

Lemma wp_bind {A B} (c : M T A) (k : A -> M T B) (Q : B -> mem T -> Prop) m :
  wp c (fun a m' => wp (k a) Q m') m -> wp (bind c k) Q m.
Proof. unfold wp, bind. now destruct (c m). Qed.

Lemma wp_eq {A} (c : M T A) (Q : A -> mem T -> Prop) m a m' :
  c m = Ok a m' -> Q a m' -> wp c Q m.
Proof. unfold wp. now intros ->. Qed.

Lemma wp_inv {A} (c : M T A) (Q : A -> mem T -> Prop) m :
  wp c Q m -> exists a m', c m = Ok a m' /\ Q a m'.
Proof. unfold wp. destruct (c m); [eauto | tauto]. Qed.

Lemma wp_mono {A} (c : M T A) (Q Q' : A -> mem T -> Prop) m :
  wp c Q m -> (forall a m', Q a m' -> Q' a m') -> wp c Q' m.
Proof. unfold wp. destruct (c m); auto. Qed.

Lemma rd_ok p i j v m :
  in_storage i j = true -> data (load p m) i j = Some v -> rd p i j m = Ok v m.
Proof. unfold rd. now intros -> ->. Qed.

Lemma wr_ok p i j v m :
  in_storage i j = true ->
  wr p i j v m = Ok tt (with_data p (upd (data (load p m)) i j v) m).
Proof. unfold wr. now intros ->. Qed.

Lemma in_storage_lt i j : i < 16 -> j < 16 -> in_storage i j = true.
Proof.
  intros Hi Hj. unfold in_storage, MATRIX_MAX_SIZE.
  apply andb_true_intro. split; now apply Nat.ltb_lt.
Qed.

Lemma for_unfold lo hi (body : nat -> M T unit) :
  for_ lo hi body = for_acc (hi - lo) lo tt (fun i _ => body i).
Proof. reflexivity. Qed.

Section Fill.
Variables (p : ptr) (t : bool) (r c : nat) (body : nat -> nat -> M T unit)
          (f : nat -> nat -> T) (m0 : mem T).
Hypothesis body_writes : forall i j D, i < r -> j < c ->
  at_ t D i j = at_ t (data (load p m0)) i j ->
  body i j (with_data p D m0) = Ok tt (with_data p (upd_at t D i j (f i j)) m0).

Lemma fill_row i (Hi : i < r) : forall n j0 D,
  j0 + n = c ->
  (forall j, j0 <= j -> j < c -> at_ t D i j = at_ t (data (load p m0)) i j) ->
  for_acc n j0 tt (fun j _ => body i j) (with_data p D m0)
  = Ok tt (with_data p
      (fun i' j' =>
         let '(a, b) := target t i' j' in
         if (a =? i) && ((j0 <=? b) && (b <? c)) then Some (f a b) else D i' j') m0).
Proof.
  induction n as [|n IH]; intros j0 D Hn HD.
  - simpl. unfold ret. do 2 f_equal.
    extensionality i'. extensionality j'.
    destruct (target t i' j') as [a b]. cases.
  - simpl. erewrite bind_ok; [| apply body_writes; [assumption| lia | apply HD; lia]].
    rewrite IH; [| lia |].
    + do 2 f_equal. extensionality i'. extensionality j'.
      unfold upd_at, upd, target. destruct t; cbn [fst snd]; cases.
    + intros j Hj1 Hj2. rewrite <- HD by lia.
      unfold at_, upd_at, upd, target. destruct t; cbn [fst snd]; cases.
Qed.

Lemma fill_rows : forall n i0 D,
  i0 + n = r ->
  (forall i j, i0 <= i -> i < r -> j < c ->
     at_ t D i j = at_ t (data (load p m0)) i j) ->
  for_acc n i0 tt (fun i _ => for_ 0 c (fun j => body i j)) (with_data p D m0)
  = Ok tt (with_data p
      (fun i' j' =>
         let '(a, b) := target t i' j' in
         if ((i0 <=? a) && (a <? r)) && (b <? c) then Some (f a b) else D i' j') m0).
Proof.
  induction n as [|n IH]; intros i0 D Hn HD.
  - simpl. unfold ret. do 2 f_equal.
    extensionality i'. extensionality j'.
    destruct (target t i' j') as [a b]. cases.
  - simpl. rewrite for_unfold, Nat.sub_0_r.
    erewrite bind_ok; [| apply fill_row; [lia | lia | intros; apply HD; lia]].
    rewrite IH; [| lia |].
    + do 2 f_equal. extensionality i'. extensionality j'.
      destruct (target t i' j') as [a b] eqn:Et.
      cases.
    + intros i j Hi1 Hi2 Hj. rewrite <- HD by lia.
      unfold at_, target. destruct t; cbn [fst snd]; cases.
Qed.

(** A double loop that writes every cell of an [r] x [c] shape once. *)
Lemma fill_spec :
  for_ 0 r (fun i => for_ 0 c (fun j => body i j)) m0
  = Ok tt (with_data p
      (fun i' j' =>
         let '(a, b) := target t i' j' in
         if (a <? r) && (b <? c) then Some (f a b) else data (load p m0) i' j') m0).
Proof.
  rewrite for_unfold, Nat.sub_0_r.
  rewrite <- (with_data_id p m0) at 1.
  rewrite fill_rows; [| lia | reflexivity].
  reflexivity.
Qed.
End Fill.
End MonadFacts.

(** ** Core/Src/math/matrix.c: what each function computes *)

Section MatrixFacts.
Context {T : Type} `{Scalar T}.
Implicit Types (m : mem T) (A B : Matrix T) (p q a b r : ptr).
Implicit Types (f : nat -> nat -> T) (nr nc : nat).
Local Open Scope c_scope.

Lemma cell_defined A i j : data A i j <> None -> data A i j = Some (cell A i j).
Proof. unfold cell. now destruct (data A i j). Qed.

Lemma defined_cell A i j :
  defined A -> i < rows A -> j < cols A -> data A i j = Some (cell A i j).
Proof. intros HA Hi Hj. apply cell_defined. now apply HA. Qed.

Lemma clamp_le n : n <= 16 -> (if MATRIX_MAX_SIZE <? n then MATRIX_MAX_SIZE else n) = n.
Proof. unfold MATRIX_MAX_SIZE. intros. cases. Qed.

Lemma matrix_create_le nr nc :
  nr <= 16 -> nc <= 16 -> matrix_create nr nc = tabulate nr nc (fun _ _ => f_0).
Proof. intros Hr Hc. unfold matrix_create. now rewrite !clamp_le. Qed.

Lemma tabulate_defined nr nc f : defined (tabulate nr nc f).
Proof. intros i j Hi Hj. simpl in *. cases. Qed.

Lemma wf_tabulate nr nc f : wf_matrix nr nc (tabulate nr nc f).
Proof. split; [now split | apply tabulate_defined]. Qed.

Lemma cell_tabulate nr nc f i j : i < nr -> j < nc -> cell (tabulate nr nc f) i j = f i j.
Proof. intros. unfold cell. simpl. cases. Qed.

(** [*r = matrix_create(R, C)] followed by a double loop over [nr] x [nc]
    that writes every cell of the new matrix. *)
Lemma create_fill_spec r t nr nc body f m :
  nr <= 16 -> nc <= 16 ->
  let R := fst (target t nr nc) in
  let C := snd (target t nr nc) in
  let m1 := store r (matrix_create R C) m in
  (forall i j D, i < nr -> j < nc -> at_ t D i j = Some f_0 ->
     body i j (with_data r D m1) = Ok tt (with_data r (upd_at t D i j (f i j)) m1)) ->
  for_ 0 nr (fun i => for_ 0 nc (fun j => body i j)) m1
  = Ok tt (store r (tabulate R C
             (fun u v => f (fst (target t u v)) (snd (target t u v)))) m).
Proof.
  intros Hr Hc R C m1 Hbody.
  assert (HRC : R <= 16 /\ C <= 16) by (unfold R, C, target; destruct t; simpl; lia).
  destruct HRC as [HR HC].
  rewrite (@fill_spec _ r t nr nc body f m1).
  - unfold with_data, m1. rewrite load_store_same, store_store_same.
    rewrite matrix_create_le by assumption. simpl.
    do 2 f_equal. unfold tabulate. f_equal.
    extensionality i'. extensionality j'.
    unfold R, C, target. destruct t; cbn [fst snd]; cases.
  - intros i j D Hi Hj HD. apply Hbody; try assumption.
    rewrite HD. unfold m1. rewrite load_store_same.
    rewrite matrix_create_le by assumption.
    unfold at_, R, C, target. destruct t; simpl; cases.
Qed.

Lemma rd_defined p i j m :
  i < 16 -> j < 16 -> data (load p m) i j <> None ->
  rd p i j m = Ok (cell (load p m) i j) m.
Proof. intros Hi Hj Hd. apply rd_ok; [now apply in_storage_lt | now apply cell_defined]. Qed.

Lemma wr_with_data p i j v D m :
  i < 16 -> j < 16 ->
  wr p i j v (with_data p D m) = Ok tt (with_data p (upd D i j v) m).
Proof.
  intros Hi Hj. rewrite wr_ok by now apply in_storage_lt.
  now rewrite load_with_data_same, with_data_with_data.
Qed.

(** Element-wise binary operations: [matrix_add], [matrix_subtract]. *)
Lemma elementwise2_spec (op : T -> T -> T) a b r m :
  let A := load a m in
  let B := load b m in
  ptr_eqb a r = false -> ptr_eqb b r = false ->
  rows A <= 16 -> cols A <= 16 -> defined A ->
  rows B = rows A -> cols B = cols A -> defined B ->
  (assign r (matrix_create (rows A) (cols A)) ;;
   ar <- rows_of a ;; ac <- cols_of a ;;
   (For i from 0 below ar do
    For j from 0 below ac do
      va <- rd a i j ;; vb <- rd b i j ;; wr r i j (op va vb)) ;;
   ret true) m
  = Ok true (store r (tabulate (rows A) (cols A)
                        (fun i j => op (cell A i j) (cell B i j))) m).
Proof.
  intros A B Har Hbr HrA HcA HdA HrB HcB HdB.
  unfold bind at 1, assign.
  unfold bind at 1, rows_of. rewrite load_store_other by assumption.
  unfold bind at 1, cols_of. rewrite load_store_other by assumption.
  fold A. erewrite bind_ok.
  2:{ apply create_fill_spec with (t := false)
        (f := fun i j => op (cell A i j) (cell B i j)); try assumption.
      intros i j D Hi Hj _.
      erewrite bind_ok.
      2:{ apply rd_defined; try lia.
          rewrite load_with_data_other, load_store_other by assumption.
          now apply HdA. }
      erewrite bind_ok.
      2:{ apply rd_defined; try lia.
          rewrite load_with_data_other, load_store_other by assumption.
          apply HdB; fold B; lia. }
      rewrite !load_with_data_other, !load_store_other by assumption.
      apply wr_with_data; lia. }
  reflexivity.
Qed.

Lemma matrix_add_spec a b r m :
  let A := load a m in
  let B := load b m in
  ptr_eqb a r = false -> ptr_eqb b r = false ->
  rows A <= 16 -> cols A <= 16 -> defined A ->
  rows B = rows A -> cols B = cols A -> defined B ->
  matrix_add a b r m = Ok true (store r (mat_add A B) m).
Proof.
  intros A B Har Hbr HrA HcA HdA HrB HcB HdB.
  unfold matrix_add.
  unfold bind at 1, rows_of. unfold bind at 1. unfold bind at 1, cols_of.
  unfold bind at 1. fold A B. rewrite HrB, HcB, !Nat.eqb_refl. cbn [negb orb].
  now apply elementwise2_spec.
Qed.

Lemma matrix_subtract_spec a b r m :
  let A := load a m in
  let B := load b m in
  ptr_eqb a r = false -> ptr_eqb b r = false ->
  rows A <= 16 -> cols A <= 16 -> defined A ->
  rows B = rows A -> cols B = cols A -> defined B ->
  matrix_subtract a b r m = Ok true (store r (mat_sub A B) m).
Proof.
  intros A B Har Hbr HrA HcA HdA HrB HcB HdB.
  unfold matrix_subtract.
  unfold bind at 1, rows_of. unfold bind at 1. unfold bind at 1, cols_of.
  unfold bind at 1. fold A B. rewrite HrB, HcB, !Nat.eqb_refl. cbn [negb orb].
  now apply elementwise2_spec.
Qed.

Lemma matrix_scale_spec a s r m :
  let A := load a m in
  ptr_eqb a r = false ->
  rows A <= 16 -> cols A <= 16 -> defined A ->
  matrix_scale a s r m = Ok true (store r (mat_scale A s) m).
Proof.
  intros A Har HrA HcA HdA.
  unfold matrix_scale.
  unfold bind at 1, rows_of. unfold bind at 1, cols_of. fold A.
  unfold bind at 1, assign.
  unfold bind at 1, rows_of. rewrite load_store_other by assumption.
  unfold bind at 1, cols_of. rewrite load_store_other by assumption.
  fold A. erewrite bind_ok.
  2:{ apply create_fill_spec with (t := false)
        (f := fun i j => fmul (cell A i j) s); try assumption.
      intros i j D Hi Hj _.
      erewrite bind_ok.
      2:{ apply rd_defined; try lia.
          rewrite load_with_data_other, load_store_other by assumption.
          now apply HdA. }
      rewrite !load_with_data_other, !load_store_other by assumption.
      apply wr_with_data; lia. }
  reflexivity.
Qed.

Lemma matrix_transpose_spec a r m :
  let A := load a m in
  ptr_eqb a r = false ->
  rows A <= 16 -> cols A <= 16 -> defined A ->
  matrix_transpose a r m = Ok true (store r (mat_transpose A) m).
Proof.
  intros A Har HrA HcA HdA.
  unfold matrix_transpose.
  unfold bind at 1, rows_of. unfold bind at 1, cols_of. fold A.
  unfold bind at 1, assign.
  unfold bind at 1, rows_of. rewrite load_store_other by assumption.
  unfold bind at 1, cols_of. rewrite load_store_other by assumption.
  fold A. erewrite bind_ok.
  2:{ apply (@create_fill_spec r true (rows A) (cols A)) with
        (f := fun i j => cell A i j); try assumption.
      intros i j D Hi Hj _.
      erewrite bind_ok.
      2:{ apply rd_defined; try lia.
          rewrite load_with_data_other, load_store_other by assumption.
          now apply HdA. }
      rewrite !load_with_data_other, !load_store_other by assumption.
      apply wr_with_data; lia. }
  reflexivity.
Qed.

(** The accumulation [sum += a[i][k] * b[k][j]]. *)
Lemma dot_loop_spec a b i j m : forall n k sum,
  let A := load a m in
  let B := load b m in
  i < 16 -> j < 16 -> k + n <= 16 ->
  (forall k', k <= k' -> k' < k + n -> data A i k' <> None /\ data B k' j <> None) ->
  for_acc n k sum (fun k sum =>
    va <- rd a i k ;; vb <- rd b k j ;; ret (sum + va * vb)%fl) m
  = Ok (dot_from A B i j n k sum) m.
Proof.
  induction n as [|n IH]; intros k sum A B Hi Hj Hk Hd.
  - reflexivity.
  - simpl. destruct (Hd k) as [Ha Hb]; try lia.
    erewrite bind_ok.
    2:{ erewrite bind_ok; [| apply rd_defined; [lia | lia | exact Ha]].
        erewrite bind_ok; [| apply rd_defined; [lia | lia | exact Hb]].
        reflexivity. }
    apply IH; try lia. intros k' H1 H2. apply Hd; lia.
Qed.

Lemma matrix_multiply_spec a b r m :
  let A := load a m in
  let B := load b m in
  ptr_eqb a r = false -> ptr_eqb b r = false ->
  rows A <= 16 -> cols A <= 16 -> defined A ->
  rows B = cols A -> cols B <= 16 -> defined B ->
  matrix_multiply a b r m = Ok true (store r (mat_mul A B) m).
Proof.
  intros A B Har Hbr HrA HcA HdA HrB HcB HdB.
  unfold matrix_multiply.
  unfold bind at 1, cols_of. unfold bind at 1, rows_of. fold A B.
  rewrite HrB, Nat.eqb_refl. cbn [negb].
  unfold bind at 1, rows_of. unfold bind at 1, cols_of. fold A B.
  unfold bind at 1, assign.
  unfold bind at 1, rows_of. rewrite load_store_other by assumption.
  unfold bind at 1, cols_of. rewrite load_store_other by assumption.
  unfold bind at 1. rewrite load_store_other by assumption.
  fold A B. erewrite bind_ok.
  2:{ apply create_fill_spec with (t := false)
        (f := fun i j => dot_from A B i j (cols A) 0 f_0); try assumption.
      intros i j D Hi Hj _.
      erewrite bind_ok.
      2:{ apply dot_loop_spec; try lia.
          intros k' _ Hk.
          rewrite !load_with_data_other, !load_store_other by assumption.
          split; [apply HdA | apply HdB]; fold A B; lia. }
      rewrite !load_with_data_other, !load_store_other by assumption.
      apply wr_with_data; lia. }
  reflexivity.
Qed.

(** [matrix_add(a, b, a)]: the result pointer names the first operand.
    [*result = matrix_create(...)] zeroes the operand before it is read,
    so the sum is [0 + b]. *)
Lemma matrix_add_aliased_spec a b m :
  let A := load a m in
  let B := load b m in
  ptr_eqb b a = false ->
  rows A <= 16 -> cols A <= 16 ->
  rows B = rows A -> cols B = cols A -> defined B ->
  matrix_add a b a m
  = Ok true (store a (tabulate (rows A) (cols A)
                        (fun i j => (f_0 + cell B i j)%fl)) m).
Proof.
  intros A B Hba HrA HcA HrB HcB HdB.
  unfold matrix_add.
  unfold bind at 1, rows_of. unfold bind at 1. unfold bind at 1, cols_of.
  unfold bind at 1. fold A B. rewrite HrB, HcB, !Nat.eqb_refl. cbn [negb orb].
  unfold bind at 1, assign.
  unfold bind at 1, rows_of. rewrite load_store_same.
  unfold bind at 1, cols_of. rewrite load_store_same.
  rewrite matrix_create_le by assumption. cbn [rows cols tabulate].
  rewrite <- matrix_create_le by assumption.
  erewrite bind_ok.
  2:{ apply create_fill_spec with (t := false)
        (f := fun i j => fadd f_0 (cell B i j)); try assumption.
      intros i j D Hi Hj HD. unfold at_, target in HD. cbn [fst snd] in HD.
      erewrite bind_ok.
      2:{ apply rd_ok; [apply in_storage_lt; lia |].
          rewrite load_with_data_same. exact HD. }
      erewrite bind_ok.
      2:{ apply rd_defined; try lia.
          rewrite load_with_data_other, load_store_other by assumption.
          apply HdB; fold B; lia. }
      rewrite !load_with_data_other, !load_store_other by assumption.
      apply wr_with_data; lia. }
  reflexivity.
Qed.

Lemma matrix_set_spec p row col v m :
  let A := load p m in
  row < rows A -> col < cols A -> rows A <= 16 -> cols A <= 16 ->
  matrix_set p row col v m = Ok true (with_data p (upd (data A) row col v) m).
Proof.
  intros A Hr Hc HrA HcA. unfold matrix_set.
  unfold bind at 1, rows_of. unfold bind at 1, cols_of. fold A.
  destruct (Nat.leb_spec (rows A) row); [lia|].
  destruct (Nat.leb_spec (cols A) col); [lia|]. cbn [orb].
  erewrite bind_ok; [| apply wr_ok; apply in_storage_lt; lia].
  reflexivity.
Qed.

Lemma matrix_set_out_of_range p row col v m :
  let A := load p m in
  rows A <= row \/ cols A <= col ->
  matrix_set p row col v m = Ok false m.
Proof.
  intros A Hout. unfold matrix_set.
  unfold bind at 1, rows_of. unfold bind at 1, cols_of. fold A.
  destruct (Nat.leb_spec (rows A) row); [reflexivity|].
  destruct (Nat.leb_spec (cols A) col); [reflexivity|]. lia.
Qed.

Lemma matrix_get_spec p row col m :
  let A := load p m in
  row < rows A -> col < cols A -> rows A <= 16 -> cols A <= 16 ->
  data A row col <> None ->
  out_param (matrix_get p row col) m = Ok (cell A row col) m.
Proof.
  intros A Hr Hc HrA HcA Hd. unfold out_param, matrix_get.
  unfold bind at 1. unfold bind at 1, rows_of. unfold bind at 1, cols_of. fold A.
  destruct (Nat.leb_spec (rows A) row); [lia|].
  destruct (Nat.leb_spec (cols A) col); [lia|]. cbn [orb].
  erewrite bind_ok; [| apply rd_defined; [lia | lia | exact Hd]].
  reflexivity.
Qed.

Lemma matrix_zero_spec p m :
  let A := load p m in
  rows A <= 16 -> cols A <= 16 ->
  matrix_zero p m
  = Ok true (with_data p
      (fun i j => if (i <? rows A) && (j <? cols A) then Some f_0 else data A i j) m).
Proof.
  intros A HrA HcA. unfold matrix_zero.
  unfold bind at 1, rows_of. unfold bind at 1, cols_of. fold A.
  erewrite bind_ok.
  2:{ apply (@fill_spec _ p false (rows A) (cols A)) with (f := fun _ _ => f_0).
      intros i j D Hi Hj _. apply wr_with_data; lia. }
  reflexivity.
Qed.

(** A loop that writes the first [n] diagonal cells. *)
Lemma diag_loop_spec p (body : nat -> M T unit) (g : nat -> T) m0 n :
  n <= 16 ->
  (forall i D, i < n ->
     body i (with_data p D m0) = Ok tt (with_data p (upd D i i (g i)) m0)) ->
  for_ 0 n body m0
  = Ok tt (with_data p
      (fun i j => if (i =? j) && (i <? n) then Some (g i) else data (load p m0) i j) m0).
Proof.
  intros Hn Hbody.
  assert (G : forall k i0 D, i0 + k = n ->
    for_acc k i0 tt (fun i _ => body i) (with_data p D m0)
    = Ok tt (with_data p
        (fun i j => if (i =? j) && ((i0 <=? i) && (i <? n)) then Some (g i) else D i j) m0)).
  { induction k as [|k IH]; intros i0 D Hk.
    - simpl. unfold ret. do 2 f_equal.
      extensionality i. extensionality j. cases.
    - simpl. erewrite bind_ok; [| apply Hbody; lia].
      rewrite IH by lia. do 2 f_equal.
      extensionality i. extensionality j. unfold upd. cases. }
  rewrite for_unfold, Nat.sub_0_r.
  rewrite <- (with_data_id p m0) at 1.
  rewrite G by lia. reflexivity.
Qed.

Lemma matrix_identity_spec n m :
  n <= 16 ->
  matrix_identity n m = Ok (mat_identity n) (store id_m (mat_identity n) m).
Proof.
  intros Hn. unfold matrix_identity.
  unfold bind at 1, assign.
  erewrite bind_ok.
  2:{ apply diag_loop_spec with (g := fun _ => f_1); [assumption|].
      intros i D Hi. apply wr_with_data; lia. }
  unfold deref, with_data. rewrite !load_store_same, store_store_same.
  rewrite matrix_create_le by assumption. cbn [rows cols data tabulate].
  assert (E : mkMatrix
            (fun i j => if (i =? j) && (i <? n) then Some f_1
                        else if (i <? n) && (j <? n) then Some f_0 else None) n n
          = mat_identity n).
  { unfold mat_identity, tabulate. f_equal.
    extensionality i. extensionality j. cases. }
  now rewrite E.
Qed.

Lemma matrix_diagonal_vector_spec p values size m :
  let A := load p m in
  rows A <= 16 -> cols A <= 16 -> size <= length values ->
  matrix_diagonal_vector p values size m
  = Ok true (store p (overwrite A (fun i j =>
               if (i =? j) && (i <? size) then nth i values f_0 else f_0)) m).
Proof.
  intros A HrA HcA Hsize. unfold matrix_diagonal_vector.
  erewrite bind_ok; [| apply matrix_zero_spec; assumption].
  fold A.
  unfold bind at 1, rows_of. unfold bind at 1, cols_of.
  rewrite load_with_data_same. cbn [rows cols]. fold A.
  set (min_dim := if size <? (if rows A <? cols A then rows A else cols A)
                  then size else if rows A <? cols A then rows A else cols A).
  assert (Hmin : min_dim <= 16 /\ min_dim <= size /\ min_dim <= rows A /\ min_dim <= cols A
                 /\ (min_dim = size \/ min_dim = rows A \/ min_dim = cols A)).
  { unfold min_dim. destruct (Nat.ltb_spec (rows A) (cols A)); cbv iota; cases. }
  clearbody min_dim.
  erewrite bind_ok.
  2:{ apply diag_loop_spec with (p := p) (g := fun i => nth i values f_0); [lia|].
      intros i D Hi.
      destruct (nth_error values i) as [v|] eqn:E.
      - rewrite (nth_error_nth _ _ _ E). apply wr_with_data; lia.
      - apply nth_error_None in E. lia. }
  unfold ret. f_equal. rewrite with_data_with_data.
  rewrite load_with_data_same. unfold with_data. cbn [rows cols data].
  f_equal. unfold overwrite. fold A. f_equal.
  extensionality i. extensionality j. cases.
Qed.

Lemma matrix_diagonal_spec p value m :
  let A := load p m in
  rows A <= 16 -> cols A <= 16 ->
  matrix_diagonal p value m
  = Ok true (store p (overwrite A (fun i j => if i =? j then value else f_0)) m).
Proof.
  intros A HrA HcA. unfold matrix_diagonal.
  erewrite bind_ok; [| apply matrix_zero_spec; assumption].
  fold A.
  unfold bind at 1, rows_of. unfold bind at 1, cols_of.
  rewrite load_with_data_same. cbn [rows cols]. fold A.
  set (min_dim := if rows A <? cols A then rows A else cols A).
  assert (Hmin : min_dim <= 16 /\ min_dim <= rows A /\ min_dim <= cols A
                 /\ (min_dim = rows A \/ min_dim = cols A)).
  { unfold min_dim. cases. }
  clearbody min_dim.
  erewrite bind_ok.
  2:{ apply diag_loop_spec with (p := p) (g := fun _ => value); [lia|].
      intros i D Hi. apply wr_with_data; lia. }
  unfold ret. f_equal. rewrite with_data_with_data.
  rewrite load_with_data_same. unfold with_data. cbn [rows cols data].
  f_equal. unfold overwrite. fold A. f_equal.
  extensionality i. extensionality j. cases.
Qed.

(** *** Well-formedness *)

Lemma definedb_ok A : definedb A = true -> defined A.
Proof.
  unfold definedb, defined. intros Hb i j Hi Hj.
  rewrite forallb_forall in Hb.
  specialize (Hb i). rewrite in_seq in Hb.
  specialize (Hb ltac:(lia)). rewrite forallb_forall in Hb.
  specialize (Hb j). rewrite in_seq in Hb.
  specialize (Hb ltac:(lia)).
  destruct (data A i j); [discriminate | discriminate Hb].
Qed.

Lemma wf_matrixb_ok nr nc A : wf_matrixb nr nc A = true -> wf_matrix nr nc A.
Proof.
  unfold wf_matrixb. intros Hb.
  apply andb_prop in Hb. destruct Hb as [Hb Hd].
  apply andb_prop in Hb. destruct Hb as [Hr Hc].
  apply Nat.eqb_eq in Hr, Hc.
  split; [now split | now apply definedb_ok].
Qed.

Lemma wf_filterb_ok m : wf_filterb m = true -> wf_filter m.
Proof.
  unfold wf_filterb, wf_filter. intros Hb.
  do 5 (apply andb_prop in Hb; destruct Hb as [Hb ?]).
  split; [|split; [|split; [|split; [|split]]]]; apply wf_matrixb_ok; assumption.
Qed.

Lemma defined_upd A i j v :
  defined A -> defined (mkMatrix (upd (data A) i j v) (rows A) (cols A)).
Proof.
  intros HA i' j' Hi Hj. simpl in *. unfold upd.
  destruct ((i' =? i) && (j' =? j)); [discriminate | now apply HA].
Qed.

Lemma wf_upd nr nc A i j v :
  wf_matrix nr nc A -> wf_matrix nr nc (mkMatrix (upd (data A) i j v) (rows A) (cols A)).
Proof. intros [Hs Hd]. split; [exact Hs | now apply defined_upd]. Qed.

Lemma wf_overwrite A f : wf_matrix (rows A) (cols A) (overwrite A f).
Proof.
  split; [now split|]. intros i j Hi Hj. simpl in *. cases.
Qed.

Lemma cell_upd_same (D : nat -> nat -> option T) i j v : upd D i j v i j = Some v.
Proof. unfold upd. now rewrite !Nat.eqb_refl. Qed.
End MatrixFacts.

(** Normal form of a store expression: loads pushed through the stores
    that do not concern them. *)
Ltac mem_norm :=
  repeat (progress (
    rewrite ?load_with_data_same, ?with_data_with_data,
            ?load_store_same, ?store_store_same;
    rewrite ?load_with_data_other, ?load_store_other by reflexivity));
  cbn [data rows cols].

(** Run the first statement of a sequence with the equation [lem]. *)
Ltac run_with lem :=
  erewrite bind_ok; [| apply lem ]; mem_norm.

(* ================================================================== *)
(** ** Core/Src/ekf/ekf_init.c *)
(* ================================================================== *)

Section InitFacts.
Context {T : Type} `{Scalar T}.
Implicit Types (m : mem T).
Local Open Scope c_scope.

Lemma wf_shape_x m : wf_filter m -> shape 16 1 (load ekf_x m) /\ defined (load ekf_x m).
Proof. intros Hw. apply Hw. Qed.

Lemma wf_shape_P m : wf_filter m -> shape 16 16 (load ekf_P m) /\ defined (load ekf_P m).
Proof. intros Hw. apply Hw. Qed.

(** The run of [ekf_reset]. *)
Lemma ekf_reset_run m :
  wf_filter m ->
  exists m',
    ekf_reset m = Ok true m' /\
    initialized m' = false /\
    shape 16 1 (load ekf_x m') /\
    (forall i, i < 16 ->
       data (load ekf_x m') i 0 = Some (if i =? EKF_STATE_QUAT_W then f_1 else f_0)) /\
    shape 16 16 (load ekf_P m') /\
    (forall i j, i < 16 -> j < 16 ->
       data (load ekf_P m') i j
       = Some (if i =? j then nth i documented_reset_diagonal f_0 else f_0)).
Proof.
  intros Hw.
  destruct (wf_shape_x m Hw) as [[Hxr Hxc] Hxd].
  destruct (wf_shape_P m Hw) as [[HPr HPc] HPd].
  eexists. split; [|split; [|split; [|split; [|split]]]].
  - unfold ekf_reset.
    erewrite bind_ok; [| apply matrix_zero_spec; lia].
    erewrite bind_ok.
    2:{ apply matrix_set_spec; mem_norm; unfold EKF_STATE_QUAT_W; lia. }
    mem_norm.
    erewrite bind_ok.
    2:{ apply matrix_diagonal_vector_spec with (size := EKF_STATE_DIM);
        mem_norm; try lia. reflexivity. }
    mem_norm. reflexivity.
  - reflexivity.
  - cbn [initialized set_initialized]. mem_norm. now split.
  - intros i Hi. unfold load. cbn [mats set_initialized store with_data ptr_eqb ptr_id Nat.eqb].
    cbn [data]. fold (load ekf_x m). unfold upd, EKF_STATE_QUAT_W.
    rewrite Hxr, Hxc. cases.
  - unfold load. cbn. fold (load ekf_P m). now split.
  - intros i j Hi Hj. unfold load.
    cbn [mats set_initialized store with_data ptr_eqb ptr_id Nat.eqb].
    cbn [data overwrite]. fold (load ekf_P m).
    rewrite HPr, HPc. unfold EKF_STATE_DIM.
    destruct (Nat.ltb_spec i 16); [|lia]. destruct (Nat.ltb_spec j 16); [|lia].
    cbn [andb]. f_equal.
    destruct (Nat.eqb_spec i j); [|reflexivity]. reflexivity.
Qed.

(** C8.  On a filter whose matrices have their shapes, [ekf_reset] returns
    true; afterwards [initialized] is false, every component of the state
    vector is 0 except q_w = 1, and P is the diagonal matrix with the
    documented reset diagonal and zeros elsewhere. *)
Theorem ekf_reset_spec m :
  wf_filter m ->
  exists m',
    ekf_reset m = Ok true m' /\
    initialized m' = false /\
    shape 16 1 (load ekf_x m') /\
    (forall i, i < 16 ->
       data (load ekf_x m') i 0 = Some (if i =? EKF_STATE_QUAT_W then f_1 else f_0)) /\
    shape 16 16 (load ekf_P m') /\
    (forall i j, i < 16 -> j < 16 ->
       data (load ekf_P m') i j
       = Some (if i =? j then nth i documented_reset_diagonal f_0 else f_0)).
Proof. exact (ekf_reset_run m). Qed.
End InitFacts.

Section AccessorFacts.
Context {T : Type} `{Scalar T} `{Libm T}.
Implicit Types (m : mem T).

(** C7, amended.  On a filter with [initialized = false] the five
    accessors that return a value return the neutral one (zero vector,
    identity quaternion) and leave the filter as it is; [ekf_get_euler]
    returns false and writes no angle. *)
Theorem accessors_uninitialized m :
  initialized m = false ->
  ekf_get_position m = Ok vector3f_zero m /\
  ekf_get_velocity m = Ok vector3f_zero m /\
  ekf_get_attitude m = Ok quaternion_identity m /\
  ekf_get_gyro_bias m = Ok vector3f_zero m /\
  ekf_get_accel_bias m = Ok vector3f_zero m /\
  ekf_get_euler m = Ok None m.
Proof.
  intros Hi.
  unfold ekf_get_position, ekf_get_velocity, ekf_get_attitude,
    ekf_get_gyro_bias, ekf_get_accel_bias, ekf_get_euler,
    bind, get_initialized, ret.
  rewrite Hi. cbn [negb]. repeat split.
Qed.
End AccessorFacts.

(** C7 as stated fails: on an uninitialized filter [ekf_get_euler] does
    report failure instead of returning zero angles. *)
Lemma get_euler_uninitialized_fails :
  ~ (forall (T : Type) (S_ : Scalar T) (L : Libm T) (m : mem T),
       initialized m = false ->
       exists m', ekf_get_euler m = Ok (Some (f_0, f_0, f_0)) m').
Proof.
  intros Hclaim.
  destruct (Hclaim R Exact.Scalar_R Exact.Libm_R blank eq_refl) as [m' E].
  discriminate E.
Qed.

Lemma accessors_uninitialized_witness :
  initialized (@blank R _) = false /\
  ekf_get_euler (@blank R _) = Ok None blank.
Proof.
  split; [reflexivity|].
  apply (@accessors_uninitialized R Exact.Scalar_R Exact.Libm_R blank eq_refl).
Defined.

Lemma ekf_reset_spec_witness :
  wf_filter Concrete.fresh_filter /\
  exists m', ekf_reset Concrete.fresh_filter = Ok true m' /\ initialized m' = false.
Proof.
  assert (Hw : wf_filter Concrete.fresh_filter).
  { apply wf_filterb_ok. vm_compute. reflexivity. }
  split; [exact Hw|].
  destruct (ekf_reset_spec _ Hw) as [m' [E [Hi _]]].
  exists m'. now split.
Defined.

(* ================================================================== *)
(** ** The two definitions of [vector3f_normalize] *)
(* ================================================================== *)

Lemma SFcompare_antisym (a b : spec_float) :
  SFcompare b a = option_map CompOpp (SFcompare a b).
Proof.
  destruct a as [sa|sa| |sa ma ea], b as [sb|sb| |sb mb eb]; simpl;
    try destruct sa; try destruct sb; simpl; try reflexivity.
  - rewrite (Z.compare_antisym ea eb).
    destruct (ea ?= eb)%Z; simpl; try reflexivity.
    now rewrite !Pos.compare_cont_antisym.
  - rewrite (Z.compare_antisym ea eb).
    destruct (ea ?= eb)%Z; simpl; try reflexivity.
    now rewrite !Pos.compare_cont_antisym.
Qed.

Lemma binary32_flt_asymmetric : @flt_asymmetric Binary32.binary32 _.
Proof.
  intros a b. simpl. unfold SFltb. rewrite (SFcompare_antisym a b).
  destruct (SFcompare a b) as [[| |]|]; simpl; congruence.
Qed.

Section NormalizeFacts.
Context {T : Type} `{Scalar T}.

(** C9, amended.  The two definitions agree on every vector whose
    magnitude exceeds 1e-6; on a vector whose magnitude is below 1e-6 the
    one of quaternion.c returns the zero vector and the one of vector3f.c
    returns the vector unchanged. *)
Theorem vector3f_normalize_agreement (v : Vector3f T) :
  flt_asymmetric ->
  ((vector3f_magnitude v >? f_1em6)%fl = true ->
     vector3f_normalize v = vector3f_c.vector3f_normalize v) /\
  ((vector3f_magnitude v <? f_1em6)%fl = true ->
     vector3f_normalize v = vector3f_zero /\
     vector3f_c.vector3f_normalize v = v).
Proof.
  intros Hasym.
  unfold vector3f_normalize, vector3f_c.vector3f_normalize.
  change (vector3f_c.vector3f_magnitude v) with (vector3f_magnitude v).
  split; intros Hm.
  - rewrite Hm, (Hasym _ _ Hm). reflexivity.
  - rewrite Hm, (Hasym _ _ Hm). split; reflexivity.
Qed.
End NormalizeFacts.

(** C9 as stated fails: on (2^-30, 0, 0) the two definitions differ. *)
Lemma vector3f_normalize_differ :
  vector3f_normalize Concrete.tiny_vector
  <> vector3f_c.vector3f_normalize Concrete.tiny_vector.
Proof. vm_compute. discriminate. Qed.

Lemma vector3f_normalize_agreement_witness :
  (vector3f_magnitude Concrete.tiny_vector <? f_1em6)%fl = true /\
  vector3f_normalize Concrete.tiny_vector = vector3f_zero /\
  vector3f_c.vector3f_normalize Concrete.tiny_vector = Concrete.tiny_vector.
Proof.
  assert (E : (vector3f_magnitude Concrete.tiny_vector <? f_1em6)%fl = true)
    by (vm_compute; reflexivity).
  split; [exact E|].
  apply (vector3f_normalize_agreement Concrete.tiny_vector binary32_flt_asymmetric).
  exact E.
Defined.

(* ================================================================== *)
(** ** [matrix_inverse]: the augmented matrix and the storage *)
(* ================================================================== *)

Section InverseBounds.
Context {T : Type} `{Scalar T}.
Implicit Types (m : mem T) (a r : ptr).
Local Open Scope c_scope.

(** The loop [augmented.data[i][i + n] = 1.0f] leaves the storage at row
    [16 - n] as soon as [n] exceeds 8. *)
Lemma identity_block_out_of_bounds n : forall cnt i0 m,
  i0 + n <= 16 -> 16 < i0 + cnt + n ->
  for_acc cnt i0 tt (fun i _ => wr inv_augmented i (i + n) f_1) m
  = Fault OutOfBounds.
Proof.
  induction cnt as [|cnt IH]; intros i0 m Hlo Hhi.
  - lia.
  - simpl. destruct (Nat.eq_dec (i0 + n) 16) as [E|E].
    + apply bind_fault. unfold wr, in_storage, MATRIX_MAX_SIZE.
      rewrite E. cbn. now rewrite andb_false_r.
    + erewrite bind_ok; [| apply wr_ok; apply in_storage_lt; lia].
      apply IH; lia.
Qed.

(** C10 fails for 9 <= n <= 16: [matrix_create(n, 2 * n)] clamps the
    augmented matrix to 16 columns, and the loop that writes the identity
    block stores to column [i + n >= 16].  Whatever the cells of the input,
    [matrix_inverse] then leaves the storage. *)
Theorem matrix_inverse_out_of_bounds a r m :
  let A := load a m in
  ptr_eqb a inv_augmented = false ->
  rows A = cols A -> 9 <= rows A -> rows A <= 16 -> defined A ->
  matrix_inverse a r m = Fault OutOfBounds.
Proof.
  intros A Ha Hsq Hlo Hhi Hd. unfold matrix_inverse.
  unfold bind at 1, rows_of. unfold bind at 1, cols_of. fold A.
  rewrite <- Hsq, Nat.eqb_refl. cbn [negb].
  unfold bind at 1, assign.
  set (m1 := store inv_augmented _ m).
  erewrite bind_ok.
  2:{ apply (@fill_spec _ inv_augmented false (rows A) (rows A))
        with (f := fun i j => cell A i j).
      intros i j D Hi Hj _.
      erewrite bind_ok.
      2:{ apply rd_defined; try lia. unfold m1.
          rewrite load_with_data_other, load_store_other by assumption.
          apply Hd; fold A; lia. }
      unfold m1. rewrite load_with_data_other, load_store_other by assumption.
      apply wr_with_data; cbn [target fst snd]; lia. }
  apply bind_fault. rewrite for_unfold, Nat.sub_0_r.
  apply identity_block_out_of_bounds; lia.
Qed.
End InverseBounds.

Lemma matrix_inverse_out_of_bounds_witness :
  matrix_inverse ext_a ext_b
    (store ext_a (@mat_identity Binary32.binary32 _ 9) blank)
  = Fault OutOfBounds.
Proof.
  apply matrix_inverse_out_of_bounds; rewrite ?load_store_same.
  - reflexivity.
  - reflexivity.
  - simpl. lia.
  - simpl. lia.
  - apply tabulate_defined.
Defined.

(* ================================================================== *)
(** ** Core/Src/ekf/ekf_predict.c: the propagation Jacobian *)
(* ================================================================== *)

(** Unfold the state indices of ekf.h. *)
Ltac state_indices :=
  cbv [EKF_STATE_DIM EKF_STATE_POS_X EKF_STATE_POS_Y EKF_STATE_POS_Z
       EKF_STATE_VEL_X EKF_STATE_VEL_Y EKF_STATE_VEL_Z
       EKF_STATE_QUAT_W EKF_STATE_QUAT_X EKF_STATE_QUAT_Y EKF_STATE_QUAT_Z
       EKF_STATE_GYRO_BIAS_X EKF_STATE_GYRO_BIAS_Y EKF_STATE_GYRO_BIAS_Z
       EKF_STATE_ACC_BIAS_X EKF_STATE_ACC_BIAS_Y EKF_STATE_ACC_BIAS_Z] in *.

(** Run a [matrix_set] whose indices lie in the logical shape. *)
Ltac run_set :=
  erewrite bind_ok;
  [| apply matrix_set_spec; mem_norm; cbn [rows cols mat_identity tabulate]; lia ];
  mem_norm.

Section JacobianFacts.
Context {T : Type} `{Scalar T}.
Implicit Types (m : mem T).
Local Open Scope c_scope.

Lemma wf_of_entries (A : Matrix T) (g : nat -> nat -> T) nr nc :
  shape nr nc A ->
  (forall i j, i < nr -> j < nc -> data A i j = Some (g i j)) ->
  wf_matrix nr nc A.
Proof.
  intros [Hr Hc] Hg. split; [now split|].
  intros i j Hi Hj. rewrite Hg by lia. discriminate.
Qed.

Lemma get_state_component m i :
  wf_matrix 16 1 (load ekf_x m) -> i < 16 ->
  out_param (matrix_get ekf_x i 0) m = Ok (state_component m i) m.
Proof.
  intros [[Hr Hc] Hd] Hi. apply matrix_get_spec; try lia.
  apply Hd; lia.
Qed.

(** The store [ekf_compute_jacobian] leaves: F under [pred_F], the
    identity under the local of [matrix_identity]. *)
Lemma ekf_compute_jacobian_run m dt :
  wf_matrix 16 1 (load ekf_x m) ->
  exists F_,
    ekf_compute_jacobian pred_F dt m
    = Ok true (store pred_F F_ (store id_m (mat_identity 16) m)) /\
    wf_matrix 16 16 F_ /\
    forall i j, i < 16 -> j < 16 ->
      data F_ i j
      = Some (jacobian_spec (normalize_by_division (state_quaternion m)) dt i j).
Proof.
  intros Hx. unfold ekf_compute_jacobian. state_indices.
  erewrite bind_ok; [| apply matrix_identity_spec; lia].
  unfold bind at 1, assign.
  do 3 run_set.
  do 10 (erewrite bind_ok;
         [| apply get_state_component; mem_norm; [exact Hx | lia]]).
  unfold state_component. mem_norm.
  set (x := load ekf_x m).
  set (qnorm := sqrtf _).
  assert (Eq : normalize_by_division (state_quaternion m)
               = if (qnorm <? f_1em6)%fl then mkQuaternion f_1 f_0 f_0 f_0
                 else mkQuaternion (cell x 6 0 / qnorm)%fl (cell x 7 0 / qnorm)%fl
                                   (cell x 8 0 / qnorm)%fl (cell x 9 0 / qnorm)%fl)
    by reflexivity.
  rewrite Eq. clear Eq.
  destruct (qnorm <? f_1em6)%fl.
  all: do 21 run_set.
  all: unfold ret, with_data; mem_norm.
  all: eexists; split; [reflexivity|].
  all: match goal with
       | |- _ /\ ?B =>
           assert (HB : B);
           [| split; [eapply wf_of_entries; [split; reflexivity | exact HB] | exact HB]]
       end.
  all: intros i j Hi Hj; cbn [data];
       do 16 (destruct i as [|i]; [ do 16 (destruct j as [|j]; [reflexivity|]); lia |]);
       lia.
Qed.

(** C5.  The Jacobian [ekf_compute_jacobian] stores is the 16 x 16
    identity plus exactly three blocks: dt I_3 (rows 0-2, columns 3-5), the
    attitude/gyro-bias block (rows 6-9, columns 10-12) and - R(q) dt
    (rows 3-5, columns 13-15), with q the normalized state quaternion. *)
Theorem jacobian_blocks m dt :
  wf_filter m ->
  exists m',
    ekf_compute_jacobian pred_F dt m = Ok true m' /\
    shape 16 16 (load pred_F m') /\
    forall i j, i < 16 -> j < 16 ->
      data (load pred_F m') i j
      = Some (jacobian_spec (normalize_by_division (state_quaternion m)) dt i j).
Proof.
  intros Hw. destruct (@ekf_compute_jacobian_run m dt) as [F_ [E [HwF HF]]].
  { apply Hw. }
  eexists. split; [exact E|]. rewrite load_store_same.
  split; [apply HwF | exact HF].
Qed.
End JacobianFacts.

Lemma jacobian_blocks_witness :
  wf_filter Concrete.fresh_filter /\
  exists m',
    ekf_compute_jacobian pred_F (f_lit 1 100) Concrete.fresh_filter = Ok true m' /\
    data (load pred_F m') 0 3 = Some (f_lit 1 100).
Proof.
  assert (Hw : wf_filter Concrete.fresh_filter).
  { apply wf_filterb_ok. vm_compute. reflexivity. }
  split; [exact Hw|].
  destruct (jacobian_blocks _ (f_lit 1 100) Hw) as [m' [E [_ HF]]].
  exists m'. split; [exact E|]. now rewrite HF by lia.
Defined.

(* ================================================================== *)
(** ** What a function leaves alone, and what it depends on *)
(* ================================================================== *)

Section Frames.
Context {T : Type} `{Scalar T}.
Implicit Types (m : mem T) (p q a b r : ptr) (I : mem T -> Prop).
Local Open Scope c_scope.

Lemma stable_ret {A} I (x : A) : stable I (ret x).
Proof. intros m Hm. exact Hm. Qed.

Lemma stable_throw {A} I f : stable I (@throw T A f).
Proof. intros m Hm. exact Logic.I. Qed.

Lemma stable_bind {A B} I (c : M T A) (k : A -> M T B) :
  stable I c -> (forall x, stable I (k x)) -> stable I (bind c k).
Proof.
  intros Hc Hk m Hm. unfold bind. specialize (Hc m Hm).
  destruct (c m) as [x m'|f]; [now apply Hk | exact Logic.I].
Qed.

Lemma stable_rows_of I p : stable I (rows_of p).
Proof. intros m Hm. exact Hm. Qed.

Lemma stable_cols_of I p : stable I (cols_of p).
Proof. intros m Hm. exact Hm. Qed.

Lemma stable_deref I p : stable I (deref p).
Proof. intros m Hm. exact Hm. Qed.

Lemma stable_rd I p i j : stable I (rd p i j).
Proof.
  intros m Hm. unfold rd.
  destruct (in_storage i j); [|exact Logic.I].
  destruct (data (load p m) i j); [exact Hm | exact Logic.I].
Qed.

Lemma stable_wr I p i j v : untouched_by I p -> stable I (wr p i j v).
Proof.
  intros Hp m Hm. unfold wr.
  destruct (in_storage i j); [now apply Hp | exact Logic.I].
Qed.

Lemma stable_assign I p A : untouched_by I p -> stable I (assign p A).
Proof. intros Hp m Hm. now apply Hp. Qed.

Lemma stable_for_acc {A} I (body : nat -> A -> M T A) :
  (forall i acc, stable I (body i acc)) ->
  forall n i acc, stable I (for_acc n i acc body).
Proof.
  intros Hb. induction n as [|n IH]; intros i acc; simpl.
  - apply stable_ret.
  - apply stable_bind; [apply Hb | intros; apply IH].
Qed.

Lemma stable_for I lo hi (body : nat -> M T unit) :
  (forall i, stable I (body i)) -> stable I (for_ lo hi body).
Proof. intros Hb. apply stable_for_acc. intros i _. apply Hb. Qed.

Lemma stable_for_ret {R_} I (body : nat -> M T (option R_)) :
  (forall i, stable I (body i)) -> forall n i, stable I (for_ret n i body).
Proof.
  intros Hb. induction n as [|n IH]; intros i; simpl.
  - apply stable_ret.
  - apply stable_bind; [apply Hb |].
    intros [v|]; [apply stable_ret | apply IH].
Qed.

Lemma stable_out_param I (c : M T (option T)) : stable I c -> stable I (out_param c).
Proof.
  intros Hc. apply stable_bind; [exact Hc|].
  intros [v|]; [apply stable_ret | apply stable_throw].
Qed.
End Frames.

(** Decompose a goal [stable I c] along the structure of [c]. *)
Ltac stable_step :=
  match goal with
  | |- stable _ (bind _ _) => apply stable_bind; [| intros ]
  | |- stable _ (ret _) => apply stable_ret
  | |- stable _ (throw _) => apply stable_throw
  | |- stable _ (rows_of _) => apply stable_rows_of
  | |- stable _ (cols_of _) => apply stable_cols_of
  | |- stable _ (deref _) => apply stable_deref
  | |- stable _ (rd _ _ _) => apply stable_rd
  | |- stable _ (wr _ _ _ _) => apply stable_wr; try assumption
  | |- stable _ (assign _ _) => apply stable_assign; try assumption
  | |- stable _ (for_ _ _ _) => apply stable_for; intros
  | |- stable _ (for_acc _ _ _ _) => apply stable_for_acc; intros
  | |- stable _ (for_ret _ _ _) => apply stable_for_ret; intros
  | |- stable _ (out_param _) => apply stable_out_param
  | |- stable _ (if ?c then _ else _) => destruct c
  | |- stable _ (match ?x with Some _ => _ | None => _ end) => destruct x
  | |- stable _ (match ?x with (_, _) => _ end) => destruct x
  end.

Ltac stable_auto := repeat stable_step.

Section FramesOfMatrix.
Context {T : Type} `{Scalar T}.
Implicit Types (m : mem T) (p q a b r : ptr) (I : mem T -> Prop).
Local Open Scope c_scope.

Lemma stable_matrix_set I p row col v : untouched_by I p -> stable I (matrix_set p row col v).
Proof. intros Hp. unfold matrix_set. stable_auto. Qed.

Lemma stable_matrix_get I p row col : stable I (matrix_get p row col).
Proof. unfold matrix_get. stable_auto. Qed.

Lemma stable_matrix_add I a b r : untouched_by I r -> stable I (matrix_add a b r).
Proof. intros Hr. unfold matrix_add. stable_auto. Qed.

Lemma stable_matrix_subtract I a b r : untouched_by I r -> stable I (matrix_subtract a b r).
Proof. intros Hr. unfold matrix_subtract. stable_auto. Qed.

Lemma stable_matrix_multiply I a b r : untouched_by I r -> stable I (matrix_multiply a b r).
Proof. intros Hr. unfold matrix_multiply. stable_auto. Qed.

Lemma stable_matrix_scale I a s r : untouched_by I r -> stable I (matrix_scale a s r).
Proof. intros Hr. unfold matrix_scale. stable_auto. Qed.

Lemma stable_matrix_transpose I a r : untouched_by I r -> stable I (matrix_transpose a r).
Proof. intros Hr. unfold matrix_transpose. stable_auto. Qed.

Lemma stable_matrix_zero I p : untouched_by I p -> stable I (matrix_zero p).
Proof. intros Hp. unfold matrix_zero. stable_auto. Qed.

Lemma stable_matrix_identity I n : untouched_by I id_m -> stable I (matrix_identity n).
Proof. intros Hp. unfold matrix_identity. stable_auto. Qed.

Lemma stable_matrix_inverse I a r :
  untouched_by I inv_augmented -> untouched_by I r -> stable I (matrix_inverse a r).
Proof. intros Ha Hr. unfold matrix_inverse. stable_auto. Qed.

(** A store of a matrix outside [ps] is seen by [same_outside]. *)
Lemma untouched_same_outside ps m0 p :
  only ps p = true -> untouched_by (same_outside ps m0) p.
Proof.
  intros Hp m A [Hl Hs]. split; [| exact Hs].
  intros q Hq. rewrite load_store_other; [now apply Hl|].
  destruct (ptr_eqb q p) eqn:E; [|reflexivity].
  apply ptr_eqb_eq in E. subst. congruence.
Qed.

Lemma same_outside_refl ps m : same_outside ps m m.
Proof. repeat split. Qed.

(** [matrix_inverse] writes its local and its result and nothing else. *)
Lemma matrix_inverse_frame a r m (ok : bool) m' :
  matrix_inverse a r m = Ok ok m' -> same_outside [inv_augmented; r] m m'.
Proof.
  intros E.
  pose proof (@stable_matrix_inverse (same_outside [inv_augmented; r] m) a r) as Hs.
  specialize (Hs ltac:(apply untouched_same_outside; reflexivity)).
  assert (Hr : untouched_by (same_outside [inv_augmented; r] m) r).
  { apply untouched_same_outside. simpl. now rewrite ptr_eqb_refl, orb_true_r. }
  specialize (Hs Hr m (same_outside_refl _ m)). now rewrite E in Hs.
Qed.
End FramesOfMatrix.

Section Locality.
Context {T : Type} `{Scalar T}.
Implicit Types (m : mem T) (p q a b r : ptr) (ps : ptr -> bool).
Local Open Scope c_scope.

Lemma agree_store_in ps p (A : Matrix T) m1 m2 :
  agree ps m1 m2 -> agree ps (store p A m1) (store p A m2).
Proof.
  intros Ha q Hq. unfold load, store. simpl.
  destruct (ptr_eqb q p); [reflexivity | now apply Ha].
Qed.

Lemma agree_store_also ps p (A : Matrix T) m1 m2 :
  agree ps m1 m2 -> agree (also p ps) (store p A m1) (store p A m2).
Proof.
  intros Ha q Hq. unfold load, store. simpl. unfold also in Hq.
  destruct (ptr_eqb q p); [reflexivity | now apply Ha].
Qed.

Lemma ro_ret {A} ps (x : A) : reads_only ps ps (@ret T A x).
Proof. intros m1 m2 Ha. simpl. now split. Qed.

Lemma ro_throw {A} ps ps' f : reads_only ps ps' (@throw T A f).
Proof. intros m1 m2 Ha. reflexivity. Qed.

Lemma ro_bind {A B} ps ps' ps'' (c : M T A) (k : A -> M T B) :
  reads_only ps ps' c -> (forall x, reads_only ps' ps'' (k x)) ->
  reads_only ps ps'' (bind c k).
Proof.
  intros Hc Hk m1 m2 Ha. unfold bind. specialize (Hc m1 m2 Ha).
  destruct (c m1) as [x1 m1'|f1], (c m2) as [x2 m2'|f2]; try contradiction.
  - destruct Hc as [-> Ha']. now apply Hk.
  - exact Hc.
Qed.

Lemma ro_weaken {A} ps ps' ps'' (c : M T A) :
  reads_only ps ps' c -> (forall p, ps'' p = true -> ps' p = true) ->
  reads_only ps ps'' c.
Proof.
  intros Hc Hsub m1 m2 Ha. specialize (Hc m1 m2 Ha).
  destruct (c m1), (c m2); try assumption.
  destruct Hc as [-> Ha']. split; [reflexivity|].
  intros p Hp. apply Ha'. now apply Hsub.
Qed.

Lemma ro_rows_of ps p : ps p = true -> reads_only ps ps (@rows_of T p).
Proof. intros Hp m1 m2 Ha. unfold rows_of. now rewrite (Ha p Hp). Qed.

Lemma ro_cols_of ps p : ps p = true -> reads_only ps ps (@cols_of T p).
Proof. intros Hp m1 m2 Ha. unfold cols_of. now rewrite (Ha p Hp). Qed.

Lemma ro_rd ps p i j : ps p = true -> reads_only ps ps (@rd T p i j).
Proof.
  intros Hp m1 m2 Ha. unfold rd. rewrite (Ha p Hp).
  destruct (in_storage i j); [|reflexivity].
  destruct (data (load p m2) i j); [now split | reflexivity].
Qed.

Lemma ro_wr ps p i j (v : T) : ps p = true -> reads_only ps ps (wr p i j v).
Proof.
  intros Hp m1 m2 Ha. unfold wr. rewrite (Ha p Hp).
  destruct (in_storage i j); [|reflexivity].
  split; [reflexivity | now apply agree_store_in].
Qed.

Lemma ro_assign ps p (A : Matrix T) : reads_only ps (also p ps) (assign p A).
Proof.
  intros m1 m2 Ha. unfold assign.
  split; [reflexivity | now apply agree_store_also].
Qed.

Lemma ro_for_acc {A} ps (body : nat -> A -> M T A) :
  (forall i acc, reads_only ps ps (body i acc)) ->
  forall n i acc, reads_only ps ps (for_acc n i acc body).
Proof.
  intros Hb. induction n as [|n IH]; intros i acc; simpl.
  - apply ro_ret.
  - eapply ro_bind; [apply Hb | intros; apply IH].
Qed.

Lemma ro_for ps lo hi (body : nat -> M T unit) :
  (forall i, reads_only ps ps (body i)) -> reads_only ps ps (for_ lo hi body).
Proof. intros Hb. apply ro_for_acc. intros i _. apply Hb. Qed.

Lemma ro_for_ret {R_} ps (body : nat -> M T (option R_)) :
  (forall i, reads_only ps ps (body i)) -> forall n i, reads_only ps ps (for_ret n i body).
Proof.
  intros Hb. induction n as [|n IH]; intros i; simpl.
  - apply ro_ret.
  - eapply ro_bind; [apply Hb |].
    intros [v|]; [apply ro_ret | apply IH].
Qed.
End Locality.

(** Decompose a goal [reads_only ps ps c] whose pointers are in [ps]. *)
Ltac ro_step :=
  match goal with
  | |- reads_only _ _ (bind _ _) => eapply ro_bind; [| intros ]
  | |- reads_only _ _ (ret _) => apply ro_ret
  | |- reads_only _ _ (rows_of _) => apply ro_rows_of; reflexivity
  | |- reads_only _ _ (cols_of _) => apply ro_cols_of; reflexivity
  | |- reads_only _ _ (rd _ _ _) => apply ro_rd; reflexivity
  | |- reads_only _ _ (wr _ _ _ _) => apply ro_wr; reflexivity
  | |- reads_only _ _ (for_ _ _ _) => apply ro_for; intros
  | |- reads_only _ _ (for_acc _ _ _ _) => apply ro_for_acc; intros
  | |- reads_only _ _ (for_ret _ _ _) => apply ro_for_ret; intros
  | |- reads_only _ _ (if ?c then _ else _) => destruct c
  | |- reads_only _ _ (match ?x with (_, _) => _ end) => destruct x
  end.

Section LocalityOfInverse.
Context {T : Type} `{Scalar T}.
Implicit Types (m : mem T).
Local Open Scope c_scope.

(** The outcome of [matrix_inverse(&S, &S_inv)] depends on the store
    through the matrix S only. *)
Lemma matrix_inverse_reads_only :
  reads_only (only [kg_S]) (only [kg_S])
             (@matrix_inverse T _ kg_S kg_S_inv).
Proof.
  set (ps1 := also inv_augmented (only [kg_S])).
  set (ps2 := also kg_S_inv ps1).
  assert (Hsub1 : forall p, only [kg_S] p = true -> ps1 p = true).
  { intros p Hp. unfold ps1, also. rewrite Hp. apply orb_true_r. }
  assert (Hsub2 : forall p, only [kg_S] p = true -> ps2 p = true).
  { intros p Hp. unfold ps2, also. rewrite Hsub1 by assumption. apply orb_true_r. }
  unfold matrix_inverse.
  eapply ro_bind; [apply ro_rows_of; reflexivity | intros n].
  eapply ro_bind; [apply ro_cols_of; reflexivity | intros nc].
  destruct (negb (n =? nc)); [apply ro_ret|].
  eapply ro_bind with (ps' := ps1); [apply ro_assign | intros _].
  eapply ro_bind with (ps' := ps1); [repeat ro_step | intros _].
  eapply ro_bind with (ps' := ps1); [repeat ro_step | intros _].
  eapply ro_bind with (ps' := ps1); [repeat ro_step | intros [ok|]].
  - eapply ro_weaken; [apply ro_ret | exact Hsub1].
  - eapply ro_bind with (ps' := ps2); [apply ro_assign | intros _].
    eapply ro_bind with (ps' := ps2); [repeat ro_step | intros _].
    eapply ro_weaken; [apply ro_ret | exact Hsub2].
Qed.

(** If some run of [matrix_inverse] on S returns false, every run on S
    does, and it leaves the filter as it found it. *)
Lemma inverse_fails_everywhere m :
  inverse_fails_on (load kg_S m) ->
  exists m', matrix_inverse kg_S kg_S_inv m = Ok false m' /\
             same_outside [inv_augmented; kg_S_inv] m m'.
Proof.
  intros [m0 [m0' [ES E0]]].
  assert (Ha : agree (only [kg_S]) m0 m).
  { intros p Hp. simpl in Hp. rewrite orb_false_r in Hp.
    apply ptr_eqb_eq in Hp. now subst. }
  pose proof (matrix_inverse_reads_only _ _ Ha) as Hro.
  rewrite E0 in Hro.
  destruct (matrix_inverse kg_S kg_S_inv m) as [ok m'|f] eqn:E; [|contradiction].
  destruct Hro as [<- _]. exists m'. split; [reflexivity|].
  now apply matrix_inverse_frame with (a := kg_S) (ok := false).
Qed.
End LocalityOfInverse.

(* ================================================================== *)
(** ** Core/Src/ekf/ekf_update.c: a failed inversion *)
(* ================================================================== *)

Section UpdateFailure.
Context {T : Type} `{Scalar T}.
Implicit Types (m : mem T).
Local Open Scope c_scope.

Lemma defined_upd_raw (D : nat -> nat -> option T) nr nc i j v :
  defined (mkMatrix D nr nc) -> defined (mkMatrix (upd D i j v) nr nc).
Proof.
  intros HA i' j' Hi Hj. simpl in *. unfold upd.
  destruct ((i' =? i) && (j' =? j)); [discriminate | now apply HA].
Qed.

Lemma defined_eta (A : Matrix T) nr nc :
  rows A = nr -> cols A = nc -> defined A -> defined (mkMatrix (data A) nr nc).
Proof. intros <- <- HA. exact HA. Qed.

Lemma defined_zeroed (D : nat -> nat -> option T) nr nc :
  defined (mkMatrix (fun i j => if (i <? nr) && (j <? nc) then Some f_0 else D i j) nr nc).
Proof. intros i j Hi Hj. simpl in *. cases. Qed.

(** [ekf_compute_kalman_gain] when the inversion of S fails: it returns
    false having written its own locals only. *)
Lemma kalman_gain_fails m R_ k :
  In R_ [ekf_R_gps; ekf_R_baro; ekf_R_mag] ->
  k <= 16 ->
  wf_matrix k 16 (load upd_H m) ->
  wf_matrix 16 16 (load ekf_P m) ->
  wf_matrix k k (load R_ m) ->
  inverse_fails_on
    (innovation_covariance (load upd_H m) (load ekf_P m) (load R_ m)) ->
  exists m',
    ekf_compute_kalman_gain upd_H R_ upd_K m = Ok false m' /\
    same_outside [kg_H_transpose; kg_temp1; kg_temp2; kg_S; inv_augmented; kg_S_inv] m m'.
Proof.
  intros HR Hk [[HHr HHc] HHd] [[HPr HPc] HPd] [[HRr HRc] HRd] Hfail.
  unfold ekf_compute_kalman_gain.
  destruct HR as [<- | [<- | [<- | []]]].
  all: erewrite bind_ok; [| apply matrix_transpose_spec; first [reflexivity | lia | assumption]].
  all: erewrite bind_ok;
       [| apply matrix_multiply_spec; mem_norm;
          first [reflexivity | lia | assumption]].
  all: erewrite bind_ok;
       [| apply matrix_multiply_spec; mem_norm;
          cbn [rows cols mat_mul mat_transpose tabulate];
          first [reflexivity | lia | assumption | apply tabulate_defined]].
  all: erewrite bind_ok;
       [| apply matrix_add_spec; mem_norm;
          cbn [rows cols mat_mul mat_transpose tabulate];
          first [reflexivity | lia | assumption | apply tabulate_defined]].
  all: mem_norm.
  all: match goal with
       | |- exists m', bind _ _ ?mS = _ /\ _ =>
           destruct (@inverse_fails_everywhere T _ mS) as [m' [E Hframe]];
           [ rewrite load_store_same; exact Hfail |]
       end.
  all: exists m'; split; [erewrite bind_ok by exact E; reflexivity|].
  all: destruct Hframe as [Hl Hs]; split;
       [ intros p Hp; rewrite Hl;
         [ simpl in Hp; repeat (apply orb_false_elim in Hp; destruct Hp as [? Hp]);
           rewrite !load_store_other by assumption; reflexivity
         | simpl in *; repeat (apply orb_false_elim in Hp; destruct Hp as [? Hp]);
           repeat (apply orb_false_intro; try assumption) ]
       | exact Hs ].
Qed.
End UpdateFailure.

Section UpdateFacts.
Context {T : Type} `{Scalar T}.
Implicit Types (m : mem T).
Local Open Scope c_scope.

Lemma ekf_get_position_run m :
  wf_matrix 16 1 (load ekf_x m) -> initialized m = true ->
  ekf_get_position m
  = Ok (mkVector3f (state_component m 0) (state_component m 1) (state_component m 2)) m.
Proof.
  intros Hx Hi. unfold ekf_get_position. state_indices.
  unfold bind at 1, get_initialized. rewrite Hi. cbn [negb].
  do 3 (erewrite bind_ok; [| apply get_state_component; [exact Hx | lia]]).
  reflexivity.
Qed.

Lemma ekf_get_velocity_run m :
  wf_matrix 16 1 (load ekf_x m) -> initialized m = true ->
  ekf_get_velocity m
  = Ok (mkVector3f (state_component m 3) (state_component m 4) (state_component m 5)) m.
Proof.
  intros Hx Hi. unfold ekf_get_velocity. state_indices.
  unfold bind at 1, get_initialized. rewrite Hi. cbn [negb].
  do 3 (erewrite bind_ok; [| apply get_state_component; [exact Hx | lia]]).
  reflexivity.
Qed.

Lemma ekf_get_attitude_run m :
  wf_matrix 16 1 (load ekf_x m) -> initialized m = true ->
  ekf_get_attitude m = Ok (quaternion_normalize (state_quaternion m)) m.
Proof.
  intros Hx Hi. unfold ekf_get_attitude. state_indices.
  unfold bind at 1, get_initialized. rewrite Hi. cbn [negb].
  do 4 (erewrite bind_ok; [| apply get_state_component; [exact Hx | lia]]).
  reflexivity.
Qed.

Lemma ekf_compute_gps_jacobian_run m :
  exists H_, ekf_compute_gps_jacobian upd_H m = Ok true (store upd_H H_ m) /\
             wf_matrix 6 16 H_.
Proof.
  unfold ekf_compute_gps_jacobian. state_indices.
  rewrite matrix_create_le by lia.
  unfold bind at 1, assign.
  erewrite bind_ok; [| apply matrix_zero_spec; mem_norm; cbn [rows cols tabulate]; lia].
  mem_norm. cbn [rows cols tabulate].
  do 6 run_set.
  unfold ret, with_data. mem_norm. cbn [rows cols tabulate].
  eexists. split; [reflexivity|].
  split; [now split|]. repeat apply defined_upd_raw. apply defined_zeroed.
Qed.

Lemma ekf_compute_baro_jacobian_run m :
  exists H_, ekf_compute_baro_jacobian upd_H m = Ok true (store upd_H H_ m) /\
             wf_matrix 1 16 H_.
Proof.
  unfold ekf_compute_baro_jacobian. state_indices.
  rewrite matrix_create_le by lia.
  unfold bind at 1, assign.
  erewrite bind_ok; [| apply matrix_zero_spec; mem_norm; cbn [rows cols tabulate]; lia].
  mem_norm. cbn [rows cols tabulate].
  run_set.
  unfold ret, with_data. mem_norm. cbn [rows cols tabulate].
  eexists. split; [reflexivity|].
  split; [now split|]. repeat apply defined_upd_raw. apply defined_zeroed.
Qed.

Lemma ekf_compute_mag_jacobian_run m :
  wf_matrix 16 1 (load ekf_x m) ->
  exists H_, ekf_compute_mag_jacobian upd_H m = Ok true (store upd_H H_ m) /\
             wf_matrix 3 16 H_.
Proof.
  intros Hx.
  unfold ekf_compute_mag_jacobian. state_indices.
  rewrite matrix_create_le by lia.
  unfold bind at 1, assign.
  erewrite bind_ok; [| apply matrix_zero_spec; mem_norm; cbn [rows cols tabulate]; lia].
  mem_norm. cbn [rows cols tabulate].
  do 4 (erewrite bind_ok;
        [| apply get_state_component; mem_norm; [exact Hx | lia]]).
  unfold bind at 1, get_earth_mag_ned.
  do 12 run_set.
  unfold ret, with_data. mem_norm. cbn [rows cols tabulate].
  eexists. split; [reflexivity|].
  split; [now split|]. repeat apply defined_upd_raw. apply defined_zeroed.
Qed.
End UpdateFacts.

(** Definedness of a matrix built by [matrix_create] and [matrix_set]s. *)
Ltac defined_by_sets :=
  repeat apply defined_upd_raw;
  first [ apply tabulate_defined | apply defined_zeroed | assumption
        | apply defined_eta; assumption ].

(** Run the call of [ekf_compute_kalman_gain] whose inversion fails, and
    conclude that the state and the covariance are those of [m]. *)
Ltac finish_failed_update R_ k HwH Hw Hfail :=
  match goal with
  | |- exists m', bind (ekf_compute_kalman_gain _ _ _) _ ?mk = _ /\ _ =>
      let m' := fresh "m'" in
      let E := fresh "E" in
      let Hframe := fresh "Hframe" in
      destruct (@kalman_gain_fails _ _ mk R_ k) as [m' [E Hframe]];
      [ simpl; tauto
      | lia
      | mem_norm; exact HwH
      | mem_norm; apply Hw
      | mem_norm; apply Hw
      | mem_norm; exact Hfail
      | erewrite bind_ok by exact E; cbn [negb];
        exists m'; split; [reflexivity|];
        destruct Hframe as [Hl _];
        rewrite !Hl by reflexivity; mem_norm; split; reflexivity ]
  end.

Section FailStop.
Context {T : Type} `{Scalar T}.
Implicit Types (m : mem T).
Local Open Scope c_scope.

Lemma ekf_update_gps_fail_stop m pos vel mH :
  wf_filter m -> initialized m = true ->
  ekf_compute_gps_jacobian upd_H m = Ok true mH ->
  inverse_fails_on
    (innovation_covariance (load upd_H mH) (load ekf_P m) (load ekf_R_gps m)) ->
  exists m', ekf_update_gps pos vel m = Ok false m' /\
             load ekf_x m' = load ekf_x m /\ load ekf_P m' = load ekf_P m.
Proof.
  intros Hw Hi EH Hfail.
  destruct (ekf_compute_gps_jacobian_run m) as [H_ [EH' HwH]].
  rewrite EH' in EH. injection EH as <-. rewrite load_store_same in Hfail.
  unfold ekf_update_gps.
  unfold bind at 1, get_initialized. rewrite Hi. cbn [negb].
  erewrite bind_ok by exact EH'.
  erewrite bind_ok; [| apply ekf_get_position_run; mem_norm; [apply Hw | exact Hi]].
  erewrite bind_ok; [| apply ekf_get_velocity_run; mem_norm; [apply Hw | exact Hi]].
  rewrite !matrix_create_le by lia.
  unfold bind at 1, assign. unfold bind at 1.
  do 12 run_set.
  erewrite bind_ok;
    [| apply matrix_subtract_spec; mem_norm; cbn [rows cols tabulate];
       first [reflexivity | lia | defined_by_sets]].
  finish_failed_update ekf_R_gps 6 HwH Hw Hfail.
Qed.

Lemma ekf_update_baro_fail_stop m altitude mH :
  wf_filter m -> initialized m = true ->
  ekf_compute_baro_jacobian upd_H m = Ok true mH ->
  inverse_fails_on
    (innovation_covariance (load upd_H mH) (load ekf_P m) (load ekf_R_baro m)) ->
  exists m', ekf_update_baro altitude m = Ok false m' /\
             load ekf_x m' = load ekf_x m /\ load ekf_P m' = load ekf_P m.
Proof.
  intros Hw Hi EH Hfail.
  destruct (ekf_compute_baro_jacobian_run m) as [H_ [EH' HwH]].
  rewrite EH' in EH. injection EH as <-. rewrite load_store_same in Hfail.
  unfold ekf_update_baro.
  unfold bind at 1, get_initialized. rewrite Hi. cbn [negb].
  erewrite bind_ok by exact EH'.
  erewrite bind_ok; [| apply ekf_get_position_run; mem_norm; [apply Hw | exact Hi]].
  rewrite !matrix_create_le by lia.
  unfold bind at 1, assign. unfold bind at 1.
  do 2 run_set.
  erewrite bind_ok;
    [| apply matrix_subtract_spec; mem_norm; cbn [rows cols tabulate];
       first [reflexivity | lia | defined_by_sets]].
  finish_failed_update ekf_R_baro 1 HwH Hw Hfail.
Qed.

Lemma ekf_update_mag_fail_stop m mag mH :
  wf_filter m -> initialized m = true ->
  ekf_compute_mag_jacobian upd_H m = Ok true mH ->
  inverse_fails_on
    (innovation_covariance (load upd_H mH) (load ekf_P m) (load ekf_R_mag m)) ->
  exists m', ekf_update_mag mag m = Ok false m' /\
             load ekf_x m' = load ekf_x m /\ load ekf_P m' = load ekf_P m.
Proof.
  intros Hw Hi EH Hfail.
  destruct (@ekf_compute_mag_jacobian_run _ _ m) as [H_ [EH' HwH]]; [apply Hw|].
  rewrite EH' in EH. injection EH as <-. rewrite load_store_same in Hfail.
  unfold ekf_update_mag.
  unfold bind at 1, get_initialized. rewrite Hi. cbn [negb].
  erewrite bind_ok by exact EH'.
  erewrite bind_ok; [| apply ekf_get_attitude_run; mem_norm; [apply Hw | exact Hi]].
  unfold bind at 1, get_earth_mag_ned.
  rewrite !matrix_create_le by lia.
  unfold bind at 1, assign. unfold bind at 1.
  do 6 run_set.
  erewrite bind_ok;
    [| apply matrix_subtract_spec; mem_norm; cbn [rows cols tabulate];
       first [reflexivity | lia | defined_by_sets]].
  finish_failed_update ekf_R_mag 3 HwH Hw Hfail.
Qed.

(** C1.  On an initialized filter, when the inversion of the innovation
    covariance S = H P H^T + R fails ([matrix_inverse] of S returns false),
    [ekf_update_gps], [ekf_update_baro] and [ekf_update_mag] return false,
    and the state vector x and the covariance P are the matrices they were
    before the call.  H is the measurement Jacobian the update computes. *)
Theorem update_fail_stop m :
  wf_filter m -> initialized m = true ->
  (forall pos vel mH,
     ekf_compute_gps_jacobian upd_H m = Ok true mH ->
     inverse_fails_on
       (innovation_covariance (load upd_H mH) (load ekf_P m) (load ekf_R_gps m)) ->
     exists m', ekf_update_gps pos vel m = Ok false m' /\
                load ekf_x m' = load ekf_x m /\ load ekf_P m' = load ekf_P m) /\
  (forall altitude mH,
     ekf_compute_baro_jacobian upd_H m = Ok true mH ->
     inverse_fails_on
       (innovation_covariance (load upd_H mH) (load ekf_P m) (load ekf_R_baro m)) ->
     exists m', ekf_update_baro altitude m = Ok false m' /\
                load ekf_x m' = load ekf_x m /\ load ekf_P m' = load ekf_P m) /\
  (forall mag mH,
     ekf_compute_mag_jacobian upd_H m = Ok true mH ->
     inverse_fails_on
       (innovation_covariance (load upd_H mH) (load ekf_P m) (load ekf_R_mag m)) ->
     exists m', ekf_update_mag mag m = Ok false m' /\
                load ekf_x m' = load ekf_x m /\ load ekf_P m' = load ekf_P m).
Proof.
  intros Hw Hi. split; [|split].
  - intros pos vel mH. now apply ekf_update_gps_fail_stop.
  - intros altitude mH. now apply ekf_update_baro_fail_stop.
  - intros mag mH. now apply ekf_update_mag_fail_stop.
Qed.
End FailStop.

Section Runs.
Context {T : Type} `{Scalar T}.
Implicit Types (m : mem T).

Lemma returns_true (c : M T bool) m :
  returns c m (fun b => b) = true -> c m = Ok true (final c m).
Proof.
  unfold returns, final. destruct (c m) as [[|] m'|f]; congruence.
Qed.

Lemma returns_false (c : M T bool) m :
  returns c m negb = true -> c m = Ok false (final c m).
Proof.
  unfold returns, final. destruct (c m) as [[|] m'|f]; simpl; congruence.
Qed.
End Runs.

Lemma update_fail_stop_witness :
  wf_filter Concrete.locked_filter /\
  initialized Concrete.locked_filter = true /\
  exists m',
    ekf_update_gps (Concrete.vec 100 50 (-20)) (Concrete.vec 0 0 0) Concrete.locked_filter
    = Ok false m' /\
    load ekf_x m' = load ekf_x Concrete.locked_filter /\
    load ekf_P m' = load ekf_P Concrete.locked_filter.
Proof.
  assert (Hw : wf_filter Concrete.locked_filter).
  { apply wf_filterb_ok. vm_compute. reflexivity. }
  assert (Hi : initialized Concrete.locked_filter = true).
  { vm_compute. reflexivity. }
  split; [exact Hw|]. split; [exact Hi|].
  apply (proj1 (update_fail_stop _ Hw Hi)) with (mH := Concrete.locked_H).
  - unfold Concrete.locked_H.
    apply (returns_true (ekf_compute_gps_jacobian upd_H) Concrete.locked_filter).
    vm_compute. reflexivity.
  - eexists (store kg_S _ blank). eexists. split; [apply load_store_same|].
    apply returns_false. vm_compute. reflexivity.
Defined.

(* ================================================================== *)
(** ** Core/Src/ekf/ekf_predict.c: the prediction step *)
(* ================================================================== *)

Section PredictFacts.
Context {T : Type} `{Scalar T}.
Implicit Types (m : mem T).
Local Open Scope c_scope.

(** What a call of [ekf_predict] with dt > 0 on an initialized filter
    leaves in the store. *)
Lemma quaternion_eta (q : Quaternion T) :
  q = mkQuaternion (qw q) (qx q) (qy q) (qz q).
Proof. now destruct q. Qed.

Lemma ekf_predict_run m gyro accel dt :
  wf_filter m -> initialized m = true -> (dt <=? f_0)%fl = false ->
  exists m',
    ekf_predict gyro accel dt m = Ok true m' /\
    load ekf_P m'
      = propagated_covariance (load pred_F m') (load ekf_P m) (load ekf_Q m) dt /\
    (wf_matrix 16 16 (load pred_F m') /\
     forall i j, i < 16 -> j < 16 ->
       data (load pred_F m') i j
       = Some (jacobian_spec (normalize_by_division (state_quaternion m')) dt i j)) /\
    state_quaternion m' = attitude_after m gyro dt /\
    velocity m' = integrate_velocity m (ned_acceleration (attitude_after m gyro dt) m accel) dt /\
    position m' = integrate_position m (velocity m') dt /\
    gyro_bias m' = gyro_bias m /\ accel_bias m' = accel_bias m /\
    wf_matrix 16 1 (load ekf_x m') /\
    load ekf_Q m' = load ekf_Q m.
Proof.
  intros Hw Hi Hdt.
  assert (Hx : wf_matrix 16 1 (load ekf_x m)) by apply Hw.
  destruct Hx as [[Hxr Hxc] Hxd].
  destruct Hw as [_ [[[HPr HPc] HPd] [[[HQr HQc] HQd] _]]].
  unfold ekf_predict. rewrite Hdt.
  unfold bind at 1, get_initialized. rewrite Hi. cbn [negb].
  state_indices.
  do 16 (erewrite bind_ok;
         [| apply get_state_component; [split; [now split | exact Hxd] | lia]]).
  cbv zeta.
  unfold bind at 1, get_gravity.
  do 10 run_set.
  match goal with
  | |- exists m', bind (ekf_compute_jacobian _ _) _ ?mk = _ /\ _ =>
      destruct (ekf_compute_jacobian_run mk dt) as [F_ [EF [[[HFr HFc] HFd] HF]]]
  end.
  { mem_norm. split; [now split|]. rewrite Hxr, Hxc. defined_by_sets. }
  erewrite bind_ok by exact EF.
  erewrite bind_ok;
    [| apply matrix_transpose_spec; mem_norm; first [reflexivity | lia | assumption]].
  erewrite bind_ok;
    [| apply matrix_multiply_spec; mem_norm; first [reflexivity | lia | assumption]].
  erewrite bind_ok;
    [| apply matrix_multiply_spec; mem_norm;
       cbn [rows cols mat_mul mat_transpose tabulate];
       first [reflexivity | lia | assumption | apply tabulate_defined]].
  erewrite bind_ok;
    [| apply matrix_scale_spec; mem_norm; first [reflexivity | lia | assumption]].
  erewrite bind_ok;
    [| apply matrix_add_spec; mem_norm;
       cbn [rows cols mat_mul mat_scale mat_transpose tabulate];
       first [reflexivity | lia | assumption | apply tabulate_defined]].
  mem_norm.
  eexists. split; [reflexivity|].
  split; [mem_norm; reflexivity|].
  split; [mem_norm; split; [split; [now split | exact HFd] | exact HF]|].
  unfold state_quaternion, velocity, position, gyro_bias, accel_bias,
    state_vector3, state_component.
  state_indices. mem_norm.
  unfold cell. cbn [data]. unfold upd. cbn [Nat.eqb andb Nat.add].
  split; [symmetry; apply quaternion_eta|].
  split; [reflexivity|].
  split; [reflexivity|].
  split; [reflexivity|].
  split; [reflexivity|].
  split; [|reflexivity].
  split; [now split|]. rewrite Hxr, Hxc. defined_by_sets.
Qed.

(** C3.  A call of [ekf_predict] that passes the guards (initialized
    filter, not dt <= 0) returns true and sets the covariance to
    F P F^T + Q dt: F the Jacobian the call computed, P the covariance
    before the call, Q the stored process noise, each of its cells
    multiplied once by dt. *)
Theorem predict_covariance m gyro accel dt :
  wf_filter m -> initialized m = true -> (dt <=? f_0)%fl = false ->
  exists m',
    ekf_predict gyro accel dt m = Ok true m' /\
    let F_ := load pred_F m' in
    let P := load ekf_P m in
    let Q := load ekf_Q m in
    (forall i j, i < 16 -> j < 16 ->
       data F_ i j
       = Some (jacobian_spec (normalize_by_division (state_quaternion m')) dt i j)) /\
    load ekf_P m' = mat_add (mat_mul (mat_mul F_ P) (mat_transpose F_)) (mat_scale Q dt) /\
    load ekf_Q m' = Q /\
    forall i j, i < 16 -> j < 16 ->
      data (load ekf_P m') i j
      = Some (cell (mat_mul (mat_mul F_ P) (mat_transpose F_)) i j + cell Q i j * dt)%fl.
Proof.
  intros Hw Hi Hdt.
  destruct (ekf_predict_run m gyro accel dt Hw Hi Hdt)
    as [m' [E [HP [[HwF HF] [_ [_ [_ [_ [_ [_ HQ]]]]]]]]]].
  exists m'. split; [exact E|]. cbv zeta.
  split; [exact HF|]. split; [exact HP|]. split; [exact HQ|].
  intros i j Hi' Hj. rewrite HP. unfold propagated_covariance, mat_add.
  destruct HwF as [[HFr HFc] _].
  assert (HQs : rows (load ekf_Q m) = 16 /\ cols (load ekf_Q m) = 16) by apply Hw.
  destruct HQs as [HQr HQc].
  cbn [data tabulate rows cols mat_mul mat_transpose]. rewrite HFr.
  destruct (Nat.ltb_spec i 16); [|lia]. destruct (Nat.ltb_spec j 16); [|lia].
  cbn [andb]. f_equal. f_equal.
  unfold mat_scale. rewrite cell_tabulate by lia. reflexivity.
Qed.

(** C2, amended.  [ekf_predict] rotates the bias-corrected accelerometer
    vector into NED with the quaternion that the integration step
    produced, q' = normalize(q + q_dot dt) with q = normalize(state
    quaternion); q' is also the quaternion it stores. *)
Theorem predict_rotates_with_integrated_attitude m gyro accel dt :
  wf_filter m -> initialized m = true -> (dt <=? f_0)%fl = false ->
  exists m',
    ekf_predict gyro accel dt m = Ok true m' /\
    state_quaternion m' = attitude_after m gyro dt /\
    velocity m'
    = integrate_velocity m (ned_acceleration (attitude_after m gyro dt) m accel) dt.
Proof.
  intros Hw Hi Hdt.
  destruct (ekf_predict_run m gyro accel dt Hw Hi Hdt)
    as [m' [E [_ [_ [Hq [Hv _]]]]]].
  exists m'. split; [exact E|]. split; [exact Hq | exact Hv].
Qed.
End PredictFacts.

(** C2 as stated fails: from rest at identity attitude, one step with
    gyro (0, 0, 2), accel (1, 0, 0), dt = 1 leaves a velocity other than
    the one obtained by rotating with the attitude before the integration. *)
Lemma predict_rotation_not_with_prior_attitude :
  exists m',
    ekf_predict Concrete.yaw_rate Concrete.forward_accel f_1 Concrete.initial_fix
    = Ok true m' /\
    velocity m'
    <> integrate_velocity Concrete.initial_fix
         (ned_acceleration (attitude_before Concrete.initial_fix)
                           Concrete.initial_fix Concrete.forward_accel) f_1.
Proof.
  eexists. split.
  - apply (returns_true
             (ekf_predict Concrete.yaw_rate Concrete.forward_accel f_1)
             Concrete.initial_fix).
    vm_compute. reflexivity.
  - vm_compute. discriminate.
Qed.

Lemma predict_rotates_with_integrated_attitude_witness :
  wf_filter Concrete.initial_fix /\
  initialized Concrete.initial_fix = true /\
  (@f_1 Binary32.binary32 _ <=? f_0)%fl = false /\
  exists m',
    ekf_predict Concrete.yaw_rate Concrete.forward_accel f_1 Concrete.initial_fix
    = Ok true m' /\
    state_quaternion m' = attitude_after Concrete.initial_fix Concrete.yaw_rate f_1.
Proof.
  assert (Hw : wf_filter Concrete.initial_fix).
  { apply wf_filterb_ok. vm_compute. reflexivity. }
  assert (Hi : initialized Concrete.initial_fix = true) by (vm_compute; reflexivity).
  assert (Hdt : (@f_1 Binary32.binary32 _ <=? f_0)%fl = false) by (vm_compute; reflexivity).
  split; [exact Hw|]. split; [exact Hi|]. split; [exact Hdt|].
  destruct (predict_rotates_with_integrated_attitude
              Concrete.initial_fix Concrete.yaw_rate Concrete.forward_accel f_1 Hw Hi Hdt)
    as [m' [E [Hq _]]].
  exists m'. split; [exact E | exact Hq].
Defined.

Lemma predict_covariance_witness :
  wf_filter Concrete.initial_fix /\
  initialized Concrete.initial_fix = true /\
  (@f_1 Binary32.binary32 _ <=? f_0)%fl = false /\
  exists m',
    ekf_predict Concrete.yaw_rate Concrete.forward_accel f_1 Concrete.initial_fix
    = Ok true m' /\
    load ekf_P m'
    = mat_add (mat_mul (mat_mul (load pred_F m') (load ekf_P Concrete.initial_fix))
                       (mat_transpose (load pred_F m')))
              (mat_scale (load ekf_Q Concrete.initial_fix) f_1).
Proof.
  assert (Hw : wf_filter Concrete.initial_fix).
  { apply wf_filterb_ok. vm_compute. reflexivity. }
  assert (Hi : initialized Concrete.initial_fix = true) by (vm_compute; reflexivity).
  assert (Hdt : (@f_1 Binary32.binary32 _ <=? f_0)%fl = false) by (vm_compute; reflexivity).
  split; [exact Hw|]. split; [exact Hi|]. split; [exact Hdt|].
  destruct (predict_covariance
              Concrete.initial_fix Concrete.yaw_rate Concrete.forward_accel f_1 Hw Hi Hdt)
    as [m' [E [_ [HP _]]]].
  exists m'. split; [exact E | exact HP].
Defined.

(* ================================================================== *)
(** ** Core/Src/ekf/ekf_update.c: the state and covariance correction *)
(* ================================================================== *)

(** Run a matrix operation with its equation, closing the conditions on
    shapes and definedness. *)
Ltac run_op lem :=
  erewrite bind_ok;
  [| apply lem; mem_norm;
     cbn [rows cols mat_mul mat_sub mat_add mat_scale mat_transpose mat_identity tabulate];
     first [reflexivity | lia | assumption | apply tabulate_defined | defined_by_sets ] ];
  mem_norm.

Section CorrectionFacts.
Context {T : Type} `{Scalar T}.
Implicit Types (m : mem T).
Local Open Scope c_scope.

(** What [ekf_update_state_covariance(ekf, &K, &y, &H)] leaves in the
    store, for a gain K (16 x k), an innovation y (k x 1) and a Jacobian H
    (k x 16). *)
Lemma ekf_update_state_covariance_run m k :
  k <= 16 ->
  wf_matrix 16 1 (load ekf_x m) -> wf_matrix 16 16 (load ekf_P m) ->
  wf_matrix 16 k (load upd_K m) -> wf_matrix k 1 (load upd_y m) ->
  wf_matrix k 16 (load upd_H m) ->
  exists m',
    ekf_update_state_covariance upd_K upd_y upd_H m = Ok true m' /\
    let dx := mat_mul (load upd_K m) (load upd_y m) in
    (forall i, i < 16 -> (i < 6 \/ 10 <= i) ->
       data (load ekf_x m') i 0 = Some (added_state dx i)) /\
    state_quaternion m'
    = quaternion_normalize
        (mkQuaternion (added_state dx 6) (added_state dx 7)
                      (added_state dx 8) (added_state dx 9)) /\
    wf_matrix 16 1 (load ekf_x m') /\
    load ekf_P m' = corrected_covariance (load upd_K m) (load upd_H m) (load ekf_P m) /\
    same_outside [ekf_x; ekf_P; id_m; usc_dx; usc_I; usc_KH; usc_I_KH;
                  usc_P_new; usc_P_transpose] m m'.
Proof.
  intros Hk [[Hxr Hxc] Hxd] [[HPr HPc] HPd] [[HKr HKc] HKd] [[Hyr Hyc] Hyd]
         [[HHr HHc] HHd].
  unfold ekf_update_state_covariance. state_indices.
  run_op matrix_multiply_spec.
  erewrite bind_ok.
  2:{ apply matrix_add_aliased_spec; mem_norm; cbn [rows cols mat_mul tabulate];
      first [reflexivity | lia | apply tabulate_defined]. }
  mem_norm. rewrite ?Hxr, ?Hxc, ?HKr, ?Hyc.
  set (dx := mat_mul (load upd_K m) (load upd_y m)).
  set (x1 := tabulate 16 1 _).
  assert (Hx1 : wf_matrix 16 1 x1) by apply wf_tabulate.
  do 4 (erewrite bind_ok;
        [| apply get_state_component; mem_norm; [exact Hx1 | lia]]).
  unfold state_component. mem_norm. subst x1.
  do 4 run_set.
  erewrite bind_ok; [| apply matrix_identity_spec; lia].
  unfold bind at 1, assign.
  run_op matrix_multiply_spec.
  run_op matrix_subtract_spec.
  run_op matrix_multiply_spec.
  unfold bind at 1, deref. unfold bind at 1, assign. mem_norm.
  run_op matrix_transpose_spec.
  run_op matrix_add_spec.
  run_op matrix_scale_spec.
  eexists. split; [reflexivity|]. cbv zeta.
  split; [| split; [| split; [| split]]].
  - intros i Hi Hrange. mem_norm. unfold upd. cbn [data tabulate].
    assert (E : added_state dx i = (f_0 + cell dx i 0)%fl) by reflexivity.
    rewrite E. cases.
  - unfold state_quaternion, state_component. state_indices. mem_norm.
    unfold cell. cbn [data]. unfold upd. cbn [Nat.eqb andb].
    symmetry. exact (quaternion_eta _).
  - mem_norm. split; [now split|]. defined_by_sets.
  - mem_norm. unfold corrected_covariance. reflexivity.
  - split; [| repeat split].
    intros p Hp. simpl in Hp.
    repeat (apply orb_false_elim in Hp; destruct Hp as [? Hp]).
    unfold with_data. rewrite !load_store_other by assumption. reflexivity.
Qed.
End CorrectionFacts.

(* ================================================================== *)
(** ** [matrix_inverse]: the matrix it returns on success *)
(* ================================================================== *)

Section InverseResult.
Context {T : Type} `{Scalar T}.
Implicit Types (m : mem T) (a r : ptr).
Local Open Scope c_scope.

Lemma bind_inv {A B} (c : M T A) (k : A -> M T B) m b m' :
  bind c k m = Ok b m' -> exists x m1, c m = Ok x m1 /\ k x m1 = Ok b m'.
Proof.
  unfold bind. destruct (c m) as [x m1|f]; [eauto | discriminate].
Qed.

(** A loop invariant that may mention the index and the carried locals. *)
Lemma for_acc_invariant {A} (I : nat -> A -> mem T -> Prop)
      (body : nat -> A -> M T A) : forall n i0 acc0 m0,
  I i0 acc0 m0 ->
  (forall i acc m, i0 <= i -> i < i0 + n -> I i acc m ->
     match body i acc m with Ok acc' m' => I (S i) acc' m' | Fault _ => True end) ->
  match for_acc n i0 acc0 body m0 with
  | Ok acc' m' => I (i0 + n) acc' m'
  | Fault _ => True
  end.
Proof.
  induction n as [|n IH]; intros i0 acc0 m0 H0 Hbody.
  - simpl. now rewrite Nat.add_0_r.
  - simpl. unfold bind.
    pose proof (Hbody i0 acc0 m0 ltac:(lia) ltac:(lia) H0) as Hb.
    destruct (body i0 acc0 m0) as [acc1 m1|f]; [|exact Logic.I].
    specialize (IH (S i0) acc1 m1 Hb).
    replace (i0 + S n) with (S i0 + n) by lia.
    apply IH. intros i acc m Hlo Hhi. apply Hbody; lia.
Qed.

(** The loop that extracts the right half of the augmented matrix writes
    every cell of the result, or faults. *)
Lemma extract_loop_defines r n m :
  ptr_eqb r inv_augmented = false ->
  shape n n (load r m) ->
  match (For i from 0 below n do
         For j from 0 below n do
           v <- rd inv_augmented i (j + n) ;; wr r i j v) m with
  | Ok _ m' => wf_matrix n n (load r m')
  | Fault _ => True
  end.
Proof.
  intros Hr Hs.
  set (J := fun (i : nat) (m' : mem T) =>
              shape n n (load r m') /\
              forall i' j', i' < i -> j' < n -> data (load r m') i' j' <> None).
  assert (Hloop :
    match for_acc (n - 0) 0 tt
            (fun i _ => For j from 0 below n do
                          v <- rd inv_augmented i (j + n) ;; wr r i j v) m with
    | Ok _ m' => J (0 + (n - 0)) m'
    | Fault _ => True
    end).
  { apply (for_acc_invariant (fun i (_ : unit) m' => J i m')).
    - split; [exact Hs | intros; lia].
    - intros i [] m1 _ Hi [Hs1 Hd1].
      pose proof (for_acc_invariant
        (fun j (_ : unit) m' =>
           shape n n (load r m') /\
           (forall i' j', i' < i -> j' < n -> data (load r m') i' j' <> None) /\
           (forall j', j' < j -> data (load r m') i j' <> None))
        (fun j _ => v <- rd inv_augmented i (j + n) ;; wr r i j v)
        (n - 0) 0 tt m1) as Hin.
      rewrite for_unfold.
      match type of Hin with ?P -> ?Q -> _ => assert (HP : P); [| assert (HQ : Q)] end.
      + split; [exact Hs1|]. split; [exact Hd1 | intros; lia].
      + intros j [] m2 _ Hj [Hs2 [Hd2 Hrow]].
        unfold bind, rd.
        destruct (in_storage i (j + n)); [|exact Logic.I].
        destruct (data (load inv_augmented m2) i (j + n)); [|exact Logic.I].
        unfold wr. destruct (in_storage i j); [|exact Logic.I].
        rewrite load_store_same. cbn [set_cell rows cols data].
        split; [exact Hs2|]. split.
        * intros i' j' Hi' Hj'.
          destruct ((i' =? i) && (j' =? j)); [discriminate | now apply Hd2].
        * intros j' Hj'.
          destruct ((i =? i) && (j' =? j)) eqn:E; [discriminate|].
          apply Hrow. rewrite Nat.eqb_refl in E. cbn [andb] in E.
          apply Nat.eqb_neq in E. lia.
      + specialize (Hin HP HQ).
        destruct (for_acc (n - 0) 0 tt _ m1) as [[] m2|f]; [|exact Logic.I].
        destruct Hin as [Hs2 [Hd2 Hrow]]. split; [exact Hs2|].
        intros i' j' Hi' Hj'.
        destruct (Nat.eq_dec i' i) as [->|Hne].
        * apply Hrow. lia.
        * apply Hd2; lia. }
  rewrite for_unfold.
  destruct (for_acc (n - 0) 0 tt _ m) as [[] m'|f]; [|exact Logic.I].
  destruct Hloop as [Hs' Hd']. split; [exact Hs'|].
  intros i j Hi Hj. destruct Hs' as [Hr' Hc'].
  apply Hd'; lia.
Qed.

Lemma yields_ret {A} (P : A -> Prop) (x : A) : P x -> yields P (@ret T A x).
Proof. intros Hx m. exact Hx. Qed.

Lemma yields_bind {A B} (P : B -> Prop) (c : M T A) (k : A -> M T B) :
  (forall x, yields P (k x)) -> yields P (bind c k).
Proof.
  intros Hk m. unfold bind. destruct (c m) as [x m1|f]; [apply Hk | exact Logic.I].
Qed.

Lemma yields_for_ret {R_} (P : option R_ -> Prop) (body : nat -> M T (option R_)) :
  P None -> (forall i, yields P (body i)) -> forall n i, yields P (for_ret n i body).
Proof.
  intros HN Hb. induction n as [|n IH]; intros i m; simpl.
  - exact HN.
  - unfold bind. specialize (Hb i m).
    destruct (body i m) as [[v|] m1|f]; [exact Hb | apply IH | exact Logic.I].
Qed.

(** When [matrix_inverse] returns true, its result is a written n x n
    matrix and nothing but its local and its result has changed. *)
Lemma matrix_inverse_true_wf a r m m' :
  matrix_inverse a r m = Ok true m' ->
  ptr_eqb r inv_augmented = false ->
  rows (load a m) <= 16 ->
  wf_matrix (rows (load a m)) (rows (load a m)) (load r m').
Proof.
  intros E Hr Hn. unfold matrix_inverse in E.
  apply bind_inv in E. destruct E as [n [m1 [E1 E]]].
  unfold rows_of in E1. injection E1 as <- <-.
  apply bind_inv in E. destruct E as [nc [m1 [E1 E]]].
  unfold cols_of in E1. injection E1 as <- <-.
  destruct (negb (rows (load a m) =? cols (load a m))); [discriminate E|].
  set (n := rows (load a m)) in *.
  apply bind_inv in E. destruct E as [[] [m1 [_ E]]].
  apply bind_inv in E. destruct E as [[] [m2 [_ E]]].
  apply bind_inv in E. destruct E as [[] [m3 [_ E]]].
  apply bind_inv in E. destruct E as [res [m4 [E4 E]]].
  destruct res as [b|].
  - exfalso. injection E as -> _.
    match type of E4 with for_ret ?k ?i ?body ?mm = _ =>
      pose proof (yields_for_ret
        (fun o : option bool => o <> Some true) body ltac:(discriminate)) as Hy
    end.
    match type of Hy with ?P -> _ => assert (HP : P) end.
    { intros i. repeat (apply yields_bind; intros).
      match goal with |- yields _ (let (_, _) := ?x in _) => destruct x as [pivot max_val] end.
      destruct (flt max_val f_1em6).
      - apply yields_ret. discriminate.
      - repeat (apply yields_bind; intros). apply yields_ret. discriminate. }
    specialize (Hy HP n 0 m3). rewrite E4 in Hy. now apply Hy.
  - apply bind_inv in E. destruct E as [[] [m5 [E5 E]]].
    unfold assign in E5. injection E5 as <-.
    apply bind_inv in E. destruct E as [[] [m6 [E6 E]]].
    injection E as <-.
    pose proof (extract_loop_defines r n (store r (matrix_create n n) m4) Hr) as Hx.
    rewrite E6 in Hx. apply Hx.
    rewrite load_store_same, matrix_create_le by assumption. now split.
Qed.
End InverseResult.

(* ================================================================== *)
(** ** Core/Src/ekf/ekf_update.c: a successful update *)
(* ================================================================== *)

Section UpdateSuccess.
Context {T : Type} `{Scalar T}.
Implicit Types (m : mem T).
Local Open Scope c_scope.

Lemma wf_tabulate_shape nr nc nr' nc' (f : nat -> nat -> T) :
  nr = nr' -> nc = nc' -> wf_matrix nr' nc' (tabulate nr nc f).
Proof. intros <- <-. apply wf_tabulate. Qed.

(** When [ekf_compute_kalman_gain] returns true, the gain K is a written
    16 x k matrix and only the locals of the call and K have changed. *)
Lemma kalman_gain_succeeds m R_ k m' :
  In R_ [ekf_R_gps; ekf_R_baro; ekf_R_mag] ->
  k <= 16 ->
  wf_matrix k 16 (load upd_H m) ->
  wf_matrix 16 16 (load ekf_P m) ->
  wf_matrix k k (load R_ m) ->
  ekf_compute_kalman_gain upd_H R_ upd_K m = Ok true m' ->
  wf_matrix 16 k (load upd_K m') /\
  same_outside [kg_H_transpose; kg_temp1; kg_temp2; kg_S; inv_augmented;
                kg_S_inv; kg_temp3; upd_K] m m'.
Proof.
  intros HR Hk [[HHr HHc] HHd] [[HPr HPc] HPd] [[HRr HRc] HRd].
  unfold ekf_compute_kalman_gain.
  destruct HR as [<- | [<- | [<- | []]]].
  all: erewrite bind_ok;
       [| apply matrix_transpose_spec; first [reflexivity | lia | assumption]].
  all: run_op matrix_multiply_spec.
  all: run_op matrix_multiply_spec.
  all: run_op matrix_add_spec.
  all: intros E; apply bind_inv in E; destruct E as [ok [mI [EI E]]].
  all: destruct ok; cbn [negb] in E; [| discriminate E].
  all: pose proof (matrix_inverse_true_wf _ _ _ _ EI eq_refl) as HwI.
  all: pose proof (matrix_inverse_frame _ _ _ _ _ EI) as [Hl Hs].
  all: rewrite load_store_same in HwI;
       cbn [rows cols mat_add mat_mul tabulate] in HwI;
       rewrite HHr in HwI; specialize (HwI Hk);
       destruct HwI as [[HIr HIc] HId].
  all: revert E.
  all: erewrite bind_ok;
       [| apply matrix_multiply_spec; rewrite ?Hl by reflexivity; mem_norm;
          cbn [rows cols mat_mul mat_transpose tabulate];
          first [reflexivity | lia | assumption | apply tabulate_defined]].
  all: rewrite ?Hl by reflexivity; mem_norm.
  all: erewrite bind_ok;
       [| apply matrix_multiply_spec; mem_norm;
          cbn [rows cols mat_mul mat_transpose tabulate];
          first [reflexivity | lia | assumption | apply tabulate_defined]].
  all: mem_norm.
  all: intros E; injection E as <-.
  all: split; [ rewrite load_store_same; apply wf_tabulate_shape;
                cbn [rows cols mat_mul mat_transpose tabulate]; assumption |].
  all: destruct Hs as [Hg [He Hin]]; split; [| repeat split; assumption].
  all: intros p Hp; simpl in Hp;
       repeat (apply orb_false_elim in Hp; destruct Hp as [? Hp]);
       rewrite !load_store_other by assumption;
       rewrite Hl by (simpl; repeat (apply orb_false_intro; try assumption));
       rewrite !load_store_other by assumption; reflexivity.
Qed.

(** The part the three updates share: the gain, then the correction. *)
Lemma update_tail_succeeds mk R_ k m' :
  In R_ [ekf_R_gps; ekf_R_baro; ekf_R_mag] ->
  k <= 16 ->
  wf_matrix 16 1 (load ekf_x mk) -> wf_matrix 16 16 (load ekf_P mk) ->
  wf_matrix k 16 (load upd_H mk) -> wf_matrix k 1 (load upd_y mk) ->
  wf_matrix k k (load R_ mk) ->
  (ok <- ekf_compute_kalman_gain upd_H R_ upd_K ;;
   if negb ok then ret false
   else ekf_update_state_covariance upd_K upd_y upd_H) mk = Ok true m' ->
  (exists q, state_quaternion m' = quaternion_normalize q) /\
  wf_matrix 16 1 (load ekf_x m') /\
  wf_matrix 16 16 (load ekf_P m') /\
  same_outside [ekf_x; ekf_P; id_m; usc_dx; usc_I; usc_KH; usc_I_KH;
                usc_P_new; usc_P_transpose;
                kg_H_transpose; kg_temp1; kg_temp2; kg_S; inv_augmented;
                kg_S_inv; kg_temp3; upd_K] mk m'.
Proof.
  intros HR Hk Hx HP HH Hy HRw E.
  apply bind_inv in E. destruct E as [ok [mK [EK E]]].
  destruct ok; cbn [negb] in E; [| discriminate E].
  destruct (kalman_gain_succeeds mk R_ k mK HR Hk HH HP HRw EK) as [HK [Hl Hs]].
  destruct (ekf_update_state_covariance_run mK k Hk) as [m'' [E' Hrun]].
  - rewrite Hl by reflexivity. exact Hx.
  - rewrite Hl by reflexivity. exact HP.
  - exact HK.
  - rewrite Hl by reflexivity. exact Hy.
  - rewrite Hl by reflexivity. exact HH.
  - rewrite E' in E. injection E as <-. cbv zeta in Hrun.
    destruct Hrun as [_ [Hq [Hx' [HP' [Hl' Hs']]]]].
    split; [eexists; exact Hq|]. split; [exact Hx'|]. split.
    + rewrite HP'. unfold corrected_covariance, mat_scale.
      apply wf_tabulate_shape; cbn [rows cols mat_add mat_mul mat_sub mat_identity tabulate].
      * reflexivity.
      * rewrite Hl by reflexivity. apply HP.
    + destruct Hs as [Hg [He Hi]]. destruct Hs' as [Hg' [He' Hi']].
      split; [| repeat split; congruence].
      intros p Hp. simpl in Hp.
      repeat (apply orb_false_elim in Hp; destruct Hp as [? Hp]).
      rewrite Hl' by (simpl; repeat (apply orb_false_intro; try assumption)).
      apply Hl. simpl. repeat (apply orb_false_intro; try assumption).
Qed.
End UpdateSuccess.

(* ================================================================== *)
(** ** Sequencing laws and symbolic execution *)
(* ================================================================== *)

Section Sequencing.
Context {T : Type} `{Scalar T}.
Implicit Types (m : mem T).
Local Open Scope c_scope.

Lemma bind_assoc {A B C} (c : M T A) (k1 : A -> M T B) (k2 : B -> M T C) :
  bind (bind c k1) k2 = bind c (fun x => bind (k1 x) k2).
Proof. extensionality m. unfold bind. now destruct (c m). Qed.

Lemma bind_ret {A B} (x : A) (k : A -> M T B) : bind (ret x) k = k x.
Proof. reflexivity. Qed.

Lemma for_acc_S {A} n i (acc : A) (body : nat -> A -> M T A) :
  for_acc (S n) i acc body
  = bind (body i acc) (fun acc' => for_acc n (S i) acc' body).
Proof. reflexivity. Qed.

Lemma for_acc_O {A} i (acc : A) (body : nat -> A -> M T A) :
  for_acc 0 i acc body = ret acc.
Proof. reflexivity. Qed.
Lemma for_ret_S {R_} n i (body : nat -> M T (option R_)) :
  for_ret (S n) i body
  = bind (body i) (fun r => match r with
                            | Some v => ret (Some v)
                            | None => for_ret n (S i) body
                            end).
Proof. reflexivity. Qed.

Lemma for_ret_O {R_} i (body : nat -> M T (option R_)) :
  for_ret 0 i body = ret None.
Proof. reflexivity. Qed.

Lemma u8_small n : n < 256 -> u8 n = n.
Proof. apply Nat.mod_small. Qed.
End Sequencing.

(** Unroll the loops of a goal whose bounds are numerals, and flatten the
    sequence of statements that results. *)
Ltac unroll :=
  repeat first
    [ rewrite for_unfold
    | rewrite for_acc_S
    | rewrite for_acc_O
    | rewrite for_ret_S
    | rewrite for_ret_O
    | rewrite bind_assoc
    | rewrite bind_ret
    | rewrite u8_small by lia
    | progress cbn [Nat.sub Nat.add Nat.mul Nat.eqb negb] ].

(** Run the read or the write at the head of the sequence. *)
Ltac run_rd Hx :=
  erewrite bind_ok;
  [| apply rd_ok;
     [reflexivity
     | mem_norm; rewrite ?load_store_other by assumption;
       cbn [data tabulate]; unfold upd; cbn [Nat.eqb Nat.ltb Nat.leb andb];
       first [exact Hx | reflexivity]]];
  unroll.
Ltac run_wr :=
  erewrite bind_ok; [| apply wr_ok; reflexivity]; mem_norm; unroll.


(* ================================================================== *)
(** ** Core/Src/math/matrix.c: error paths, round trips, aliasing *)
(* ================================================================== *)

Section MatrixLibrary.
Context {T : Type} `{Scalar T}.
Implicit Types (m : mem T) (a b r p : ptr).
Local Open Scope c_scope.

(** X15.  A [matrix_set] inside the logical shape returns true; after it
    [matrix_get] at the same place returns the value stored, the shape
    is the same and every other cell holds what it held. *)
Theorem matrix_set_get_round_trip p row col v m :
  let A := load p m in
  row < rows A -> col < cols A -> rows A <= 16 -> cols A <= 16 ->
  exists m',
    matrix_set p row col v m = Ok true m' /\
    matrix_get p row col m' = Ok (Some v) m' /\
    rows (load p m') = rows A /\ cols (load p m') = cols A /\
    (forall i j, (i, j) <> (row, col) -> data (load p m') i j = data A i j) /\
    (forall q, ptr_eqb q p = false -> load q m' = load q m).
Proof.
  intros A Hr Hc Hr16 Hc16.
  eexists. split; [apply matrix_set_spec; assumption|].
  fold A. mem_norm.
  split.
  - unfold matrix_get, bind, rows_of, cols_of. mem_norm.
    fold A.
    destruct (Nat.leb_spec (rows A) row); [lia|].
    destruct (Nat.leb_spec (cols A) col); [lia|]. cbn [orb].
    erewrite rd_ok; [reflexivity | apply in_storage_lt; lia |].
    mem_norm. apply cell_upd_same.
  - split; [reflexivity|]. split; [reflexivity|]. split.
    + intros i j Hne. unfold upd.
      destruct (Nat.eqb_spec i row), (Nat.eqb_spec j col); cbn [andb];
        try reflexivity. subst. contradiction.
    + intros q Hq. now rewrite load_with_data_other.
Qed.

(** X16.  Transposing twice gives the matrix back: after
    [matrix_transpose a b] and [matrix_transpose b c] the matrix [c] has
    the shape of [a] and, in that shape, its cells. *)
Theorem matrix_transpose_round_trip a b c m :
  let A := load a m in
  ptr_eqb a b = false -> ptr_eqb b c = false -> ptr_eqb a c = false ->
  rows A <= 16 -> cols A <= 16 -> defined A ->
  exists m1 m2,
    matrix_transpose a b m = Ok true m1 /\
    matrix_transpose b c m1 = Ok true m2 /\
    rows (load c m2) = rows A /\ cols (load c m2) = cols A /\
    (forall i j, i < rows A -> j < cols A -> data (load c m2) i j = data A i j) /\
    load a m2 = A.
Proof.
  intros A Hab Hbc Hac Hr Hc Hd.
  eexists. eexists.
  split; [apply matrix_transpose_spec; assumption|].
  split.
  - apply matrix_transpose_spec; mem_norm; fold A;
      cbn [rows cols mat_transpose tabulate];
      first [assumption | apply tabulate_defined].
  - mem_norm. fold A.
    rewrite load_store_other by exact Hac.
    rewrite load_store_other by exact Hab.
    cbn [rows cols mat_transpose tabulate data].
    split; [reflexivity|]. split; [reflexivity|]. split; [|reflexivity].
    intros i j Hi Hj.
    destruct (Nat.ltb_spec i (rows A)); [|lia].
    destruct (Nat.ltb_spec j (cols A)); [|lia]. cbn [andb].
    unfold mat_transpose at 1. rewrite cell_tabulate by assumption.
    symmetry. apply defined_cell; assumption.
Qed.

(** X17.  [matrix_add a b r] with a result distinct from its operands
    stores a + b.  When the result pointer is the first operand,
    [matrix_add a b a] stores 0 + b: the call clears [*result] before it
    reads [a]. *)
Theorem matrix_add_result_aliasing a b r m :
  let A := load a m in
  let B := load b m in
  ptr_eqb b a = false -> ptr_eqb a r = false -> ptr_eqb b r = false ->
  rows A <= 16 -> cols A <= 16 -> defined A ->
  rows B = rows A -> cols B = cols A -> defined B ->
  (exists m', matrix_add a b r m = Ok true m' /\
     forall i j, i < rows A -> j < cols A ->
       data (load r m') i j = Some (cell A i j + cell B i j)%fl) /\
  (exists m', matrix_add a b a m = Ok true m' /\
     forall i j, i < rows A -> j < cols A ->
       data (load a m') i j = Some (f_0 + cell B i j)%fl).
Proof.
  intros A B Hba Har Hbr Hr Hc HdA HrB HcB HdB.
  split.
  - eexists. split; [apply matrix_add_spec; assumption|].
    intros i j Hi Hj. mem_norm. fold A B. unfold mat_add. cbn [data tabulate].
    destruct (Nat.ltb_spec i (rows A)); [|lia].
    destruct (Nat.ltb_spec j (cols A)); [|lia]. reflexivity.
  - eexists. split; [apply matrix_add_aliased_spec; assumption|].
    intros i j Hi Hj. mem_norm. fold A B. cbn [data tabulate].
    destruct (Nat.ltb_spec i (rows A)); [|lia].
    destruct (Nat.ltb_spec j (cols A)); [|lia]. reflexivity.
Qed.
End MatrixLibrary.

Section InverseScalar.
Context {T : Type} `{Scalar T}.
Implicit Types (m : mem T).
Local Open Scope c_scope.

(** X19.  On a written 1 x 1 matrix (x), [matrix_inverse] returns false
    when |x| < 1e-6, leaving its result untouched, and otherwise returns
    true with the 1 x 1 result (1 / x). *)
Theorem matrix_inverse_scalar a r m :
  let x := cell (load a m) 0 0 in
  wf_matrix 1 1 (load a m) ->
  ptr_eqb a inv_augmented = false -> ptr_eqb r inv_augmented = false ->
  exists m',
    matrix_inverse a r m = Ok (negb (fabsf x <? f_1em6)%fl) m' /\
    if (fabsf x <? f_1em6)%fl then load r m' = load r m
    else shape 1 1 (load r m') /\ data (load r m') 0 0 = Some (f_1 / x)%fl.
Proof.
  intros x [[Hr Hc] Hd] Ha Hra.
  assert (Hx : data (load a m) 0 0 = Some x) by (apply defined_cell; [exact Hd | lia | lia]).
  unfold matrix_inverse.
  unfold bind at 1, rows_of. unfold bind at 1, cols_of.
  rewrite Hr, Hc. cbn [Nat.eqb negb].
  rewrite u8_small by lia. cbn [Nat.mul Nat.add].
  rewrite matrix_create_le by lia.
  unfold bind at 1, assign.
  unroll.
  run_rd Hx. run_wr. run_wr.
  run_rd Hx. fold x.
  destruct (fabsf x <? f_1em6)%fl eqn:Hsmall; cbn [negb]; unroll.
  - eexists. split; [reflexivity|]. mem_norm.
    rewrite ?load_with_data_other, ?load_store_other by exact Hra. reflexivity.
  - run_rd Hx. run_rd Hx. run_wr. run_rd Hx. run_wr.
    assert (Hra' : ptr_eqb inv_augmented r = false)
      by (unfold ptr_eqb in *; now rewrite Nat.eqb_sym).
    erewrite bind_ok by reflexivity.
    rewrite matrix_create_le by lia.
    run_rd Hx. run_wr.
    eexists. split; [reflexivity|].
    rewrite load_with_data_same, load_store_same.
    split; [now split|]. apply cell_upd_same.
Qed.
End InverseScalar.

Section CopyAndRows.
Context {T : Type} `{Scalar T}.
Implicit Types (m : mem T).
Local Open Scope c_scope.

(** X20.  [matrix_copy src dst], for a written [src] other than [dst],
    returns true and gives [dst] the shape of [src] and, inside that
    shape, its cells.  It does not clear [dst]: the cells outside the
    shape keep what [dst] held.  No other matrix changes. *)
Theorem matrix_copy_spec src dst m :
  let A := load src m in
  ptr_eqb src dst = false ->
  rows A <= 16 -> cols A <= 16 -> defined A ->
  exists m',
    matrix_copy src dst m = Ok true m' /\
    rows (load dst m') = rows A /\ cols (load dst m') = cols A /\
    (forall i j, i < rows A -> j < cols A -> data (load dst m') i j = data A i j) /\
    (forall i j, rows A <= i \/ cols A <= j ->
       data (load dst m') i j = data (load dst m) i j) /\
    (forall q, ptr_eqb q dst = false -> load q m' = load q m).
Proof.
  intros A Hsd Hr Hc Hd.
  unfold matrix_copy.
  unfold bind at 1, rows_of. fold A. unfold bind at 1, set_rows.
  unfold bind at 1, cols_of. rewrite load_store_other by exact Hsd. fold A.
  unfold bind at 1, set_cols. rewrite load_store_same, store_store_same.
  cbn [data rows cols].
  unfold bind at 1, rows_of. rewrite load_store_other by exact Hsd. fold A.
  unfold bind at 1, cols_of. rewrite load_store_other by exact Hsd. fold A.
  set (m0 := store dst _ m).
  erewrite bind_ok.
  2:{ apply (@fill_spec _ dst false (rows A) (cols A)
               (fun i j => v <- rd src i j ;; wr dst i j v)
               (fun i j => cell A i j) m0).
      intros i j D Hi Hj _.
      erewrite bind_ok.
      2:{ apply rd_defined; try lia.
          rewrite load_with_data_other by exact Hsd.
          unfold m0. rewrite load_store_other by exact Hsd. now apply Hd. }
      rewrite load_with_data_other by exact Hsd.
      unfold m0 at 1. rewrite load_store_other by exact Hsd. fold A.
      apply wr_with_data; cbn [target fst snd]; lia. }
  eexists. split; [reflexivity|].
  rewrite load_with_data_same. unfold m0. rewrite load_store_same.
  cbn [data rows cols target].
  split; [reflexivity|]. split; [reflexivity|]. split; [|split].
  - intros i j Hi Hj.
    destruct (Nat.ltb_spec i (rows A)); [|lia].
    destruct (Nat.ltb_spec j (cols A)); [|lia]. cbn [andb].
    symmetry. now apply defined_cell.
  - intros i j Hout.
    destruct (Nat.ltb_spec i (rows A)), (Nat.ltb_spec j (cols A));
      cbn [andb]; try reflexivity. lia.
  - intros q Hq. rewrite load_with_data_other, load_store_other by exact Hq.
    reflexivity.
Qed.

Lemma set_elem_spec (vec : list T) j v :
  j < length vec ->
  exists vec', set_elem vec j v = Some vec' /\
               length vec' = length vec /\
               forall j', nth_error vec' j' = if j' =? j then Some v else nth_error vec j'.
Proof.
  revert j. induction vec as [|x tl IH]; intros j Hj; [simpl in Hj; lia|].
  destruct j as [|j].
  - eexists. split; [reflexivity|]. split; [reflexivity|].
    intros [|j']; reflexivity.
  - destruct (IH j ltac:(simpl in Hj; lia)) as [tl' [E [Hl Hn]]].
    exists (x :: tl'). simpl. rewrite E. split; [reflexivity|].
    split; [simpl; now rewrite Hl|].
    intros [|j']; [reflexivity|]. simpl. apply Hn.
Qed.

(** The loop of [matrix_get_row]. *)
Lemma get_row_loop p row m : forall k j0 (acc : list T),
  row < 16 -> j0 + k <= 16 -> j0 + k <= length acc ->
  (forall j, j0 <= j -> j < j0 + k -> data (load p m) row j <> None) ->
  exists acc',
    for_acc k j0 acc (fun j vec => v <- rd p row j ;; put vec j v) m = Ok acc' m /\
    length acc' = length acc /\
    forall j, nth_error acc' j
              = if (j0 <=? j) && (j <? j0 + k) then data (load p m) row j
                else nth_error acc j.
Proof.
  induction k as [|k IH]; intros j0 acc Hrow H16 Hlen Hd.
  - exists acc. split; [reflexivity|]. split; [reflexivity|]. intros j. cases.
  - destruct (set_elem_spec acc j0 (cell (load p m) row j0) ltac:(lia))
      as [acc1 [E1 [Hl1 Hn1]]].
    destruct (IH (S j0) acc1 Hrow ltac:(lia) ltac:(lia)) as [acc2 [E2 [Hl2 Hn2]]].
    { intros j Hlo Hhi. apply Hd; lia. }
    exists acc2. split.
    + simpl. erewrite bind_ok.
      2:{ erewrite bind_ok; [| apply rd_defined; [lia | lia | apply Hd; lia]].
          unfold put. rewrite E1. reflexivity. }
      exact E2.
    + split; [congruence|]. intros j. rewrite Hn2, Hn1.
      destruct (Nat.eqb_spec j j0) as [->|Hne].
      * rewrite (cell_defined (load p m) row j0) by (apply Hd; lia). cases.
      * cases.
Qed.

(** The store that [matrix_set_row] leaves. *)
Lemma matrix_set_row_run p row (vec : list T) n m :
  let A := load p m in
  row < rows A -> n <= cols A -> n <= length vec ->
  rows A <= 16 -> cols A <= 16 ->
  matrix_set_row p row (Some vec) n m
  = Ok true (with_data p
      (fun i j => if (i =? row) && (j <? n) then Some (nth j vec f_0) else data A i j) m).
Proof.
  intros A Hrow Hn Hlen Hr Hc.
  unfold matrix_set_row.
  unfold bind at 1, rows_of. unfold bind at 1, cols_of. fold A.
  destruct (Nat.leb_spec (rows A) row); [lia|].
  destruct (Nat.ltb_spec (cols A) n); [lia|]. cbn [orb].
  rewrite for_unfold, Nat.sub_0_r.
  rewrite <- (with_data_id p m) at 1.
  erewrite bind_ok.
  2:{ apply (@fill_row _ p false (rows A) n
               (fun i j => v <- elem vec j ;; wr p i j v)
               (fun i j => nth j vec f_0) m) with (i := row);
        [| exact Hrow | lia | reflexivity].
      intros i j D Hi Hj _.
      unfold elem.
      destruct (nth_error vec j) as [v|] eqn:Ev.
      2:{ apply nth_error_None in Ev. lia. }
      rewrite (nth_error_nth _ _ f_0 Ev).
      erewrite bind_ok by reflexivity.
      apply wr_with_data; cbn [target fst snd]; lia. }
  reflexivity.
Qed.

(** X21.  A row written by [matrix_set_row] is read back by
    [matrix_get_row]: the first [n] elements of the caller's output array
    become the first [n] elements of the vector stored, the rest of the
    array and the other rows of the matrix are untouched. *)
Theorem matrix_row_round_trip p row (vec out : list T) n m :
  let A := load p m in
  row < rows A -> n <= cols A -> n <= length vec -> n <= length out ->
  rows A <= 16 -> cols A <= 16 ->
  exists m' out',
    matrix_set_row p row (Some vec) n m = Ok true m' /\
    matrix_get_row p row (Some out) n m' = Ok (Some out') m' /\
    length out' = length out /\
    (forall j, j < n -> nth_error out' j = nth_error vec j) /\
    (forall j, n <= j -> nth_error out' j = nth_error out j) /\
    (forall i j, i <> row -> data (load p m') i j = data A i j).
Proof.
  intros A Hrow Hn Hlen Hout Hr Hc.
  eexists. 
  destruct (get_row_loop p row
              (with_data p
                 (fun i j => if (i =? row) && (j <? n) then Some (nth j vec f_0)
                             else data A i j) m)
              n 0 out) as [out' [E [Hl Hnth]]]; try lia.
  { intros j _ Hj. rewrite load_with_data_same. cbn [data].
    rewrite Nat.eqb_refl. destruct (Nat.ltb_spec j n); [discriminate | lia]. }
  exists out'.
  split; [now apply matrix_set_row_run|].
  split.
  - unfold matrix_get_row.
    unfold bind at 1, rows_of. unfold bind at 1, cols_of.
    rewrite load_with_data_same. cbn [rows cols]. fold A.
    destruct (Nat.leb_spec (rows A) row); [lia|].
    destruct (Nat.ltb_spec (cols A) n); [lia|]. cbn [orb].
    erewrite bind_ok by exact E. reflexivity.
  - split; [exact Hl|].
    rewrite load_with_data_same in Hnth |- *. cbn [data] in Hnth |- *.
    split; [|split].
    + intros j Hj. rewrite Hnth, Nat.eqb_refl.
      destruct (Nat.ltb_spec j n); [|lia]. cbn [Nat.add andb].
      destruct (Nat.ltb_spec j n); [|lia]. cbn [Nat.leb].
      symmetry. apply nth_error_nth'. lia.
    + intros j Hj. rewrite Hnth. cbn [Nat.add Nat.leb andb].
      destruct (Nat.ltb_spec j n); [lia | reflexivity].
    + intros i j Hne. destruct (Nat.eqb_spec i row); [contradiction | reflexivity].
Qed.

(** X14.  The functions of matrix.c that check their arguments return
    false and write nothing when the check fails: [matrix_add] and
    [matrix_subtract] on operands of different shapes, [matrix_multiply]
    when the columns of the first operand are not the rows of the second,
    [matrix_inverse] on a matrix that is not square, [matrix_set] and
    [matrix_get] outside the logical shape, and the four row and column
    accessors on an index outside the shape, a vector longer than the
    matrix is wide (or high), or a null vector. *)
Theorem matrix_library_rejects a b r k l v (vec : option (list T)) n m :
  let A := load a m in
  let B := load b m in
  ((rows A =? rows B) && (cols A =? cols B) = false ->
     matrix_add a b r m = Ok false m /\ matrix_subtract a b r m = Ok false m) /\
  ((cols A =? rows B) = false -> matrix_multiply a b r m = Ok false m) /\
  ((rows A =? cols A) = false -> matrix_inverse a r m = Ok false m) /\
  (rows A <= k \/ cols A <= l ->
     matrix_set a k l v m = Ok false m /\ matrix_get a k l m = Ok None m) /\
  (vec = None \/ rows A <= k \/ cols A < n ->
     matrix_set_row a k vec n m = Ok false m /\
     matrix_get_row a k vec n m = Ok None m) /\
  (vec = None \/ cols A <= l \/ rows A < n ->
     matrix_set_column a l vec n m = Ok false m /\
     matrix_get_column a l vec n m = Ok None m).
Proof.
  intros A B.
  split; [|split; [|split; [|split; [|split]]]].
  - intros Hs. unfold matrix_add, matrix_subtract, bind, rows_of, cols_of.
    fold A B.
    apply andb_false_iff in Hs. destruct Hs as [-> | ->]; cbn [negb orb];
      rewrite ?orb_true_r; split; reflexivity.
  - intros Hs. unfold matrix_multiply, bind, rows_of, cols_of. fold A B.
    rewrite Hs. reflexivity.
  - intros Hs. unfold matrix_inverse, bind, rows_of, cols_of. fold A.
    rewrite Hs. reflexivity.
  - intros Hout. split; [now apply matrix_set_out_of_range|].
    unfold matrix_get, bind, rows_of, cols_of. fold A.
    destruct (Nat.leb_spec (rows A) k); [reflexivity|].
    destruct (Nat.leb_spec (cols A) l); [reflexivity|]. lia.
  - unfold matrix_set_row, matrix_get_row, bind, rows_of, cols_of. fold A.
    intros [-> | Hout]; [now split|]. destruct vec as [vec|]; [|now split].
    destruct (Nat.leb_spec (rows A) k), (Nat.ltb_spec (cols A) n);
      cbn [orb]; try (now split); lia.
  - unfold matrix_set_column, matrix_get_column, bind, rows_of, cols_of. fold A.
    intros [-> | Hout]; [now split|]. destruct vec as [vec|]; [|now split].
    destruct (Nat.leb_spec (cols A) l), (Nat.ltb_spec (rows A) n);
      cbn [orb]; try (now split); lia.
Qed.
End CopyAndRows.

(* ================================================================== *)
(** ** Total correctness under an invariant *)
(* ================================================================== *)

Section Total.
Context {T : Type} `{Scalar T}.
Implicit Types (m : mem T) (I : mem T -> Prop).
Local Open Scope c_scope.

Lemma total_ret {A} I (x : A) (Q : A -> Prop) : Q x -> total I (ret x) Q.
Proof. intros Hx m Hm. exists x, m. now repeat split. Qed.

Lemma total_bind {A B} I (c : M T A) (k : A -> M T B) (Q1 : A -> Prop) (Q : B -> Prop) :
  total I c Q1 -> (forall x, Q1 x -> total I (k x) Q) -> total I (bind c k) Q.
Proof.
  intros Hc Hk m Hm. destruct (Hc m Hm) as [x [m1 [E [Hm1 Hx]]]].
  destruct (Hk x Hx m1 Hm1) as [y [m2 [E2 [Hm2 Hy]]]].
  exists y, m2. split; [|now split]. unfold bind. now rewrite E.
Qed.

Lemma total_seq {A B} I (c : M T A) (k : A -> M T B) (Q : B -> Prop) :
  total I c (fun _ => True) -> (forall x, total I (k x) Q) -> total I (bind c k) Q.
Proof. intros Hc Hk. apply total_bind with (Q1 := fun _ => True); auto. Qed.

Lemma total_weaken {A} I (c : M T A) (Q Q' : A -> Prop) :
  total I c Q -> (forall x, Q x -> Q' x) -> total I c Q'.
Proof.
  intros Hc HQ m Hm. destruct (Hc m Hm) as [x [m1 [E [Hm1 Hx]]]].
  exists x, m1. auto.
Qed.

Lemma total_for_acc {A} I (Q : A -> Prop) (body : nat -> A -> M T A) :
  forall n i0 acc0,
  Q acc0 ->
  (forall i acc, i0 <= i -> i < i0 + n -> Q acc -> total I (body i acc) Q) ->
  total I (for_acc n i0 acc0 body) Q.
Proof.
  induction n as [|n IH]; intros i0 acc0 H0 Hb.
  - simpl. now apply total_ret.
  - simpl. apply total_bind with (Q1 := Q).
    + apply Hb; [lia | lia | exact H0].
    + intros acc1 H1. apply IH; [exact H1|].
      intros i acc Hlo Hhi. apply Hb; lia.
Qed.

Lemma total_for I lo hi (body : nat -> M T unit) :
  (forall i, lo <= i -> i < hi -> total I (body i) (fun _ => True)) ->
  total I (for_ lo hi body) (fun _ => True).
Proof.
  intros Hb. unfold for_. apply total_for_acc; [exact Logic.I|].
  intros i _ Hlo Hhi _. apply Hb; lia.
Qed.

Lemma total_for_ret {R_} I (body : nat -> M T (option R_)) :
  forall n i0,
  (forall i, i0 <= i -> i < i0 + n -> total I (body i) (fun _ => True)) ->
  total I (for_ret n i0 body) (fun _ => True).
Proof.
  induction n as [|n IH]; intros i0 Hb.
  - simpl. now apply total_ret.
  - simpl. apply total_seq; [apply Hb; lia|].
    intros [v|]; [now apply total_ret|].
    apply IH. intros i Hlo Hhi. apply Hb; lia.
Qed.

Lemma total_rd I p i j :
  (forall m, I m -> in_storage i j = true /\ data (load p m) i j <> None) ->
  total I (rd p i j) (fun _ => True).
Proof.
  intros Hp m Hm. destruct (Hp m Hm) as [Hs Hd].
  unfold rd. rewrite Hs.
  destruct (data (load p m) i j) as [v|]; [|contradiction].
  exists v, m. now repeat split.
Qed.

Lemma total_wr I p i j v :
  in_storage i j = true ->
  (forall m, I m -> I (store p (set_cell (load p m) i j v) m)) ->
  total I (wr p i j v) (fun _ => True).
Proof.
  intros Hs Hp m Hm. unfold wr. rewrite Hs.
  eexists. eexists. split; [reflexivity|]. split; [now apply Hp | exact Logic.I].
Qed.
End Total.

Section InverseSafety.
Context {T : Type} `{Scalar T}.
Implicit Types (m : mem T).
Local Open Scope c_scope.

Variables (a : ptr) (n : nat).
Hypothesis Hn : n <= 8.
Hypothesis Ha : ptr_eqb a inv_augmented = false.

Let Inv : mem T -> Prop := inverse_invariant a n.

Lemma wf_set_cell nr nc (A : Matrix T) i j v :
  wf_matrix nr nc A -> wf_matrix nr nc (set_cell A i j v).
Proof.
  intros [[Hr Hc] Hd]. split; [now split|].
  intros i' j' Hi' Hj'. cbn [set_cell data rows cols] in *.
  destruct ((i' =? i) && (j' =? j)); [discriminate | now apply Hd].
Qed.

Lemma inv_rd_a i j : i < n -> j < n -> total Inv (rd a i j) (fun _ => True).
Proof.
  intros Hi Hj. apply total_rd. intros m [[[Hr Hc] Hd] _].
  split; [apply in_storage_lt; lia | apply Hd; lia].
Qed.

Lemma inv_rd_aug i j :
  i < n -> j < 2 * n -> total Inv (rd inv_augmented i j) (fun _ => True).
Proof.
  intros Hi Hj. apply total_rd. intros m [_ [[Hr Hc] Hd]].
  split; [apply in_storage_lt; lia | apply Hd; lia].
Qed.

Lemma inv_wr_aug i j v :
  i < n -> j < 2 * n -> total Inv (wr inv_augmented i j v) (fun _ => True).
Proof.
  intros Hi Hj. apply total_wr; [apply in_storage_lt; lia|].
  intros m [HA Haug]. split.
  - now rewrite load_store_other by exact Ha.
  - rewrite load_store_same. now apply wf_set_cell.
Qed.

(** The elimination loop of [matrix_inverse] runs without fault and keeps
    the augmented matrix written. *)
Lemma elimination_total :
  total Inv
    (for_ret n 0 (fun i =>
      d <- rd inv_augmented i i ;;
      ' (pivot, max_val) <-
        for_acc (n - u8 (i + 1)) (u8 (i + 1)) (i, fabsf d)
          (fun j '(pivot, max_val) =>
             v <- rd inv_augmented j i ;;
             if (fabsf v >? max_val)%fl
             then v' <- rd inv_augmented j i ;; ret (j, fabsf v')
             else ret (pivot, max_val)) ;;
      if (max_val <? f_1em6)%fl then ret (Some false)
      else
        (if negb (pivot =? i) then
           For j from 0 below 2 * n do
             temp <- rd inv_augmented i j ;;
             v <- rd inv_augmented pivot j ;;
             wr inv_augmented i j v ;;
             wr inv_augmented pivot j temp
         else ret tt) ;;
        pivot_val <- rd inv_augmented i i ;;
        (For j from 0 below 2 * n do
           v <- rd inv_augmented i j ;;
           wr inv_augmented i j (v / pivot_val)%fl) ;;
        (For j from 0 below n do
           if negb (j =? i) then
             factor <- rd inv_augmented j i ;;
             For k from 0 below 2 * n do
               vj <- rd inv_augmented j k ;;
               vi <- rd inv_augmented i k ;;
               wr inv_augmented j k (vj - factor * vi)%fl
           else ret tt) ;;
        ret None))
    (fun _ => True).
Proof.
  apply total_for_ret. intros i _ Hi. cbn [Nat.add] in Hi.
  assert (Hu : u8 (i + 1) = i + 1) by (apply Nat.mod_small; lia).
  rewrite Hu.
  apply total_seq; [apply inv_rd_aug; lia|]. intros d.
  apply total_bind with (Q1 := fun x : nat * T => fst x < n).
  - apply total_for_acc; [exact Hi|].
    intros j [pivot max_val] Hlo Hhi Hp.
    apply total_seq; [apply inv_rd_aug; lia|]. intros v.
    destruct (fabsf v >? max_val)%fl.
    + apply total_seq; [apply inv_rd_aug; lia|]. intros v'.
      apply total_ret. cbn [fst]. lia.
    + apply total_ret. exact Hp.
  - intros [pivot max_val] Hp. cbn [fst] in Hp.
    destruct (max_val <? f_1em6)%fl; [now apply total_ret|].
    apply total_seq.
    { destruct (negb (pivot =? i)); [|now apply total_ret].
      apply total_for. intros j _ Hj.
      apply total_seq; [apply inv_rd_aug; lia|]. intros temp.
      apply total_seq; [apply inv_rd_aug; lia|]. intros v.
      apply total_seq; [apply inv_wr_aug; lia|]. intros _.
      apply inv_wr_aug; lia. }
    intros _.
    apply total_seq; [apply inv_rd_aug; lia|]. intros pivot_val.
    apply total_seq.
    { apply total_for. intros j _ Hj.
      apply total_seq; [apply inv_rd_aug; lia|]. intros v.
      apply inv_wr_aug; lia. }
    intros _.
    apply total_seq.
    { apply total_for. intros j _ Hj.
      destruct (negb (j =? i)); [|now apply total_ret].
      apply total_seq; [apply inv_rd_aug; lia|]. intros factor.
      apply total_for. intros k _ Hk.
      apply total_seq; [apply inv_rd_aug; lia|]. intros vj.
      apply total_seq; [apply inv_rd_aug; lia|]. intros vi.
      apply inv_wr_aug; lia. }
    intros _. now apply total_ret.
Qed.

(** The two loops that fill the augmented matrix [A | I]. *)
Lemma augment_total :
  total Inv
    ((For i from 0 below n do
      For j from 0 below n do
        v <- rd a i j ;; wr inv_augmented i j v) ;;
     (For i from 0 below n do wr inv_augmented i (i + n) f_1))
    (fun _ => True).
Proof.
  apply total_seq.
  - apply total_for. intros i _ Hi. apply total_for. intros j _ Hj.
    apply total_seq; [now apply inv_rd_a|]. intros v. apply inv_wr_aug; lia.
  - intros _. apply total_for. intros i _ Hi. apply inv_wr_aug; lia.
Qed.
End InverseSafety.

Section InverseSafe.
Context {T : Type} `{Scalar T}.
Implicit Types (m : mem T).
Local Open Scope c_scope.

(** The loop that copies the right half of the augmented matrix into the
    result. *)
Lemma extract_total r n :
  n <= 8 -> ptr_eqb r inv_augmented = false ->
  total (fun m => wf_matrix n (2 * n) (load inv_augmented m) /\
                  wf_matrix n n (load r m))
    (For i from 0 below n do
     For j from 0 below n do
       v <- rd inv_augmented i (j + n) ;; wr r i j v)
    (fun _ => True).
Proof.
  intros Hn Hr.
  assert (Hr' : ptr_eqb inv_augmented r = false)
    by (unfold ptr_eqb in *; now rewrite Nat.eqb_sym).
  apply total_for. intros i _ Hi. apply total_for. intros j _ Hj.
  apply total_seq.
  - apply total_rd. intros m [[[Hr1 Hc1] Hd1] _].
    split; [apply in_storage_lt; lia | apply Hd1; lia].
  - intros v. apply total_wr; [apply in_storage_lt; lia|].
    intros m [Haug Hres]. split.
    + now rewrite load_store_other by exact Hr'.
    + rewrite load_store_same. now apply wf_set_cell.
Qed.

(** [matrix_inverse] runs to its end on sizes up to 8. *)
Lemma matrix_inverse_runs a r n m :
  n <= 8 ->
  wf_matrix n n (load a m) ->
  ptr_eqb a inv_augmented = false -> ptr_eqb r inv_augmented = false ->
  exists (ok : bool) m',
    matrix_inverse a r m = Ok ok m' /\
    (ok = true -> wf_matrix n n (load r m')) /\
    same_outside [inv_augmented; r] m m'.
Proof.
  intros Hn Hw Ha Hr.
  assert (Hrun : exists (ok : bool) m', matrix_inverse a r m = Ok ok m').
  { destruct Hw as [[Hrows Hcols] Hd].
    unfold matrix_inverse.
    unfold bind at 1, rows_of. unfold bind at 1, cols_of.
    rewrite Hrows, Hcols, Nat.eqb_refl. cbn [negb].
    rewrite u8_small by lia.
    rewrite matrix_create_le by lia.
    unfold bind at 1. unfold assign at 1.
    set (m1 := store inv_augmented _ m).
    assert (Hm1 : inverse_invariant a n m1).
    { split.
      - unfold m1. rewrite load_store_other by exact Ha. now split.
      - unfold m1. rewrite load_store_same. apply wf_tabulate. }
    destruct (augment_total a n Hn Ha m1 Hm1) as [[] [m2 [E2 [Hm2 _]]]].
    rewrite <- bind_assoc. erewrite bind_ok by exact E2.
    destruct (elimination_total a n Hn Ha m2 Hm2) as [res [m3 [E3 [Hm3 _]]]].
    erewrite bind_ok by exact E3.
    destruct res as [b|]; [eexists; eexists; reflexivity|].
    unfold bind at 1. unfold assign at 1.
    rewrite matrix_create_le by lia.
    set (m4 := store r _ m3).
    assert (Hr' : ptr_eqb inv_augmented r = false)
      by (unfold ptr_eqb in *; now rewrite Nat.eqb_sym).
    destruct (extract_total r n Hn Hr m4) as [[] [m5 [E5 _]]].
    { unfold m4. split.
      - rewrite load_store_other by exact Hr'. apply Hm3.
      - rewrite load_store_same. apply wf_tabulate. }
    erewrite bind_ok by exact E5. eexists; eexists; reflexivity. }
  destruct Hrun as [ok [m' E]]. exists ok, m'.
  split; [exact E|]. split.
  - intros ->. pose proof (matrix_inverse_true_wf a r m m' E Hr) as Hwf.
    destruct Hw as [[Hrows Hcols] Hd]. rewrite Hrows in Hwf. apply Hwf. lia.
  - exact (matrix_inverse_frame a r m ok m' E).
Qed.

(** X18.  On a written square matrix of size n <= 8, [matrix_inverse]
    runs to its end: it returns true or false without indexing outside
    [data[16][16]] and without reading a cell that was never written.
    When it returns true the result is a written n x n matrix; in both
    cases only its local [augmented] and its result have changed. *)
Theorem matrix_inverse_safe a r n m :
  n <= 8 ->
  wf_matrix n n (load a m) ->
  ptr_eqb a inv_augmented = false -> ptr_eqb r inv_augmented = false ->
  exists (ok : bool) m',
    matrix_inverse a r m = Ok ok m' /\
    (ok = true -> wf_matrix n n (load r m')) /\
    same_outside [inv_augmented; r] m m'.
Proof. exact (matrix_inverse_runs a r n m). Qed.
End InverseSafe.

Section ExactMatrix.
Import Exact.
Local Open Scope c_scope.
Implicit Types (m : mem R).

(** The dot product of row [i] of [A] with column [j] of the identity. *)
Lemma dot_identity_right (A : Matrix R) n i j : forall k k0 (s : R),
  k0 + k = n -> j < n ->
  dot_from A (mat_identity n) i j k k0 s
  = (s + (if k0 <=? j then cell A i j else 0))%R.
Proof.
  induction k as [|k IH]; intros k0 s Hk Hj.
  - simpl. destruct (Nat.leb_spec k0 j); [lia | ring].
  - simpl. rewrite IH by lia.
    unfold mat_identity. rewrite cell_tabulate by lia.
    cbv [fadd fmul f_0 f_1 f_lit Scalar_R].
    destruct (Nat.eqb_spec k0 j) as [->|Hne].
    + rewrite Nat.leb_refl. destruct (Nat.leb_spec (S j) j); [lia | field].
    + destruct (Nat.leb_spec k0 j), (Nat.leb_spec (S k0) j); try lia; field.
Qed.

Lemma dot_identity_left (A : Matrix R) n i j : forall k k0 (s : R),
  k0 + k = n -> i < n ->
  dot_from (mat_identity n) A i j k k0 s
  = (s + (if k0 <=? i then cell A i j else 0))%R.
Proof.
  induction k as [|k IH]; intros k0 s Hk Hi.
  - simpl. destruct (Nat.leb_spec k0 i); [lia | ring].
  - simpl. rewrite IH by lia.
    unfold mat_identity. rewrite cell_tabulate by lia.
    cbv [fadd fmul f_0 f_1 f_lit Scalar_R].
    destruct (Nat.eqb_spec i k0) as [->|Hne].
    + rewrite Nat.leb_refl. destruct (Nat.leb_spec (S k0) k0); [lia | field].
    + destruct (Nat.leb_spec k0 i), (Nat.leb_spec (S k0) i); try lia; field.
Qed.

(** X22.  In exact arithmetic the matrix of [matrix_identity] is neutral
    for [matrix_multiply] on both sides: for a written r x c matrix A,
    the products A I_c and I_r A have the shape and, inside it, the
    cells of A. *)
Theorem matrix_multiply_identity a b r m :
  let A := load a m in
  ptr_eqb a r = false -> ptr_eqb b r = false ->
  ptr_eqb a b = false -> ptr_eqb a id_m = false ->
  rows A <= 16 -> cols A <= 16 -> defined A ->
  (exists m',
     (I_ <- matrix_identity (cols A) ;; assign b I_ ;; matrix_multiply a b r) m
     = Ok true m' /\
     shape (rows A) (cols A) (load r m') /\
     forall i j, i < rows A -> j < cols A -> data (load r m') i j = data A i j) /\
  (exists m',
     (I_ <- matrix_identity (rows A) ;; assign b I_ ;; matrix_multiply b a r) m
     = Ok true m' /\
     shape (rows A) (cols A) (load r m') /\
     forall i j, i < rows A -> j < cols A -> data (load r m') i j = data A i j).
Proof.
  intros A Har Hbr Hab Hai Hr Hc Hd.
  split.
  - erewrite bind_ok by (apply matrix_identity_spec; exact Hc).
    unfold bind at 1, assign.
    eexists. split.
    + apply matrix_multiply_spec; rewrite ?load_store_same;
        rewrite ?load_store_other by assumption; fold A;
        cbn [rows cols mat_identity tabulate];
        first [assumption | reflexivity | apply tabulate_defined].
    + rewrite load_store_same, load_store_same.
      rewrite !load_store_other by assumption. fold A.
      split; [now split|].
      intros i j Hi Hj. unfold mat_mul. cbn [data tabulate rows cols mat_identity].
      destruct (Nat.ltb_spec i (rows A)); [|lia].
      destruct (Nat.ltb_spec j (cols A)); [|lia]. cbn [andb].
      rewrite (dot_identity_right A (cols A) i j (cols A) 0) by lia.
      cbn [Nat.leb]. rewrite (defined_cell A i j Hd Hi Hj).
      f_equal. cbv [f_0 f_lit Scalar_R]. field.
  - erewrite bind_ok by (apply matrix_identity_spec; exact Hr).
    unfold bind at 1, assign.
    eexists. split.
    + apply matrix_multiply_spec; rewrite ?load_store_same;
        rewrite ?load_store_other by assumption; fold A;
        cbn [rows cols mat_identity tabulate];
        first [assumption | reflexivity | apply tabulate_defined].
    + rewrite load_store_same, load_store_same.
      rewrite !load_store_other by assumption. fold A.
      split; [now split|].
      intros i j Hi Hj. unfold mat_mul. cbn [data tabulate rows cols mat_identity].
      destruct (Nat.ltb_spec i (rows A)); [|lia].
      destruct (Nat.ltb_spec j (cols A)); [|lia]. cbn [andb].
      rewrite (dot_identity_left A (rows A) i j (rows A) 0) by lia.
      cbn [Nat.leb]. rewrite (defined_cell A i j Hd Hi Hj).
      f_equal. cbv [f_0 f_lit Scalar_R]. field.
Qed.
End ExactMatrix.

(* ================================================================== *)
(** ** Core/Src/math/quaternion.c in exact arithmetic *)
(* ================================================================== *)

(** Unfold the operations of [float] to those of the reals. *)
Ltac exact_ops :=
  cbv [fadd fsub fmul fdiv fneg fabsf sqrtf flt fle f_lit
       f_0 f_1 f_2 f_half f_1em6 Exact.Scalar_R Exact.Rltb Exact.Rleb] in *.

(** Equality of two quaternions, or vectors, of real polynomials. *)
Ltac by_components :=
  cbn [qw qx qy qz vx vy vz]; exact_ops; f_equal; try field; try lra.

Section ExactQuaternion.
Import Exact.
Local Open Scope R_scope.
Implicit Types (q : Quaternion R) (v : Vector3f R).

Lemma norm2_nonneg (w x y z : R) : 0 <= w * w + x * x + y * y + z * z.
Proof. nra. Qed.

Lemma sqrt_eq_1 (s : R) : sqrt s = 1 -> s = 1.
Proof.
  intros E. destruct (Rle_dec 0 s) as [Hs|Hs].
  - rewrite <- (sqrt_sqrt s Hs), E. ring.
  - rewrite sqrt_neg_0 in E by lra. lra.
Qed.

(** The norm of a normalized quaternion. *)
Lemma normalize_has_norm_1 q :
  quaternion_magnitude (quaternion_normalize q) = 1.
Proof.
  destruct q as [w x y z].
  unfold quaternion_normalize, quaternion_magnitude, quaternion_identity.
  cbn [qw qx qy qz]. exact_ops.
  set (s := w * w + x * x + y * y + z * z).
  destruct (Rlt_dec (sqrt s) (1 / 1000000)) as [Hlt|Hge]; cbn [qw qx qy qz].
  - replace (1 / 1 * (1 / 1) + 0 / 1 * (0 / 1) + 0 / 1 * (0 / 1) + 0 / 1 * (0 / 1))
      with 1 by field.
    apply sqrt_1.
  - assert (Hs : 0 <= s) by apply norm2_nonneg.
    assert (Hpos : 0 < sqrt s) by lra.
    replace (w * (1 / 1 / sqrt s) * (w * (1 / 1 / sqrt s)) +
             x * (1 / 1 / sqrt s) * (x * (1 / 1 / sqrt s)) +
             y * (1 / 1 / sqrt s) * (y * (1 / 1 / sqrt s)) +
             z * (1 / 1 / sqrt s) * (z * (1 / 1 / sqrt s)))
      with (s / (sqrt s * sqrt s)) by (unfold s in *; field; lra).
    rewrite sqrt_sqrt by exact Hs.
    replace (s / s) with 1 by (field; intros E; rewrite E, sqrt_0 in Hpos; lra).
    apply sqrt_1.
Qed.

(** X1.  In exact arithmetic [quaternion_normalize] returns a quaternion
    of norm 1 on every input: the input divided by its norm, or the
    identity when the norm is below 1e-6. *)
Theorem quaternion_normalize_unit q :
  quaternion_magnitude (quaternion_normalize q) = 1.
Proof. exact (normalize_has_norm_1 q). Qed.

(** X2.  In exact arithmetic [quaternion_multiply] is associative with
    [quaternion_identity] as unit on both sides, [quaternion_conjugate]
    is an involution that reverses products, and the norm of a product
    is the product of the norms. *)
Theorem quaternion_algebra (a b c : Quaternion R) :
  quaternion_multiply (quaternion_multiply a b) c
  = quaternion_multiply a (quaternion_multiply b c) /\
  quaternion_multiply quaternion_identity a = a /\
  quaternion_multiply a quaternion_identity = a /\
  quaternion_conjugate (quaternion_conjugate a) = a /\
  quaternion_conjugate (quaternion_multiply a b)
  = quaternion_multiply (quaternion_conjugate b) (quaternion_conjugate a) /\
  quaternion_magnitude (quaternion_multiply a b)
  = quaternion_magnitude a * quaternion_magnitude b.
Proof.
  destruct a as [aw ax ay az], b as [bw bx b_y bz], c as [cw cx cy cz].
  unfold quaternion_multiply, quaternion_identity, quaternion_conjugate,
    quaternion_magnitude.
  split; [by_components|]. split; [by_components|]. split; [by_components|].
  split; [by_components|]. split; [by_components|].
  cbn [qw qx qy qz]. exact_ops.
  rewrite <- sqrt_mult by apply norm2_nonneg.
  f_equal. ring.
Qed.

(** X3.  In exact arithmetic, when the squared norm of [q] is not below
    1e-6, [quaternion_inverse q] is the inverse of [q] on both sides;
    when it is below, [quaternion_inverse] returns the identity. *)
Theorem quaternion_inverse_cancels q :
  if (qw q * qw q + qx q * qx q + qy q * qy q + qz q * qz q <? f_1em6)%fl
  then quaternion_inverse q = quaternion_identity
  else quaternion_multiply q (quaternion_inverse q) = quaternion_identity /\
       quaternion_multiply (quaternion_inverse q) q = quaternion_identity.
Proof.
  destruct q as [w x y z].
  unfold quaternion_inverse, quaternion_multiply, quaternion_conjugate,
    quaternion_identity.
  cbn [qw qx qy qz]. exact_ops.
  destruct (Rlt_dec (w * w + x * x + y * y + z * z) (1 / 1000000)) as [Hlt|Hge];
    [reflexivity|].
  assert (Hne : w * w + x * x + y * y + z * z <> 0) by lra.
  split; cbn [qw qx qy qz]; f_equal; field; exact Hne.
Qed.

(** X4.  In exact arithmetic [quaternion_rotate_vector q] multiplies the
    length of every vector by |q|^2; a quaternion of norm 1 preserves
    lengths. *)
Theorem rotation_scales_length q v :
  vector3f_magnitude (quaternion_rotate_vector q v)
  = quaternion_magnitude q * quaternion_magnitude q * vector3f_magnitude v.
Proof.
  destruct q as [w x y z], v as [a b c].
  unfold vector3f_magnitude, quaternion_rotate_vector, rotation_entries,
    quaternion_magnitude.
  cbn [qw qx qy qz vx vy vz]. exact_ops.
  set (n := w * w + x * x + y * y + z * z).
  assert (Hn : 0 <= n) by apply norm2_nonneg.
  rewrite (sqrt_sqrt n Hn).
  rewrite <- (sqrt_square n Hn) at 1.
  rewrite <- sqrt_mult; [| nra | nra].
  f_equal. unfold n. field.
Qed.

(** X5.  In exact arithmetic rotating by a product is rotating by its
    factors in turn: R(a (x) b) v = R(a) (R(b) v), for all quaternions. *)
Theorem rotation_composes (a b : Quaternion R) v :
  quaternion_rotate_vector (quaternion_multiply a b) v
  = quaternion_rotate_vector a (quaternion_rotate_vector b v).
Proof.
  destruct a as [aw ax ay az], b as [bw bx b_y bz], v as [v1 v2 v3].
  unfold quaternion_rotate_vector, rotation_entries, quaternion_multiply.
  by_components.
Qed.

(** X6.  In exact arithmetic, for a quaternion of norm 1, rotating by the
    conjugate undoes the rotation. *)
Theorem rotation_conjugate_round_trip q v :
  quaternion_magnitude q = 1 ->
  quaternion_rotate_vector (quaternion_conjugate q) (quaternion_rotate_vector q v) = v.
Proof.
  destruct q as [w x y z], v as [a b c].
  unfold quaternion_magnitude. cbn [qw qx qy qz]. exact_ops.
  intros Hn. apply sqrt_eq_1 in Hn.
  unfold quaternion_rotate_vector, rotation_entries, quaternion_conjugate.
  cbn [qw qx qy qz vx vy vz]. exact_ops.
  set (n := w * w + x * x + y * y + z * z) in *.
  f_equal.
  - transitivity (n * n * a); [unfold n; field | rewrite Hn; ring].
  - transitivity (n * n * b); [unfold n; field | rewrite Hn; ring].
  - transitivity (n * n * c); [unfold n; field | rewrite Hn; ring].
Qed.

(** X8.  In exact arithmetic the quaternion that [quaternion_from_euler]
    builds from the half-angle sines and cosines has norm 1 already, so
    the final [quaternion_normalize] returns it unchanged. *)
Theorem quaternion_from_euler_exact (roll pitch yaw : R) :
  let cr := cos (roll * (1 / 2)) in
  let sr := sin (roll * (1 / 2)) in
  let cp := cos (pitch * (1 / 2)) in
  let sp := sin (pitch * (1 / 2)) in
  let cy := cos (yaw * (1 / 2)) in
  let sy := sin (yaw * (1 / 2)) in
  quaternion_from_euler roll pitch yaw
  = mkQuaternion (cr * cp * cy + sr * sp * sy)
                 (sr * cp * cy - cr * sp * sy)
                 (cr * sp * cy + sr * cp * sy)
                 (cr * cp * sy - sr * sp * cy).
Proof.
  intros cr sr cp sp cy sy.
  unfold quaternion_from_euler, quaternion_normalize, quaternion_magnitude.
  cbn [qw qx qy qz cosf sinf Libm_R]. exact_ops.
  fold cr sr cp sp cy sy.
  assert (Hr : sr * sr + cr * cr = 1) by apply sin2_cos2.
  assert (Hp : sp * sp + cp * cp = 1) by apply sin2_cos2.
  assert (Hy : sy * sy + cy * cy = 1) by apply sin2_cos2.
  replace ((cr * cp * cy + sr * sp * sy) * (cr * cp * cy + sr * sp * sy) +
           (sr * cp * cy - cr * sp * sy) * (sr * cp * cy - cr * sp * sy) +
           (cr * sp * cy + sr * cp * sy) * (cr * sp * cy + sr * cp * sy) +
           (cr * cp * sy - sr * sp * cy) * (cr * cp * sy - sr * sp * cy))
    with ((sr * sr + cr * cr) * (sp * sp + cp * cp) * (sy * sy + cy * cy)) by ring.
  rewrite Hr, Hp, Hy.
  replace (1 * 1 * 1) with 1 by ring. rewrite sqrt_1.
  destruct (Rlt_dec 1 (1 / 1000000)) as [Hlt|_]; [lra|].
  f_equal; field.
Qed.
End ExactQuaternion.

(* ================================================================== *)
(** ** Core/Src/math/vector3f.c in exact arithmetic *)
(* ================================================================== *)

Section ExactVector.
Import Exact vector3f_c.
Local Open Scope R_scope.
Implicit Types (u v : Vector3f R).

(** X9.  In exact arithmetic [vector3f_cross u v] is orthogonal to [u]
    and to [v], and exchanging the operands negates it. *)
Theorem vector3f_cross_orthogonal u v :
  vector3f_dot (vector3f_cross u v) u = 0 /\
  vector3f_dot (vector3f_cross u v) v = 0 /\
  vector3f_cross v u = vector3f_scale (vector3f_cross u v) (-1).
Proof.
  destruct u as [a b c], v as [d e f].
  unfold vector3f_dot, vector3f_cross, vector3f_scale.
  cbn [vx vy vz]. exact_ops.
  split; [field|]. split; [field|]. f_equal; field.
Qed.

(** The two cases of [vector3f_normalize] of vector3f.c. *)
Lemma vector3f_normalize_cases v :
  (if (vector3f_magnitude v >? f_1em6)%fl
   then vector3f_magnitude (vector3f_normalize v) = 1
   else vector3f_normalize v = v).
Proof.
  destruct v as [a b c].
  unfold vector3f_normalize, vector3f_magnitude.
  cbn [vx vy vz]. exact_ops.
  set (s := a * a + b * b + c * c).
  destruct (Rlt_dec (1 / 1000000) (sqrt s)) as [Hgt|Hle]; [|reflexivity].
  cbn [vx vy vz].
  assert (Hs : 0 <= s) by (unfold s; nra).
  assert (Hpos : 0 < sqrt s) by lra.
  replace (a * (1 / 1 / sqrt s) * (a * (1 / 1 / sqrt s)) +
           b * (1 / 1 / sqrt s) * (b * (1 / 1 / sqrt s)) +
           c * (1 / 1 / sqrt s) * (c * (1 / 1 / sqrt s)))
    with (s / (sqrt s * sqrt s)) by (unfold s in *; field; lra).
  rewrite sqrt_sqrt by exact Hs.
  replace (s / s) with 1 by (field; intros E; rewrite E, sqrt_0 in Hpos; lra).
  apply sqrt_1.
Qed.

(** X10.  In exact arithmetic [vector3f_normalize] of vector3f.c returns
    a vector of length 1 when the length of its input exceeds 1e-6, and
    its input unchanged otherwise. *)
Theorem vector3f_normalize_unit v :
  (if (vector3f_magnitude v >? f_1em6)%fl
   then vector3f_magnitude (vector3f_normalize v) = 1
   else vector3f_normalize v = v).
Proof. exact (vector3f_normalize_cases v). Qed.

(** X11.  In exact arithmetic [vector3f_equals] and [vector3f_angle] do
    not depend on the order of the two vectors; [vector3f_equals] holds
    between a vector and itself exactly when the tolerance is not
    negative; [vector3f_angle] is 0 as soon as its first vector is
    shorter than 1e-6, and otherwise the angle between that vector and
    itself is 0. *)
Theorem vector3f_angle_equals u v (epsilon : R) :
  vector3f_equals u v epsilon = vector3f_equals v u epsilon /\
  vector3f_equals u u epsilon = negb (epsilon <? f_0)%fl /\
  vector3f_angle u v = vector3f_angle v u /\
  (if (vector3f_magnitude u <? f_1em6)%fl
   then vector3f_angle u v = 0
   else vector3f_angle u u = 0).
Proof.
  destruct u as [a b c], v as [d e f].
  unfold vector3f_equals, vector3f_angle, vector3f_magnitude, vector3f_dot.
  cbn [vx vy vz acosf Acos_R]. exact_ops.
  set (s := a * a + b * b + c * c).
  set (t := d * d + e * e + f * f).
  split; [|split; [|split]].
  - rewrite (Rabs_minus_sym a d), (Rabs_minus_sym b e), (Rabs_minus_sym c f).
    reflexivity.
  - replace (a - a) with 0 by ring. replace (b - b) with 0 by ring.
    replace (c - c) with 0 by ring. rewrite Rabs_R0.
    destruct (Rlt_dec epsilon 0), (Rlt_dec epsilon (0 / 1)); try reflexivity; lra.
  - rewrite (orb_comm (if Rlt_dec (sqrt s) _ then true else false)).
    replace (d * a + e * b + f * c) with (a * d + b * e + c * f) by ring.
    rewrite (Rmult_comm (sqrt t) (sqrt s)). reflexivity.
  - destruct (Rlt_dec (sqrt s) (1 / 1000000)) as [Hlt|Hge]; cbn [orb].
    + field.
    + assert (Hs : 0 <= s) by (unfold s; nra).
      rewrite sqrt_sqrt by exact Hs.
      assert (Hne : s <> 0) by (intros E; rewrite E, sqrt_0 in Hge; lra).
      replace (s / s) with 1 by (field; exact Hne).
      destruct (Rlt_dec (1 / 1) 1) as [|_]; [lra|].
      destruct (Rlt_dec 1 (- (1 / 1))) as [|_]; [lra|].
      apply acos_1.
Qed.

(** [vector3f_normalize] returns a multiple of its input. *)
Lemma vector3f_normalize_scaling v :
  exists k : R, vector3f_normalize v = mkVector3f (vx v * k) (vy v * k) (vz v * k).
Proof.
  unfold vector3f_normalize.
  destruct (vector3f_magnitude v >? f_1em6)%fl.
  - eexists. reflexivity.
  - exists 1. destruct v as [a b c]. cbn [vx vy vz]. f_equal; ring.
Qed.
End ExactVector.

(* ================================================================== *)
(** ** Core/Src/ekf/ekf_mag_calibration.c in exact arithmetic *)
(* ================================================================== *)

Section ExactCalibration.
Import Exact vector3f_c.
Local Open Scope R_scope.

(** X12.  In exact arithmetic the three rows (north, east, down) of the
    matrix that [ekf_compute_ned_transform] writes are orthogonal to one
    another, whatever the accelerometer vector is. *)
Theorem ned_transform_rows_orthogonal (accel : Vector3f R) :
  let dcm := ekf_compute_ned_transform accel in
  let row i := mkVector3f (nth (3 * i) dcm 0) (nth (3 * i + 1) dcm 0)
                          (nth (3 * i + 2) dcm 0) in
  vector3f_dot (row 0%nat) (row 2%nat) = 0 /\
  vector3f_dot (row 1%nat) (row 2%nat) = 0 /\
  vector3f_dot (row 0%nat) (row 1%nat) = 0.
Proof.
  unfold ekf_compute_ned_transform. cbv zeta.
  destruct (vector3f_normalize_scaling (vector3f_scale accel (- f_1)%fl)) as [k1 ->].
  match goal with
  | |- context [vector3f_normalize (vector3f_cross ?d ?e)] =>
      destruct (vector3f_normalize_scaling (vector3f_cross d e)) as [k2 ->]
  end.
  match goal with
  | |- context [vector3f_normalize (vector3f_cross ?d ?e)] =>
      destruct (vector3f_normalize_scaling (vector3f_cross d e)) as [k3 ->]
  end.
  destruct accel as [a b c].
  unfold vector3f_dot, vector3f_cross, vector3f_scale, vector3f_create.
  cbn [nth Nat.mul Nat.add vx vy vz]. exact_ops.
  repeat split; field.
Qed.
End ExactCalibration.

Section Calibration.
Context {T : Type} `{Scalar T}.
Implicit Types (m : mem T).
Local Open Scope c_scope.

(** The averaging loop of [ekf_calibrate_magnetic_field] stays inside
    the two sample arrays. *)
Lemma averaging_loop (mag acc : list (Vector3f T)) m : forall n i0 sums,
  i0 + n <= length mag -> i0 + n <= length acc ->
  exists sums',
    for_acc n i0 sums
      (fun i '(avg_mag, avg_accel) =>
         sm <- sample mag i ;;
         sa <- sample acc i ;;
         ret (vector3f_c.vector3f_add avg_mag sm, vector3f_c.vector3f_add avg_accel sa)) m
    = Ok sums' m.
Proof.
  induction n as [|n IH]; intros i0 [s1 s2] Hm Ha.
  - eexists. reflexivity.
  - simpl. unfold sample at 1 2.
    destruct (nth_error mag i0) as [sm|] eqn:Em.
    2:{ apply nth_error_None in Em. lia. }
    destruct (nth_error acc i0) as [sa|] eqn:Ea.
    2:{ apply nth_error_None in Ea. lia. }
    unfold bind at 1. unfold bind at 1. unfold ret at 1. unfold bind at 1.
    unfold ret at 1. unfold ret at 1.
    apply IH; lia.
Qed.

(** [ekf_calibrate_magnetic_field] on [sample_count] samples that the
    two arrays hold. *)
Lemma calibration_runs (mag acc : list (Vector3f T)) count m :
  (0 < count)%Z ->
  Z.to_nat count <= length mag -> Z.to_nat count <= length acc ->
  exists v, ekf_calibrate_magnetic_field (Some mag) (Some acc) count m
            = Ok (vector3f_c.vector3f_normalize v) m.
Proof.
  intros Hc Hm Ha. unfold ekf_calibrate_magnetic_field.
  destruct (Z.leb_spec count 0); [lia|].
  destruct (averaging_loop mag acc m (Z.to_nat count) 0
              (vector3f_c.vector3f_zero, vector3f_c.vector3f_zero) Hm Ha)
    as [[s1 s2] E].
  erewrite bind_ok by exact E. eexists. reflexivity.
Qed.
End Calibration.

Section ExactCalibrationResult.
Import Exact.
Local Open Scope R_scope.

(** X13.  In exact arithmetic, on [sample_count] > 0 samples that the two
    arrays hold, [ekf_calibrate_magnetic_field] reads no element beyond
    them and returns a vector of length 1, or of length at most 1e-6
    when the transformed average is that short. *)
Theorem calibration_result (mag acc : list (Vector3f R)) count (m : mem R) :
  (0 < count)%Z ->
  (Z.to_nat count <= length mag)%nat -> (Z.to_nat count <= length acc)%nat ->
  exists v,
    ekf_calibrate_magnetic_field (Some mag) (Some acc) count m = Ok v m /\
    (vector3f_c.vector3f_magnitude v = 1 \/
     vector3f_c.vector3f_magnitude v <= 1 / 1000000).
Proof.
  intros Hc Hm Ha.
  destruct (calibration_runs mag acc count m Hc Hm Ha) as [v E].
  eexists. split; [exact E|].
  pose proof (vector3f_normalize_cases v) as Hu.
  destruct (vector3f_c.vector3f_magnitude v >? f_1em6)%fl eqn:Hg.
  - left. exact Hu.
  - right. rewrite Hu. revert Hg. exact_ops.
    destruct (Rlt_dec _ _); [discriminate | intros _; lra].
Qed.
End ExactCalibrationResult.

(** Rewrite the projections [mats m p] of a goal as loads. *)
Ltac as_loads :=
  unfold load; cbn [mats];
  repeat match goal with
         | |- context [mats ?a ?b] => change (mats a b) with (load b a)
         end;
  mem_norm.

Section LifecycleTheorems.
Context {T : Type} `{Scalar T}.
Implicit Types (m : mem T).
Local Open Scope c_scope.

(** The store that [ekf_init] leaves. *)
Lemma ekf_init_store m :
  exists m',
    ekf_init m = Ok true m' /\
    load ekf_x m' = tabulate 16 1 (fun _ _ => f_0) /\
    load ekf_P m' = overwrite (tabulate 16 16 (fun _ _ => f_0))
                      (fun i j => if i =? j then f_1 else f_0) /\
    load ekf_Q m' = overwrite (tabulate 16 16 (fun _ _ => f_0))
                      (fun i j => if i =? j then f_lit 1 100 else f_0) /\
    load ekf_R_gps m'
    = overwrite (tabulate 6 6 (fun _ _ => f_0))
        (fun i j => if (i =? j) && (i <? 6)
                    then nth i [f_lit 5 1; f_lit 5 1; f_lit 10 1; f_half; f_half; f_1] f_0
                    else f_0) /\
    load ekf_R_baro m' = mkMatrix (upd (data (tabulate 1 1 (fun _ _ => f_0))) 0 0 f_1) 1 1 /\
    load ekf_R_mag m' = overwrite (tabulate 3 3 (fun _ _ => f_0))
                          (fun i j => if i =? j then f_lit 1 10 else f_0) /\
    gravity m' = f_lit 980665 100000 /\
    earth_mag_ned m' = mkVector3f (f_lit 29 100) (- f_lit 5 100)%fl (f_lit 42 100) /\
    initialized m' = false.
Proof.
  unfold ekf_init. state_indices.
  rewrite !matrix_create_le by lia.
  unfold bind at 1, assign. unfold bind at 1.
  erewrite bind_ok; [| apply matrix_diagonal_spec; mem_norm; cbn [rows cols tabulate]; lia].
  mem_norm.
  unfold bind at 1.
  erewrite bind_ok; [| apply matrix_diagonal_spec; mem_norm; cbn [rows cols tabulate]; lia].
  mem_norm.
  unfold bind at 1.
  erewrite bind_ok;
    [| apply matrix_diagonal_vector_spec; mem_norm; cbn [rows cols tabulate length]; lia].
  mem_norm.
  unfold bind at 1.
  run_set.
  unfold bind at 1.
  erewrite bind_ok; [| apply matrix_diagonal_spec; mem_norm; cbn [rows cols tabulate]; lia].
  mem_norm.
  eexists. split; [reflexivity|].
  repeat split; as_loads; reflexivity.
Qed.

(** The filter that [ekf_init] leaves. *)
Lemma ekf_init_run m :
  exists m',
    ekf_init m = Ok true m' /\
    wf_filter m' /\
    initialized m' = false /\
    (forall i, i < 16 -> data (load ekf_x m') i 0 = Some f_0) /\
    (forall i j, i < 16 -> j < 16 ->
       data (load ekf_P m') i j = Some (if i =? j then f_1 else f_0)) /\
    (forall i j, i < 16 -> j < 16 ->
       data (load ekf_Q m') i j = Some (if i =? j then f_lit 1 100 else f_0)) /\
    (forall i j, i < 6 -> j < 6 ->
       data (load ekf_R_gps m') i j
       = Some (if i =? j
               then nth i [f_lit 5 1; f_lit 5 1; f_lit 10 1; f_half; f_half; f_1] f_0
               else f_0)) /\
    data (load ekf_R_baro m') 0 0 = Some f_1 /\
    (forall i j, i < 3 -> j < 3 ->
       data (load ekf_R_mag m') i j = Some (if i =? j then f_lit 1 10 else f_0)) /\
    gravity m' = f_lit 980665 100000 /\
    earth_mag_ned m' = mkVector3f (f_lit 29 100) (- f_lit 5 100)%fl (f_lit 42 100).
Proof.
  destruct (ekf_init_store m)
    as [m' [E [Hx [HP [HQ [HRg [HRb [HRm [Hg [He Hi]]]]]]]]]].
  exists m'. split; [exact E|].
  rewrite Hx, HP, HQ, HRg, HRb, HRm.
  split.
  { unfold wf_filter. rewrite Hx, HP, HQ, HRg, HRb, HRm.
    split; [apply wf_tabulate|].
    split; [exact (wf_overwrite (tabulate 16 16 _) _)|].
    split; [exact (wf_overwrite (tabulate 16 16 _) _)|].
    split; [exact (wf_overwrite (tabulate 6 6 _) _)|].
    split; [| exact (wf_overwrite (tabulate 3 3 _) _)].
    apply (wf_upd 1 1 (tabulate 1 1 _)), wf_tabulate. }
  split; [exact Hi|].
  cbn [data overwrite tabulate rows cols].
  split; [intros i Hi'; cases|].
  split; [intros i j Hi' Hj; cases|].
  split; [intros i j Hi' Hj; cases|].
  split; [intros i j Hi' Hj; cases|].
  split; [reflexivity|].
  split; [intros i j Hi' Hj; cases|].
  split; [exact Hg | exact He].
Qed.

(** X23.  From any store, [ekf_init] returns true and leaves a filter that
    is not initialized, with matrices of the shapes 16x1, 16x16, 16x16,
    6x6, 1x1 and 3x3: a zero state vector (its quaternion part included),
    P the identity, Q = 0.01 I, R_gps = diag(5, 5, 10, 0.5, 0.5, 1),
    R_baro = (1), R_mag = 0.1 I, gravity 9.80665 and the earth field
    (0.29, -0.05, 0.42). *)
Theorem ekf_init_establishes m :
  exists m',
    ekf_init m = Ok true m' /\
    wf_filter m' /\
    initialized m' = false /\
    (forall i, i < 16 -> data (load ekf_x m') i 0 = Some f_0) /\
    (forall i j, i < 16 -> j < 16 ->
       data (load ekf_P m') i j = Some (if i =? j then f_1 else f_0)) /\
    (forall i j, i < 16 -> j < 16 ->
       data (load ekf_Q m') i j = Some (if i =? j then f_lit 1 100 else f_0)) /\
    (forall i j, i < 6 -> j < 6 ->
       data (load ekf_R_gps m') i j
       = Some (if i =? j
               then nth i [f_lit 5 1; f_lit 5 1; f_lit 10 1; f_half; f_half; f_1] f_0
               else f_0)) /\
    data (load ekf_R_baro m') 0 0 = Some f_1 /\
    (forall i j, i < 3 -> j < 3 ->
       data (load ekf_R_mag m') i j = Some (if i =? j then f_lit 1 10 else f_0)) /\
    gravity m' = f_lit 980665 100000 /\
    earth_mag_ned m' = mkVector3f (f_lit 29 100) (- f_lit 5 100)%fl (f_lit 42 100).
Proof. exact (ekf_init_run m). Qed.

Lemma ekf_get_gyro_bias_run m :
  wf_matrix 16 1 (load ekf_x m) -> initialized m = true ->
  ekf_get_gyro_bias m = Ok (gyro_bias m) m.
Proof.
  intros Hx Hi. unfold ekf_get_gyro_bias. state_indices.
  unfold bind at 1, get_initialized. rewrite Hi. cbn [negb].
  do 3 (erewrite bind_ok; [| apply get_state_component; [exact Hx | lia]]).
  reflexivity.
Qed.

Lemma ekf_get_accel_bias_run m :
  wf_matrix 16 1 (load ekf_x m) -> initialized m = true ->
  ekf_get_accel_bias m = Ok (accel_bias m) m.
Proof.
  intros Hx Hi. unfold ekf_get_accel_bias. state_indices.
  unfold bind at 1, get_initialized. rewrite Hi. cbn [negb].
  do 3 (erewrite bind_ok; [| apply get_state_component; [exact Hx | lia]]).
  reflexivity.
Qed.

(** The store that [ekf_set_initial_state] leaves. *)
Lemma ekf_set_initial_state_store m pos vel q :
  wf_filter m ->
  exists m',
    ekf_set_initial_state pos vel q m = Ok true m' /\
    state_quaternion m' = quaternion_normalize q /\
    position m' = pos /\ velocity m' = vel /\
    gyro_bias m' = vector3f_zero /\ accel_bias m' = vector3f_zero /\
    wf_filter m' /\
    initialized m' = true /\
    load ekf_P m' = overwrite (load ekf_P m)
                      (fun i j => if (i =? j) && (i <? 16)
                                  then nth i initial_p_diag f_0 else f_0) /\
    (forall p, only [ekf_x; ekf_P] p = false -> load p m' = load p m) /\
    gravity m' = gravity m /\ earth_mag_ned m' = earth_mag_ned m.
Proof.
  intros Hw.
  assert (Hx : wf_matrix 16 1 (load ekf_x m)) by apply Hw.
  destruct Hx as [[Hxr Hxc] Hxd].
  destruct Hw as [_ [[[HPr HPc] HPd] HwQ]].
  unfold ekf_set_initial_state. state_indices. cbv zeta.
  do 16 run_set.
  erewrite bind_ok;
    [| apply matrix_diagonal_vector_spec; mem_norm; cbn [length initial_p_diag]; lia].
  mem_norm.
  eexists. split; [reflexivity|].
  unfold wf_filter, state_quaternion, position, velocity, gyro_bias, accel_bias,
    state_vector3, state_component.
  as_loads. state_indices. mem_norm.
  unfold cell. cbn [data]. unfold upd. cbn [Nat.eqb andb Nat.add].
  split; [symmetry; apply quaternion_eta|].
  split; [now destruct pos|].
  split; [now destruct vel|].
  split; [reflexivity|]. split; [reflexivity|].
  split.
  { split; [split; [now split | rewrite Hxr, Hxc; defined_by_sets]|].
    split; [| exact HwQ].
    rewrite <- HPr at 1. rewrite <- HPc at 1. apply wf_overwrite. }
  split; [reflexivity|]. split; [reflexivity|].
  split; [| now split].
  intros p Hp. simpl in Hp.
  apply orb_false_elim in Hp. destruct Hp as [Hp1 Hp].
  apply orb_false_elim in Hp. destruct Hp as [Hp2 _].
  as_loads. rewrite load_store_other by exact Hp2.
  rewrite load_with_data_other by exact Hp1. reflexivity.
Qed.

(** X24.  On a filter whose matrices have their shapes,
    [ekf_set_initial_state] returns true and marks the filter
    initialized; afterwards the accessors read back the position and the
    velocity given, zero biases, and as attitude the given quaternion
    normalized twice (once by the setter, once by [ekf_get_attitude]).
    The covariance is the diagonal (10, 10, 10, 1, 1, 1, 0.1 x 4,
    0.01 x 3, 0.1 x 3); Q and the measurement noises are untouched. *)
Theorem initial_state_round_trip m pos vel q :
  wf_filter m ->
  exists m',
    ekf_set_initial_state pos vel q m = Ok true m' /\
    initialized m' = true /\ wf_filter m' /\
    ekf_get_position m' = Ok pos m' /\
    ekf_get_velocity m' = Ok vel m' /\
    ekf_get_attitude m' = Ok (quaternion_normalize (quaternion_normalize q)) m' /\
    ekf_get_gyro_bias m' = Ok vector3f_zero m' /\
    ekf_get_accel_bias m' = Ok vector3f_zero m' /\
    (forall i j, i < 16 -> j < 16 ->
       data (load ekf_P m') i j = Some (if i =? j then nth i initial_p_diag f_0 else f_0)) /\
    load ekf_Q m' = load ekf_Q m /\
    load ekf_R_gps m' = load ekf_R_gps m /\
    load ekf_R_baro m' = load ekf_R_baro m /\
    load ekf_R_mag m' = load ekf_R_mag m.
Proof.
  intros Hw.
  destruct (ekf_set_initial_state_store m pos vel q Hw)
    as [m' [E [Hq [Hp [Hv [Hg [Ha [Hw' [Hi [HP [Hl _]]]]]]]]]]].
  pose proof (Hl ekf_Q eq_refl) as HlQ.
  pose proof (Hl ekf_R_gps eq_refl) as HlG.
  pose proof (Hl ekf_R_baro eq_refl) as HlB.
  pose proof (Hl ekf_R_mag eq_refl) as HlM.
  assert (Hx : wf_matrix 16 1 (load ekf_x m')) by apply Hw'.
  exists m'. split; [exact E|]. split; [exact Hi|]. split; [exact Hw'|].
  split; [rewrite ekf_get_position_run by assumption; f_equal; exact Hp|].
  split; [rewrite ekf_get_velocity_run by assumption; f_equal; exact Hv|].
  split; [rewrite ekf_get_attitude_run by assumption; now rewrite Hq|].
  split; [rewrite ekf_get_gyro_bias_run by assumption; now rewrite Hg|].
  split; [rewrite ekf_get_accel_bias_run by assumption; now rewrite Ha|].
  split.
  { intros i j Hi' Hj. rewrite HP. cbn [data overwrite].
    destruct Hw as [_ [[[HPr HPc] _] _]]. rewrite HPr, HPc. cases. }
  repeat split; assumption.
Qed.
End LifecycleTheorems.

(** The frame of a setter that writes the matrix [p] only. *)
Ltac setter_frame :=
  split; [| now repeat split];
  let q := fresh "q" in
  let Hq := fresh "Hq" in
  intros q Hq; simpl in Hq; rewrite orb_false_r in Hq;
  rewrite load_with_data_other by exact Hq; reflexivity.

Section NoiseSetters.
Context {T : Type} `{Scalar T}.
Implicit Types (m : mem T).
Local Open Scope c_scope.
Local Open Scope fl_scope.

Lemma ekf_set_gps_noise_run m pos_std vel_std :
  wf_matrix 6 6 (load ekf_R_gps m) ->
  exists m',
    ekf_set_gps_noise pos_std vel_std m = Ok true m' /\
    shape 6 6 (load ekf_R_gps m') /\
    (forall i j, (i < 6)%nat -> (j < 6)%nat ->
       data (load ekf_R_gps m') i j
       = Some (if (i =? j)%nat
               then (if (i <? 3)%nat then pos_std * pos_std else vel_std * vel_std)
               else f_0)) /\
    same_outside [ekf_R_gps] m m'.
Proof.
  intros [[Hr Hc] Hd].
  unfold ekf_set_gps_noise.
  erewrite bind_ok; [| apply matrix_zero_spec; lia].
  do 6 run_set.
  eexists. split; [reflexivity|]. mem_norm.
  split; [now split|]. split.
  - intros i j Hi Hj. rewrite Hr, Hc. unfold upd.
    do 6 (destruct i as [|i]; [do 6 (destruct j as [|j]; [reflexivity|]); lia|]). lia.
  - setter_frame.
Qed.

Lemma ekf_set_process_noise_run m pos_std vel_std att_std gyro_bias_std acc_bias_std :
  wf_matrix 16 16 (load ekf_Q m) ->
  exists m',
    ekf_set_process_noise pos_std vel_std att_std gyro_bias_std acc_bias_std m
    = Ok true m' /\
    shape 16 16 (load ekf_Q m') /\
    (forall i j, (i < 16)%nat -> (j < 16)%nat ->
       data (load ekf_Q m') i j
       = Some (if (i =? j)%nat
               then (if (i <? 3)%nat then pos_std * pos_std
                     else if (i <? 6)%nat then vel_std * vel_std
                     else if (i <? 10)%nat then att_std * att_std
                     else if (i <? 13)%nat then gyro_bias_std * gyro_bias_std
                     else acc_bias_std * acc_bias_std)
               else f_0)) /\
    same_outside [ekf_Q] m m'.
Proof.
  intros [[Hr Hc] Hd].
  unfold ekf_set_process_noise. state_indices.
  erewrite bind_ok; [| apply matrix_zero_spec; lia].
  do 16 run_set.
  eexists. split; [reflexivity|]. mem_norm.
  split; [now split|]. split.
  - intros i j Hi Hj. rewrite Hr, Hc. unfold upd.
    do 16 (destruct i as [|i]; [do 16 (destruct j as [|j]; [reflexivity|]); lia|]). lia.
  - setter_frame.
Qed.

Lemma ekf_set_baro_noise_run m baro_std :
  wf_matrix 1 1 (load ekf_R_baro m) ->
  exists m',
    ekf_set_baro_noise baro_std m = Ok true m' /\
    shape 1 1 (load ekf_R_baro m') /\
    data (load ekf_R_baro m') 0 0 = Some (baro_std * baro_std) /\
    same_outside [ekf_R_baro] m m'.
Proof.
  intros [[Hr Hc] Hd].
  unfold ekf_set_baro_noise.
  run_set.
  eexists. split; [reflexivity|]. mem_norm.
  split; [now split|]. split; [reflexivity|]. setter_frame.
Qed.

Lemma ekf_set_mag_noise_run m mag_std :
  wf_matrix 3 3 (load ekf_R_mag m) ->
  exists m',
    ekf_set_mag_noise mag_std m = Ok true m' /\
    shape 3 3 (load ekf_R_mag m') /\
    (forall i j, (i < 3)%nat -> (j < 3)%nat ->
       data (load ekf_R_mag m') i j
       = Some (if (i =? j)%nat then mag_std * mag_std else f_0)) /\
    same_outside [ekf_R_mag] m m'.
Proof.
  intros [[Hr Hc] Hd].
  unfold ekf_set_mag_noise.
  erewrite bind_ok; [| apply matrix_zero_spec; lia].
  do 3 run_set.
  eexists. split; [reflexivity|]. mem_norm.
  split; [now split|]. split.
  - intros i j Hi Hj. rewrite Hr, Hc. unfold upd.
    do 3 (destruct i as [|i]; [do 3 (destruct j as [|j]; [reflexivity|]); lia|]). lia.
  - setter_frame.
Qed.

(** X25.  On a filter whose matrices have their shapes, the four noise
    setters return true and store the squares of the standard deviations
    they are given on the diagonal of their matrix, zeros elsewhere:
    [ekf_set_process_noise] on Q by blocks of 3, 3, 4, 3 and 3 components,
    [ekf_set_gps_noise] on R_gps by blocks of 3 and 3,
    [ekf_set_baro_noise] on the one cell of R_baro and [ekf_set_mag_noise]
    on R_mag.  Each leaves every other matrix and field of the filter as
    it was. *)
Theorem noise_setters_store_variances m :
  wf_filter m ->
  (forall pos_std vel_std att_std gyro_bias_std acc_bias_std, exists m',
     ekf_set_process_noise pos_std vel_std att_std gyro_bias_std acc_bias_std m
     = Ok true m' /\
     shape 16 16 (load ekf_Q m') /\
     (forall i j, (i < 16)%nat -> (j < 16)%nat ->
        data (load ekf_Q m') i j
        = Some (if (i =? j)%nat
                then (if (i <? 3)%nat then pos_std * pos_std
                      else if (i <? 6)%nat then vel_std * vel_std
                      else if (i <? 10)%nat then att_std * att_std
                      else if (i <? 13)%nat then gyro_bias_std * gyro_bias_std
                      else acc_bias_std * acc_bias_std)
                else f_0)) /\
     same_outside [ekf_Q] m m') /\
  (forall pos_std vel_std, exists m',
     ekf_set_gps_noise pos_std vel_std m = Ok true m' /\
     shape 6 6 (load ekf_R_gps m') /\
     (forall i j, (i < 6)%nat -> (j < 6)%nat ->
        data (load ekf_R_gps m') i j
        = Some (if (i =? j)%nat
                then (if (i <? 3)%nat then pos_std * pos_std else vel_std * vel_std)
                else f_0)) /\
     same_outside [ekf_R_gps] m m') /\
  (forall baro_std, exists m',
     ekf_set_baro_noise baro_std m = Ok true m' /\
     shape 1 1 (load ekf_R_baro m') /\
     data (load ekf_R_baro m') 0 0 = Some (baro_std * baro_std) /\
     same_outside [ekf_R_baro] m m') /\
  (forall mag_std, exists m',
     ekf_set_mag_noise mag_std m = Ok true m' /\
     shape 3 3 (load ekf_R_mag m') /\
     (forall i j, (i < 3)%nat -> (j < 3)%nat ->
        data (load ekf_R_mag m') i j
        = Some (if (i =? j)%nat then mag_std * mag_std else f_0)) /\
     same_outside [ekf_R_mag] m m').
Proof.
  intros Hw. split; [|split; [|split]].
  - intros. apply ekf_set_process_noise_run, Hw.
  - intros. apply ekf_set_gps_noise_run, Hw.
  - intros. apply ekf_set_baro_noise_run, Hw.
  - intros. apply ekf_set_mag_noise_run, Hw.
Qed.
End NoiseSetters.

Section FieldFrames.
Context {T : Type} `{Scalar T}.
Implicit Types (m : mem T).

Lemma stable_get_initialized I : stable I (@get_initialized T).
Proof. intros m Hm. exact Hm. Qed.

Lemma stable_get_gravity I : stable I (@get_gravity T).
Proof. intros m Hm. exact Hm. Qed.

Lemma stable_get_earth_mag_ned I : stable I (@get_earth_mag_ned T).
Proof. intros m Hm. exact Hm. Qed.

Lemma stable_let {A B} I (v : A) (k : A -> M T B) :
  (forall x, stable I (k x)) -> stable I (let x := v in k x).
Proof. intros Hk. apply Hk. Qed.
End FieldFrames.

(** Decompose a goal [stable (same_outside ps m) c] along [c]. *)
Ltac frame_step :=
  lazymatch goal with
  | |- stable _ (bind _ _) => apply stable_bind; [| intros ]
  | |- stable _ (let _ := _ in _) => apply stable_let; intros
  | |- stable _ get_initialized => apply stable_get_initialized
  | |- stable _ get_gravity => apply stable_get_gravity
  | |- stable _ get_earth_mag_ned => apply stable_get_earth_mag_ned
  | |- stable _ (matrix_get _ _ _) => apply stable_matrix_get
  | |- stable _ (matrix_set _ _ _ _) =>
      apply stable_matrix_set; apply untouched_same_outside; reflexivity
  | |- stable _ (matrix_zero _) =>
      apply stable_matrix_zero; apply untouched_same_outside; reflexivity
  | |- stable _ (matrix_identity _) =>
      apply stable_matrix_identity; apply untouched_same_outside; reflexivity
  | |- stable _ (matrix_transpose _ _) =>
      apply stable_matrix_transpose; apply untouched_same_outside; reflexivity
  | |- stable _ (matrix_multiply _ _ _) =>
      apply stable_matrix_multiply; apply untouched_same_outside; reflexivity
  | |- stable _ (matrix_scale _ _ _) =>
      apply stable_matrix_scale; apply untouched_same_outside; reflexivity
  | |- stable _ (matrix_add _ _ _) =>
      apply stable_matrix_add; apply untouched_same_outside; reflexivity
  | |- stable _ (matrix_subtract _ _ _) =>
      apply stable_matrix_subtract; apply untouched_same_outside; reflexivity
  | |- stable _ (matrix_inverse _ _) =>
      apply stable_matrix_inverse; apply untouched_same_outside; reflexivity
  | |- stable _ (assign _ _) =>
      apply stable_assign; apply untouched_same_outside; reflexivity
  | |- _ => stable_step
  end.

Section PredictTotal.
Context {T : Type} `{Scalar T}.
Implicit Types (m : mem T).
Local Open Scope c_scope.

(** [ekf_predict] writes x, P and its locals and nothing else. *)
Lemma ekf_predict_frame gyro accel dt m (b : bool) m' :
  ekf_predict gyro accel dt m = Ok b m' ->
  same_outside [ekf_x; ekf_P; id_m; pred_F; pred_F_transpose; pred_temp1;
                pred_temp2; pred_scaled_Q] m m'.
Proof.
  intros E.
  set (ps := [ekf_x; ekf_P; id_m; pred_F; pred_F_transpose; pred_temp1;
              pred_temp2; pred_scaled_Q]).
  assert (Hs : stable (same_outside ps m) (ekf_predict gyro accel dt)).
  { unfold ekf_predict, ekf_compute_jacobian.
    repeat frame_step. }
  specialize (Hs m (same_outside_refl _ m)). now rewrite E in Hs.
Qed.

(** X26.  [ekf_predict] runs to its end on every filter whose matrices
    have their shapes, whatever its inputs: no index leaves
    [data[16][16]] and no unwritten cell is read.  It returns true
    exactly when the filter is initialized and dt <= 0 does not hold;
    when it returns false the store is untouched; in both cases the
    shapes, [initialized] and the gyro and accelerometer biases are
    kept. *)
Theorem ekf_predict_total m gyro accel dt :
  wf_filter m ->
  exists (b : bool) m',
    ekf_predict gyro accel dt m = Ok b m' /\
    b = negb (dt <=? f_0)%fl && initialized m /\
    (b = false -> m' = m) /\
    wf_filter m' /\
    initialized m' = initialized m /\
    gyro_bias m' = gyro_bias m /\ accel_bias m' = accel_bias m.
Proof.
  intros Hw.
  destruct (dt <=? f_0)%fl eqn:Hdt.
  { exists false, m. unfold ekf_predict. rewrite Hdt.
    split; [reflexivity|]. split; [reflexivity|]. split; [reflexivity|].
    split; [exact Hw|]. now repeat split. }
  destruct (initialized m) eqn:Hi.
  2:{ exists false, m. unfold ekf_predict. rewrite Hdt.
      unfold bind at 1, get_initialized. rewrite Hi. cbn [negb].
      split; [reflexivity|]. split; [reflexivity|]. split; [reflexivity|].
      split; [exact Hw|]. split; [first [exact Hi | reflexivity]|]. now split. }
  destruct (ekf_predict_run m gyro accel dt Hw Hi Hdt)
    as [m' [E [HP [[HwF _] [_ [_ [_ [Hg [Ha [Hx HQ]]]]]]]]]].
  exists true, m'. split; [exact E|]. split; [reflexivity|].
  split; [discriminate|].
  pose proof (ekf_predict_frame gyro accel dt m true m' E) as [Hl [_ [_ Hinit]]].
  split; [| split; [congruence | now split]].
  split; [exact Hx|]. split.
  - rewrite HP. unfold propagated_covariance, mat_add.
    apply wf_tabulate_shape; cbn [rows cols mat_mul mat_transpose tabulate];
      apply HwF.
  - rewrite HQ, (Hl ekf_R_gps), (Hl ekf_R_baro), (Hl ekf_R_mag) by reflexivity.
    exact (proj2 (proj2 Hw)).
Qed.
End PredictTotal.

Section GainTotal.
Context {T : Type} `{Scalar T}.
Implicit Types (m : mem T).
Local Open Scope c_scope.

(** [ekf_compute_kalman_gain] writes its locals and K and nothing else. *)
Lemma kalman_gain_frame R_ m (ok : bool) m' :
  ekf_compute_kalman_gain upd_H R_ upd_K m = Ok ok m' ->
  same_outside [kg_H_transpose; kg_temp1; kg_temp2; kg_S; inv_augmented;
                kg_S_inv; kg_temp3; upd_K] m m'.
Proof.
  intros E.
  set (ps := [kg_H_transpose; kg_temp1; kg_temp2; kg_S; inv_augmented;
              kg_S_inv; kg_temp3; upd_K]).
  assert (Hs : stable (same_outside ps m) (ekf_compute_kalman_gain upd_H R_ upd_K)).
  { unfold ekf_compute_kalman_gain.
    repeat first
      [ apply stable_matrix_transpose; apply untouched_same_outside; reflexivity
      | apply stable_matrix_multiply; apply untouched_same_outside; reflexivity
      | apply stable_matrix_add; apply untouched_same_outside; reflexivity
      | apply stable_matrix_inverse; apply untouched_same_outside; reflexivity
      | stable_step ]. }
  specialize (Hs m (same_outside_refl _ m)). now rewrite E in Hs.
Qed.

(** On innovation covariances of size k <= 8 the gain computation runs
    to its end. *)
Lemma kalman_gain_total m R_ k :
  In R_ [ekf_R_gps; ekf_R_baro; ekf_R_mag] ->
  k <= 8 ->
  wf_matrix k 16 (load upd_H m) ->
  wf_matrix 16 16 (load ekf_P m) ->
  wf_matrix k k (load R_ m) ->
  exists (ok : bool) m', ekf_compute_kalman_gain upd_H R_ upd_K m = Ok ok m'.
Proof.
  intros HR Hk [[HHr HHc] HHd] [[HPr HPc] HPd] [[HRr HRc] HRd].
  unfold ekf_compute_kalman_gain.
  destruct HR as [<- | [<- | [<- | []]]].
  all: erewrite bind_ok;
       [| apply matrix_transpose_spec; first [reflexivity | lia | assumption]].
  all: run_op matrix_multiply_spec.
  all: run_op matrix_multiply_spec.
  all: run_op matrix_add_spec.
  all: match goal with
       | |- exists ok m', bind (matrix_inverse _ _) _ ?mk = _ =>
           destruct (matrix_inverse_runs kg_S kg_S_inv k mk Hk)
             as [ok [mI [EI [HwI [Hl Hs]]]]];
           [ rewrite load_store_same; apply wf_tabulate_shape;
             cbn [rows cols mat_add mat_mul tabulate]; assumption
           | reflexivity | reflexivity | ]
       end.
  all: erewrite bind_ok by exact EI.
  all: destruct ok; cbn [negb]; [| eexists; eexists; reflexivity].
  all: destruct (HwI eq_refl) as [[HIr HIc] HId].
  all: erewrite bind_ok;
       [| apply matrix_multiply_spec; rewrite ?Hl by reflexivity; mem_norm;
          cbn [rows cols mat_mul mat_transpose tabulate];
          first [reflexivity | lia | assumption | apply tabulate_defined]].
  all: rewrite ?Hl by reflexivity; mem_norm.
  all: erewrite bind_ok;
       [| apply matrix_multiply_spec; mem_norm;
          cbn [rows cols mat_mul mat_transpose tabulate];
          first [reflexivity | lia | assumption | apply tabulate_defined]].
  all: eexists; eexists; reflexivity.
Qed.
End GainTotal.

Section TailTotal.
Context {T : Type} `{Scalar T}.
Implicit Types (m : mem T).
Local Open Scope c_scope.

Lemma same_outside_weaken ps ps' m m' :
  (forall p, only ps' p = false -> only ps p = false) ->
  same_outside ps m m' -> same_outside ps' m m'.
Proof.
  intros Hsub [Hl Hs]. split; [| exact Hs].
  intros p Hp. apply Hl. now apply Hsub.
Qed.

(** The part the three updates share runs to its end: it returns false
    with the state and the covariance as they were, or true with both
    corrected. *)
Lemma update_tail_total mk R_ k :
  In R_ [ekf_R_gps; ekf_R_baro; ekf_R_mag] ->
  k <= 8 ->
  wf_matrix 16 1 (load ekf_x mk) -> wf_matrix 16 16 (load ekf_P mk) ->
  wf_matrix k 16 (load upd_H mk) -> wf_matrix k 1 (load upd_y mk) ->
  wf_matrix k k (load R_ mk) ->
  exists (b : bool) m',
    (ok <- ekf_compute_kalman_gain upd_H R_ upd_K ;;
     if negb ok then ret false
     else ekf_update_state_covariance upd_K upd_y upd_H) mk = Ok b m' /\
    wf_matrix 16 1 (load ekf_x m') /\
    wf_matrix 16 16 (load ekf_P m') /\
    (b = false -> load ekf_x m' = load ekf_x mk /\ load ekf_P m' = load ekf_P mk) /\
    (b = true -> exists q, state_quaternion m' = quaternion_normalize q) /\
    same_outside [ekf_x; ekf_P; id_m; usc_dx; usc_I; usc_KH; usc_I_KH;
                  usc_P_new; usc_P_transpose;
                  kg_H_transpose; kg_temp1; kg_temp2; kg_S; inv_augmented;
                  kg_S_inv; kg_temp3; upd_K] mk m'.
Proof.
  intros HR Hk Hx HP HH Hy HRw.
  destruct (kalman_gain_total mk R_ k HR Hk HH HP HRw) as [ok [mK EK]].
  pose proof (kalman_gain_frame R_ mk ok mK EK) as HfK.
  destruct ok.
  - destruct (kalman_gain_succeeds mk R_ k mK HR ltac:(lia) HH HP HRw EK) as [HK [Hl Hs]].
    destruct (ekf_update_state_covariance_run mK k ltac:(lia)) as [m'' [E' _]].
    + rewrite Hl by reflexivity. exact Hx.
    + rewrite Hl by reflexivity. exact HP.
    + exact HK.
    + rewrite Hl by reflexivity. exact Hy.
    + rewrite Hl by reflexivity. exact HH.
    + assert (E : (ok <- ekf_compute_kalman_gain upd_H R_ upd_K ;;
                   if negb ok then ret false
                   else ekf_update_state_covariance upd_K upd_y upd_H) mk = Ok true m'').
      { erewrite bind_ok by exact EK. exact E'. }
      destruct (update_tail_succeeds mk R_ k m'' HR ltac:(lia) Hx HP HH Hy HRw E)
        as [Hq [Hx' [HP' Hf]]].
      exists true, m''. split; [exact E|]. split; [exact Hx'|]. split; [exact HP'|].
      split; [discriminate|]. split; [intros _; exact Hq | exact Hf].
  - exists false, mK. split; [erewrite bind_ok by exact EK; reflexivity|].
    destruct HfK as [Hl Hs].
    rewrite !Hl by reflexivity.
    split; [exact Hx|]. split; [exact HP|]. split; [intros _; now split|].
    split; [discriminate|].
    apply same_outside_weaken with
      (ps := [kg_H_transpose; kg_temp1; kg_temp2; kg_S; inv_augmented;
              kg_S_inv; kg_temp3; upd_K]); [| now split].
    intros p Hp. simpl in Hp |- *.
    repeat (apply orb_false_elim in Hp; destruct Hp as [? Hp]).
    repeat (apply orb_false_intro; try assumption).
Qed.
End TailTotal.

(** Conclude an update from the shared tail. *)
Ltac finish_update R_ k HwH Hw Hi :=
  match goal with
  | |- exists b m', bind (ekf_compute_kalman_gain _ _ _) _ ?mk = Ok b m' /\ _ =>
      let b := fresh "b" in
      let m' := fresh "m'" in
      let E := fresh "E" in
      let Hx := fresh "Hx" in
      let HP := fresh "HP" in
      let Hf := fresh "Hf" in
      let Ht := fresh "Ht" in
      let Hl := fresh "Hl" in
      let Hrest := fresh "Hrest" in
      destruct (@update_tail_total _ _ mk R_ k)
        as [b [m' [E [Hx [HP [Hf [Ht [Hl Hrest]]]]]]]];
      [ simpl; tauto
      | lia
      | mem_norm; apply Hw
      | mem_norm; apply Hw
      | mem_norm; exact HwH
      | mem_norm; apply wf_tabulate_shape; cbn [rows cols tabulate]; reflexivity
      | mem_norm; apply Hw
      | exists b, m'; split; [exact E|]; split;
        [ split; [exact Hx|]; split; [exact HP|];
          rewrite (Hl ekf_Q), (Hl ekf_R_gps), (Hl ekf_R_baro), (Hl ekf_R_mag)
            by reflexivity;
          mem_norm; exact (proj2 (proj2 Hw))
        | split;
          [ destruct Hrest as [_ [_ ->]]; mem_norm; first [exact Hi | reflexivity]
          | split;
            [ intros Hb; destruct (Hf Hb) as [-> ->]; mem_norm; split; reflexivity
            | exact Ht ] ] ] ]
  end.

Section UpdateTotal.
Context {T : Type} `{Scalar T}.
Implicit Types (m : mem T).
Local Open Scope c_scope.

Lemma ekf_update_gps_total m pos vel :
  wf_filter m ->
  exists (b : bool) m',
    ekf_update_gps pos vel m = Ok b m' /\
    wf_filter m' /\
    initialized m' = initialized m /\
    (b = false -> load ekf_x m' = load ekf_x m /\ load ekf_P m' = load ekf_P m) /\
    (b = true -> exists q, state_quaternion m' = quaternion_normalize q).
Proof.
  intros Hw.
  destruct (initialized m) eqn:Hi.
  2:{ exists false, m. unfold ekf_update_gps, bind at 1, get_initialized.
      rewrite Hi. cbn [negb]. split; [reflexivity|]. split; [exact Hw|].
      split; [first [exact Hi | reflexivity]|]. split; [now split | discriminate]. }
  destruct (ekf_compute_gps_jacobian_run m) as [H_ [EH' HwH]].
  unfold ekf_update_gps.
  unfold bind at 1, get_initialized. rewrite Hi. cbn [negb].
  erewrite bind_ok by exact EH'.
  erewrite bind_ok; [| apply ekf_get_position_run; mem_norm; [apply Hw | exact Hi]].
  erewrite bind_ok; [| apply ekf_get_velocity_run; mem_norm; [apply Hw | exact Hi]].
  rewrite !matrix_create_le by lia.
  unfold bind at 1, assign. unfold bind at 1.
  do 12 run_set.
  erewrite bind_ok;
    [| apply matrix_subtract_spec; mem_norm; cbn [rows cols tabulate];
       first [reflexivity | lia | defined_by_sets]].
  finish_update ekf_R_gps 6 HwH Hw Hi.
Qed.
End UpdateTotal.

Section UpdateTotal2.
Context {T : Type} `{Scalar T}.
Implicit Types (m : mem T).
Local Open Scope c_scope.

Lemma ekf_update_baro_total m altitude :
  wf_filter m ->
  exists (b : bool) m',
    ekf_update_baro altitude m = Ok b m' /\
    wf_filter m' /\
    initialized m' = initialized m /\
    (b = false -> load ekf_x m' = load ekf_x m /\ load ekf_P m' = load ekf_P m) /\
    (b = true -> exists q, state_quaternion m' = quaternion_normalize q).
Proof.
  intros Hw.
  destruct (initialized m) eqn:Hi.
  2:{ exists false, m. unfold ekf_update_baro, bind at 1, get_initialized.
      rewrite Hi. cbn [negb]. split; [reflexivity|]. split; [exact Hw|].
      split; [first [exact Hi | reflexivity]|]. split; [now split | discriminate]. }
  destruct (ekf_compute_baro_jacobian_run m) as [H_ [EH' HwH]].
  unfold ekf_update_baro.
  unfold bind at 1, get_initialized. rewrite Hi. cbn [negb].
  erewrite bind_ok by exact EH'.
  erewrite bind_ok; [| apply ekf_get_position_run; mem_norm; [apply Hw | exact Hi]].
  rewrite !matrix_create_le by lia.
  unfold bind at 1, assign. unfold bind at 1.
  do 2 run_set.
  erewrite bind_ok;
    [| apply matrix_subtract_spec; mem_norm; cbn [rows cols tabulate];
       first [reflexivity | lia | defined_by_sets]].
  finish_update ekf_R_baro 1 HwH Hw Hi.
Qed.

Lemma ekf_update_mag_total m mag :
  wf_filter m ->
  exists (b : bool) m',
    ekf_update_mag mag m = Ok b m' /\
    wf_filter m' /\
    initialized m' = initialized m /\
    (b = false -> load ekf_x m' = load ekf_x m /\ load ekf_P m' = load ekf_P m) /\
    (b = true -> exists q, state_quaternion m' = quaternion_normalize q).
Proof.
  intros Hw.
  destruct (initialized m) eqn:Hi.
  2:{ exists false, m. unfold ekf_update_mag, bind at 1, get_initialized.
      rewrite Hi. cbn [negb]. split; [reflexivity|]. split; [exact Hw|].
      split; [first [exact Hi | reflexivity]|]. split; [now split | discriminate]. }
  destruct (@ekf_compute_mag_jacobian_run _ _ m) as [H_ [EH' HwH]]; [apply Hw|].
  unfold ekf_update_mag.
  unfold bind at 1, get_initialized. rewrite Hi. cbn [negb].
  erewrite bind_ok by exact EH'.
  erewrite bind_ok; [| apply ekf_get_attitude_run; mem_norm; [apply Hw | exact Hi]].
  unfold bind at 1, get_earth_mag_ned.
  rewrite !matrix_create_le by lia.
  unfold bind at 1, assign. unfold bind at 1.
  do 6 run_set.
  erewrite bind_ok;
    [| apply matrix_subtract_spec; mem_norm; cbn [rows cols tabulate];
       first [reflexivity | lia | defined_by_sets]].
  finish_update ekf_R_mag 3 HwH Hw Hi.
Qed.

(** X27.  [ekf_update_gps] and [ekf_update_baro] run to their end on every
    filter whose matrices have their shapes: no index leaves
    [data[16][16]] and no unwritten cell is read.  They keep the shapes
    and [initialized]; when they return false the state and the
    covariance are untouched, when they return true the quaternion
    sub-state is the result of [quaternion_normalize]. *)
Theorem position_updates_total m :
  wf_filter m ->
  (forall pos vel, exists (b : bool) m',
     ekf_update_gps pos vel m = Ok b m' /\
     wf_filter m' /\
     initialized m' = initialized m /\
     (b = false -> load ekf_x m' = load ekf_x m /\ load ekf_P m' = load ekf_P m) /\
     (b = true -> exists q, state_quaternion m' = quaternion_normalize q)) /\
  (forall altitude, exists (b : bool) m',
     ekf_update_baro altitude m = Ok b m' /\
     wf_filter m' /\
     initialized m' = initialized m /\
     (b = false -> load ekf_x m' = load ekf_x m /\ load ekf_P m' = load ekf_P m) /\
     (b = true -> exists q, state_quaternion m' = quaternion_normalize q)).
Proof.
  intros Hw. split.
  - intros pos vel. now apply ekf_update_gps_total.
  - intros altitude. now apply ekf_update_baro_total.
Qed.

(** X28.  [ekf_update_mag] runs to its end on every filter whose matrices
    have their shapes, keeps the shapes and [initialized], leaves the
    state and the covariance untouched when it returns false, and a
    normalized quaternion sub-state when it returns true. *)
Theorem magnetometer_update_total m mag :
  wf_filter m ->
  exists (b : bool) m',
    ekf_update_mag mag m = Ok b m' /\
    wf_filter m' /\
    initialized m' = initialized m /\
    (b = false -> load ekf_x m' = load ekf_x m /\ load ekf_P m' = load ekf_P m) /\
    (b = true -> exists q, state_quaternion m' = quaternion_normalize q).
Proof. apply ekf_update_mag_total. Qed.

(** X29.  The state correction of [ekf_update_state_covariance] does not
    add K y to the state: [matrix_add(&ekf->x, &dx, &ekf->x)] clears x
    before it reads it, so every component outside the quaternion
    becomes 0 + (K y)_i, the quaternion becomes the normalized
    (0 + (K y)_6, ..., 0 + (K y)_9), and the state before the call has no
    part in the result.  The covariance becomes the symmetrized
    (I - K H) P. *)
Theorem correction_discards_prior_state m k :
  k <= 16 ->
  wf_matrix 16 1 (load ekf_x m) -> wf_matrix 16 16 (load ekf_P m) ->
  wf_matrix 16 k (load upd_K m) -> wf_matrix k 1 (load upd_y m) ->
  wf_matrix k 16 (load upd_H m) ->
  exists m',
    ekf_update_state_covariance upd_K upd_y upd_H m = Ok true m' /\
    let dx := mat_mul (load upd_K m) (load upd_y m) in
    (forall i, i < 16 -> (i < 6 \/ 10 <= i) ->
       data (load ekf_x m') i 0 = Some (f_0 + cell dx i 0)%fl) /\
    state_quaternion m'
    = quaternion_normalize
        (mkQuaternion (f_0 + cell dx 6 0)%fl (f_0 + cell dx 7 0)%fl
                      (f_0 + cell dx 8 0)%fl (f_0 + cell dx 9 0)%fl) /\
    load ekf_P m' = corrected_covariance (load upd_K m) (load upd_H m) (load ekf_P m).
Proof.
  intros Hk Hx HP HK Hy HH.
  destruct (ekf_update_state_covariance_run m k Hk Hx HP HK Hy HH)
    as [m' [E [Hs [Hq [_ [HP' _]]]]]].
  exists m'. split; [exact E|]. cbv zeta. split; [exact Hs|]. split; [exact Hq | exact HP'].
Qed.
End UpdateTotal2.

Section ExactCovariance.
Import Exact.
Local Open Scope R_scope.

(** X30.  In exact arithmetic the covariance that the correction step
    leaves is symmetric. *)
Theorem corrected_covariance_symmetric (m : mem R) k :
  (k <= 16)%nat ->
  wf_matrix 16 1 (load ekf_x m) -> wf_matrix 16 16 (load ekf_P m) ->
  wf_matrix 16 k (load upd_K m) -> wf_matrix k 1 (load upd_y m) ->
  wf_matrix k 16 (load upd_H m) ->
  exists m',
    ekf_update_state_covariance upd_K upd_y upd_H m = Ok true m' /\
    forall i j, (i < 16)%nat -> (j < 16)%nat ->
      cell (load ekf_P m') i j = cell (load ekf_P m') j i.
Proof.
  intros Hk Hx HP HK Hy HH.
  destruct (ekf_update_state_covariance_run m k Hk Hx HP HK Hy HH)
    as [m' [E [_ [_ [_ [HP' _]]]]]].
  exists m'. split; [exact E|]. intros i j Hi Hj. rewrite HP'.
  destruct HP as [[HPr HPc] _]. destruct HK as [[HKr HKc] _].
  unfold corrected_covariance.
  set (Pn := mat_mul _ _).
  assert (Hr : rows Pn = 16%nat) by reflexivity.
  assert (Hc : cols Pn = 16%nat) by exact HPc.
  unfold mat_scale, mat_add, mat_transpose.
  cbn [rows cols tabulate]. rewrite Hr, Hc.
  rewrite !cell_tabulate by assumption.
  cbv [fadd fmul Scalar_R]. ring.
Qed.
End ExactCovariance.

(* ================================================================== *)
(** ** The attitude keeps norm 1 *)
(* ================================================================== *)

Section ExactAttitude.
Import Exact.
Local Open Scope c_scope.
Implicit Types (m : mem R).

Lemma unit_after_normalize m (q : Quaternion R) :
  state_quaternion m = quaternion_normalize q -> unit_attitude m.
Proof.
  intros E. unfold unit_attitude. rewrite E, normalize_has_norm_1.
  cbv [f_1 f_lit Scalar_R]. field.
Qed.

(** X7.  In exact arithmetic, on a filter whose matrices have their
    shapes, the quaternion sub-state has norm 1 after
    [ekf_set_initial_state] and after [ekf_reset], and after every
    [ekf_predict], [ekf_update_gps] and [ekf_update_baro] that returns
    true. *)
Theorem attitude_unit_norm m :
  wf_filter m ->
  (forall pos vel q, exists m',
     ekf_set_initial_state pos vel q m = Ok true m' /\ unit_attitude m') /\
  (exists m', ekf_reset m = Ok true m' /\ unit_attitude m') /\
  (forall gyro accel dt m',
     ekf_predict gyro accel dt m = Ok true m' -> unit_attitude m') /\
  (forall pos vel m', ekf_update_gps pos vel m = Ok true m' -> unit_attitude m') /\
  (forall altitude m', ekf_update_baro altitude m = Ok true m' -> unit_attitude m').
Proof.
  intros Hw. split; [|split; [|split; [|split]]].
  - intros pos vel q.
    destruct (ekf_set_initial_state_store m pos vel q Hw) as [m' [E [Hq _]]].
    exists m'. split; [exact E|]. exact (unit_after_normalize m' q Hq).
  - destruct (ekf_reset_run m Hw) as [m' [E [_ [_ [Hx _]]]]].
    exists m'. split; [exact E|].
    unfold unit_attitude, state_quaternion, state_component, cell.
    state_indices. rewrite !Hx by lia. cbn [Nat.eqb].
    unfold quaternion_magnitude. cbn [qw qx qy qz].
    cbv [fadd fmul sqrtf f_0 f_1 f_lit Scalar_R].
    replace (1 / 1 * (1 / 1) + 0 / 1 * (0 / 1) + 0 / 1 * (0 / 1) + 0 / 1 * (0 / 1))%R
      with 1%R by field.
    rewrite sqrt_1. field.
  - intros gyro accel dt m' E.
    destruct (dt <=? f_0)%fl eqn:Hdt.
    { unfold ekf_predict in E. rewrite Hdt in E. discriminate E. }
    destruct (initialized m) eqn:Hi.
    2:{ unfold ekf_predict in E. rewrite Hdt in E.
        unfold bind at 1, get_initialized in E. rewrite Hi in E. discriminate E. }
    destruct (ekf_predict_run m gyro accel dt Hw Hi Hdt)
      as [m'' [E' [_ [_ [Hq _]]]]].
    rewrite E' in E. injection E as <-.
    exact (unit_after_normalize m'' _ Hq).
  - intros pos vel m' E.
    destruct (ekf_update_gps_total m pos vel Hw) as [b [m'' [E' [_ [_ [_ Hq]]]]]].
    rewrite E' in E. injection E as -> <-.
    destruct (Hq eq_refl) as [q Hq']. exact (unit_after_normalize m'' q Hq').
  - intros altitude m' E.
    destruct (ekf_update_baro_total m altitude Hw) as [b [m'' [E' [_ [_ [_ Hq]]]]]].
    rewrite E' in E. injection E as -> <-.
    destruct (Hq eq_refl) as [q Hq']. exact (unit_after_normalize m'' q Hq').
Qed.
End ExactAttitude.
Lemma rotation_conjugate_round_trip_witness :
  quaternion_magnitude (mkQuaternion 0%R 1%R 0%R 0%R) = 1%R /\
  quaternion_rotate_vector (quaternion_conjugate (mkQuaternion 0%R 1%R 0%R 0%R))
    (quaternion_rotate_vector (mkQuaternion 0%R 1%R 0%R 0%R) (mkVector3f 1%R 2%R 3%R))
  = mkVector3f 1%R 2%R 3%R.
Proof.
  assert (Hn : quaternion_magnitude (mkQuaternion 0%R 1%R 0%R 0%R) = 1%R).
  { unfold quaternion_magnitude. cbn [qw qx qy qz]. exact_ops.
    replace (0 * 0 + 1 * 1 + 0 * 0 + 0 * 0)%R with 1%R by ring. apply sqrt_1. }
  split; [exact Hn|].
  exact (rotation_conjugate_round_trip _ _ Hn).
Defined.


(* ================================================================== *)
(** ** Witnesses: the theorems at concrete stores *)
(* ================================================================== *)

Lemma fresh_filter_wf : wf_filter Concrete.fresh_filter.
Proof. apply wf_filterb_ok. vm_compute. reflexivity. Qed.

Lemma initial_fix_wf : wf_filter Concrete.initial_fix.
Proof. apply wf_filterb_ok. vm_compute. reflexivity. Qed.

Lemma exact_fresh_filter_wf : wf_filter ExactConcrete.fresh_filter.
Proof.
  unfold ExactConcrete.fresh_filter, final.
  destruct (ekf_init_run (@blank R _)) as [m' [E [Hw _]]].
  rewrite E. exact Hw.
Qed.

Lemma attitude_unit_norm_witness :
  wf_filter ExactConcrete.fresh_filter /\
  exists m', ekf_reset ExactConcrete.fresh_filter = Ok true m' /\ unit_attitude m'.
Proof.
  split; [exact exact_fresh_filter_wf|].
  exact (proj1 (proj2 (attitude_unit_norm _ exact_fresh_filter_wf))).
Defined.

Lemma calibration_result_witness :
  (0 < 1)%Z /\
  exists v,
    ekf_calibrate_magnetic_field (Some ExactConcrete.one_mag)
      (Some ExactConcrete.one_accel) 1 (@blank R _) = Ok v blank /\
    (vector3f_c.vector3f_magnitude v = 1%R \/
     (vector3f_c.vector3f_magnitude v <= 1 / 1000000)%R).
Proof.
  split; [lia|].
  apply calibration_result; [lia | simpl; lia | simpl; lia].
Defined.

Lemma matrix_library_rejects_witness :
  matrix_add ekf_x ekf_R_gps ext_a Concrete.fresh_filter
  = Ok false Concrete.fresh_filter /\
  matrix_multiply ekf_x ekf_R_gps ext_a Concrete.fresh_filter
  = Ok false Concrete.fresh_filter /\
  matrix_inverse ekf_x ext_a Concrete.fresh_filter = Ok false Concrete.fresh_filter /\
  matrix_get ekf_x 16 0 Concrete.fresh_filter = Ok None Concrete.fresh_filter /\
  matrix_get_row ekf_x 0 (Some Concrete.four_slots) 2 Concrete.fresh_filter
  = Ok None Concrete.fresh_filter /\
  matrix_set_column ekf_x 1 (Some Concrete.three_values) 2 Concrete.fresh_filter
  = Ok false Concrete.fresh_filter.
Proof.
  destruct (matrix_library_rejects ekf_x ekf_R_gps ext_a 16 1 (Binary32.of_Z 1)
              (Some Concrete.three_values) 2 Concrete.fresh_filter)
    as [H1 [H2 [H3 [H4 [_ H6]]]]].
  destruct (matrix_library_rejects ekf_x ekf_R_gps ext_a 0 0 (Binary32.of_Z 1)
              (Some Concrete.four_slots) 2 Concrete.fresh_filter)
    as [_ [_ [_ [_ [H5 _]]]]].
  split; [apply H1; vm_compute; reflexivity|].
  split; [apply H2; vm_compute; reflexivity|].
  split; [apply H3; vm_compute; reflexivity|].
  split; [apply H4; left; vm_compute; lia|].
  split; [apply H5; right; right; vm_compute; lia|].
  apply H6. right. left. vm_compute. lia.
Defined.

Lemma matrix_set_get_round_trip_witness :
  1 < rows (load ekf_R_mag Concrete.fresh_filter) /\
  2 < cols (load ekf_R_mag Concrete.fresh_filter) /\
  exists m',
    matrix_set ekf_R_mag 1 2 (Binary32.of_Z 7) Concrete.fresh_filter = Ok true m' /\
    matrix_get ekf_R_mag 1 2 m' = Ok (Some (Binary32.of_Z 7)) m'.
Proof.
  assert (H1 : 1 < rows (load ekf_R_mag Concrete.fresh_filter)) by (vm_compute; lia).
  assert (H2 : 2 < cols (load ekf_R_mag Concrete.fresh_filter)) by (vm_compute; lia).
  split; [exact H1|]. split; [exact H2|].
  destruct (matrix_set_get_round_trip ekf_R_mag 1 2 (Binary32.of_Z 7)
              Concrete.fresh_filter H1 H2
              ltac:(vm_compute; lia) ltac:(vm_compute; lia))
    as [m' [E [Eg _]]].
  exists m'. now split.
Defined.

Lemma matrix_transpose_round_trip_witness :
  defined (load ekf_x Concrete.fresh_filter) /\
  exists m1 m2,
    matrix_transpose ekf_x ext_a Concrete.fresh_filter = Ok true m1 /\
    matrix_transpose ext_a ext_b m1 = Ok true m2 /\
    rows (load ext_b m2) = 16 /\ cols (load ext_b m2) = 1.
Proof.
  assert (Hd : defined (load ekf_x Concrete.fresh_filter))
    by (apply definedb_ok; vm_compute; reflexivity).
  split; [exact Hd|].
  destruct (matrix_transpose_round_trip ekf_x ext_a ext_b Concrete.fresh_filter
              eq_refl eq_refl eq_refl
              ltac:(vm_compute; lia) ltac:(vm_compute; lia) Hd)
    as [m1 [m2 [E1 [E2 [Hr [Hc _]]]]]].
  exists m1, m2. split; [exact E1|]. split; [exact E2|].
  split; [rewrite Hr | rewrite Hc]; vm_compute; reflexivity.
Defined.

Lemma matrix_add_result_aliasing_witness :
  defined (load ekf_P Concrete.fresh_filter) /\
  defined (load ekf_Q Concrete.fresh_filter) /\
  exists m',
    matrix_add ekf_P ekf_Q ekf_P Concrete.fresh_filter = Ok true m' /\
    data (load ekf_P m') 0 0
    = Some (f_0 + cell (load ekf_Q Concrete.fresh_filter) 0 0)%fl.
Proof.
  assert (HdP : defined (load ekf_P Concrete.fresh_filter))
    by (apply definedb_ok; vm_compute; reflexivity).
  assert (HdQ : defined (load ekf_Q Concrete.fresh_filter))
    by (apply definedb_ok; vm_compute; reflexivity).
  split; [exact HdP|]. split; [exact HdQ|].
  destruct (matrix_add_result_aliasing ekf_P ekf_Q ext_a Concrete.fresh_filter
              eq_refl eq_refl eq_refl
              ltac:(vm_compute; lia) ltac:(vm_compute; lia) HdP
              ltac:(vm_compute; reflexivity) ltac:(vm_compute; reflexivity) HdQ)
    as [_ [m' [E Hcells]]].
  exists m'. split; [exact E|].
  apply Hcells; vm_compute; lia.
Defined.

Lemma matrix_inverse_safe_witness :
  wf_matrix 6 6 (load ekf_R_gps Concrete.fresh_filter) /\
  exists (ok : bool) m',
    matrix_inverse ekf_R_gps ext_a Concrete.fresh_filter = Ok ok m'.
Proof.
  assert (Hw : wf_matrix 6 6 (load ekf_R_gps Concrete.fresh_filter))
    by (apply wf_matrixb_ok; vm_compute; reflexivity).
  split; [exact Hw|].
  destruct (matrix_inverse_safe ekf_R_gps ext_a 6 Concrete.fresh_filter
              ltac:(lia) Hw eq_refl eq_refl) as [ok [m' [E _]]].
  exists ok, m'. exact E.
Defined.

Lemma matrix_inverse_scalar_witness :
  wf_matrix 1 1 (load ekf_R_baro Concrete.fresh_filter) /\
  exists m',
    matrix_inverse ekf_R_baro ext_a Concrete.fresh_filter = Ok true m' /\
    data (load ext_a m') 0 0 = Some (Binary32.of_Z 1).
Proof.
  assert (Hw : wf_matrix 1 1 (load ekf_R_baro Concrete.fresh_filter))
    by (apply wf_matrixb_ok; vm_compute; reflexivity).
  split; [exact Hw|].
  destruct (matrix_inverse_scalar ekf_R_baro ext_a Concrete.fresh_filter
              Hw eq_refl eq_refl) as [m' [E Hres]].
  exists m'.
  assert (Hbig : (fabsf (cell (load ekf_R_baro Concrete.fresh_filter) 0 0)
                  <? f_1em6)%fl = false) by (vm_compute; reflexivity).
  rewrite Hbig in E, Hres. split; [exact E|].
  destruct Hres as [_ ->]. vm_compute. reflexivity.
Defined.

Lemma matrix_copy_spec_witness :
  defined (load ekf_R_gps Concrete.fresh_filter) /\
  exists m',
    matrix_copy ekf_R_gps ext_a Concrete.fresh_filter = Ok true m' /\
    rows (load ext_a m') = 6 /\ cols (load ext_a m') = 6.
Proof.
  assert (Hd : defined (load ekf_R_gps Concrete.fresh_filter))
    by (apply definedb_ok; vm_compute; reflexivity).
  split; [exact Hd|].
  destruct (matrix_copy_spec ekf_R_gps ext_a Concrete.fresh_filter eq_refl
              ltac:(vm_compute; lia) ltac:(vm_compute; lia) Hd)
    as [m' [E [Hr [Hc _]]]].
  exists m'. split; [exact E|].
  split; [rewrite Hr | rewrite Hc]; vm_compute; reflexivity.
Defined.

Lemma matrix_row_round_trip_witness :
  1 < rows (load ekf_R_mag Concrete.fresh_filter) /\
  3 <= cols (load ekf_R_mag Concrete.fresh_filter) /\
  exists m' out',
    matrix_set_row ekf_R_mag 1 (Some Concrete.three_values) 3 Concrete.fresh_filter
    = Ok true m' /\
    matrix_get_row ekf_R_mag 1 (Some Concrete.four_slots) 3 m' = Ok (Some out') m' /\
    nth_error out' 2 = Some (Binary32.of_Z 3) /\
    nth_error out' 3 = Some (Binary32.of_Z 0).
Proof.
  assert (H1 : 1 < rows (load ekf_R_mag Concrete.fresh_filter)) by (vm_compute; lia).
  assert (H2 : 3 <= cols (load ekf_R_mag Concrete.fresh_filter)) by (vm_compute; lia).
  split; [exact H1|]. split; [exact H2|].
  destruct (matrix_row_round_trip ekf_R_mag 1 Concrete.three_values
              Concrete.four_slots 3 Concrete.fresh_filter H1 H2
              ltac:(simpl; lia) ltac:(simpl; lia)
              ltac:(vm_compute; lia) ltac:(vm_compute; lia))
    as [m' [out' [Es [Eg [_ [Hin [Hout _]]]]]]].
  exists m', out'. split; [exact Es|]. split; [exact Eg|].
  split; [rewrite Hin by lia | rewrite Hout by lia]; reflexivity.
Defined.

Lemma before_correction_loads :
  load upd_K ExactConcrete.before_correction
  = tabulate 16 1 (fun i _ => if i =? 2 then f_half else f_0) /\
  load upd_y ExactConcrete.before_correction = tabulate 1 1 (fun _ _ => f_0) /\
  load upd_H ExactConcrete.before_correction
  = tabulate 1 16 (fun _ j => if j =? 2 then f_1 else f_0) /\
  load ekf_P ExactConcrete.before_correction = mat_identity 16 /\
  load ekf_x ExactConcrete.before_correction = ExactConcrete.state_north.
Proof. repeat split. Qed.

Lemma matrix_multiply_identity_witness :
  defined (load upd_K ExactConcrete.before_correction) /\
  exists m',
    (I_ <- matrix_identity 1 ;; assign ext_a I_ ;; matrix_multiply upd_K ext_a ext_b)%C
      ExactConcrete.before_correction = Ok true m' /\
    data (load ext_b m') 2 0 = Some (@f_half R _).
Proof.
  destruct before_correction_loads as [HK _].
  assert (Hd : defined (load upd_K ExactConcrete.before_correction))
    by (rewrite HK; apply tabulate_defined).
  split; [exact Hd|].
  destruct (matrix_multiply_identity upd_K ext_a ext_b ExactConcrete.before_correction
              eq_refl eq_refl eq_refl eq_refl
              ltac:(rewrite HK; cbn [rows tabulate]; lia)
              ltac:(rewrite HK; cbn [cols tabulate]; lia) Hd)
    as [[m' [E [_ Hcells]]] _].
  rewrite HK in E, Hcells. cbn [rows cols tabulate] in E, Hcells.
  exists m'. split; [exact E|].
  rewrite Hcells by lia. reflexivity.
Defined.

Lemma initial_state_round_trip_witness :
  wf_filter Concrete.fresh_filter /\
  exists m',
    ekf_set_initial_state (Concrete.vec 100 50 (-20)) (Concrete.vec 0 0 0)
      quaternion_identity Concrete.fresh_filter = Ok true m' /\
    ekf_get_position m' = Ok (Concrete.vec 100 50 (-20)) m'.
Proof.
  split; [exact fresh_filter_wf|].
  destruct (initial_state_round_trip Concrete.fresh_filter
              (Concrete.vec 100 50 (-20)) (Concrete.vec 0 0 0) quaternion_identity
              fresh_filter_wf) as [m' [E [_ [_ [Hp _]]]]].
  exists m'. now split.
Defined.

Lemma noise_setters_store_variances_witness :
  wf_filter Concrete.fresh_filter /\
  exists m',
    ekf_set_baro_noise (Binary32.of_Z 3) Concrete.fresh_filter = Ok true m' /\
    data (load ekf_R_baro m') 0 0 = Some (Binary32.of_Z 3 * Binary32.of_Z 3)%fl.
Proof.
  split; [exact fresh_filter_wf|].
  destruct (proj1 (proj2 (proj2 (noise_setters_store_variances
                                   Concrete.fresh_filter fresh_filter_wf)))
              (Binary32.of_Z 3)) as [m' [E [_ [Hc _]]]].
  exists m'. now split.
Defined.

Lemma ekf_predict_total_witness :
  wf_filter Concrete.initial_fix /\
  exists m',
    ekf_predict Concrete.yaw_rate Concrete.forward_accel f_1 Concrete.initial_fix
    = Ok true m' /\ wf_filter m'.
Proof.
  split; [exact initial_fix_wf|].
  destruct (ekf_predict_total Concrete.initial_fix Concrete.yaw_rate
              Concrete.forward_accel f_1 initial_fix_wf)
    as [b [m' [E [Hb [_ [Hw _]]]]]].
  exists m'. split; [| exact Hw].
  rewrite E. f_equal. rewrite Hb. vm_compute. reflexivity.
Defined.

Lemma position_updates_total_witness :
  wf_filter Concrete.initial_fix /\
  exists (b : bool) m',
    ekf_update_baro (Binary32.of_Z (-20)) Concrete.initial_fix = Ok b m' /\
    wf_filter m'.
Proof.
  split; [exact initial_fix_wf|].
  destruct (proj2 (position_updates_total Concrete.initial_fix initial_fix_wf)
              (Binary32.of_Z (-20))) as [b [m' [E [Hw _]]]].
  exists b, m'. now split.
Defined.

Lemma magnetometer_update_total_witness :
  wf_filter Concrete.initial_fix /\
  exists (b : bool) m',
    ekf_update_mag (Concrete.vec 1 0 0) Concrete.initial_fix = Ok b m' /\
    wf_filter m'.
Proof.
  split; [exact initial_fix_wf|].
  destruct (magnetometer_update_total Concrete.initial_fix (Concrete.vec 1 0 0)
              initial_fix_wf) as [b [m' [E [Hw _]]]].
  exists b, m'. now split.
Defined.

Lemma correction_discards_prior_state_witness :
  wf_matrix 16 1 (load ekf_x ExactConcrete.before_correction) /\
  cell (load ekf_x ExactConcrete.before_correction) 0 0 = (100 / 1)%R /\
  exists m',
    ekf_update_state_covariance upd_K upd_y upd_H ExactConcrete.before_correction
    = Ok true m' /\
    data (load ekf_x m') 0 0 = Some (0 / 1 + (0 / 1 + 0 / 1 * (0 / 1)))%R.
Proof.
  destruct before_correction_loads as [HK [Hy [HH [HP Hx]]]].
  assert (Hwx : wf_matrix 16 1 (load ekf_x ExactConcrete.before_correction))
    by (rewrite Hx; apply wf_tabulate).
  split; [exact Hwx|]. split; [reflexivity|].
  destruct (correction_discards_prior_state ExactConcrete.before_correction 1
              ltac:(lia) Hwx
              ltac:(rewrite HP; apply wf_tabulate)
              ltac:(rewrite HK; apply wf_tabulate)
              ltac:(rewrite Hy; apply wf_tabulate)
              ltac:(rewrite HH; apply wf_tabulate))
    as [m' [E [Hs _]]].
  exists m'. split; [exact E|].
  rewrite Hs by lia. reflexivity.
Defined.

Lemma corrected_covariance_symmetric_witness :
  wf_matrix 16 16 (load ekf_P ExactConcrete.before_correction) /\
  exists m',
    ekf_update_state_covariance upd_K upd_y upd_H ExactConcrete.before_correction
    = Ok true m' /\
    cell (load ekf_P m') 2 5 = cell (load ekf_P m') 5 2.
Proof.
  destruct before_correction_loads as [HK [Hy [HH [HP Hx]]]].
  assert (HwP : wf_matrix 16 16 (load ekf_P ExactConcrete.before_correction))
    by (rewrite HP; apply wf_tabulate).
  split; [exact HwP|].
  destruct (corrected_covariance_symmetric ExactConcrete.before_correction 1
              ltac:(lia)
              ltac:(rewrite Hx; apply wf_tabulate) HwP
              ltac:(rewrite HK; apply wf_tabulate)
              ltac:(rewrite Hy; apply wf_tabulate)
              ltac:(rewrite HH; apply wf_tabulate))
    as [m' [E Hsym]].
  exists m'. split; [exact E|]. apply Hsym; lia.
Defined.
